(** * llmstxt: the crawl-and-aggregate pipeline of [src/cli/actions/gen.js]

    A shallow embedding of [gen.js] and the properties of its batch
    scheduler, filter, title rewriting, section derivation and index
    assembly.

    Conventions of the embedding.
    - A JavaScript string is a [string]; each [ascii] stands for one code
      unit in the range 0..255.
    - A value that may be [undefined], [null] or a string is a [jsstr].
    - An exception is a [Throw] in the [result] type; [try]/[catch] is
      [try_catch].
    - The libraries the file calls (undici, cheerio, picomatch, sitemapper,
      turndown, the URL and RegExp constructors) are the fields of [Env].
    - A JavaScript number that is an integer is a [Z]; [NaN] and [undefined]
      are [None].  Lengths, positions and indices that cannot be negative
      are [nat].
    - The closure variables that the per-URL pipelines mutate ([spinner.text],
      [skipped], [pageInfos]) form the [store]. *)

From Stdlib Require Import List String Ascii Bool Arith PeanoNat NArith ZArith Lia Permutation.
From Stdlib Require DecimalString.
Import ListNotations.
Local Open Scope string_scope.
Local Open Scope nat_scope.
Local Open Scope list_scope.

Infix "+++" := String.append (right associativity, at level 60).

(* ================================================================= *)
(** ** JavaScript values and exceptions *)

Inductive jsstr : Type :=
| Undefined
| Null
| Str (s : string).

(** [Boolean(v)]: a string is truthy unless it is empty. *)
Definition truthy (v : jsstr) : bool :=
  match v with
  | Str s => negb (String.eqb s EmptyString)
  | _ => false
  end.

(** The text a template literal [`${v}`] produces. *)
Definition display (v : jsstr) : string :=
  match v with
  | Undefined => "undefined"
  | Null => "null"
  | Str s => s
  end.

(** [a || b] on possibly absent strings. *)
Definition js_or (a b : jsstr) : jsstr := if truthy a then a else b.

Inductive error : Type :=
| Error (msg : string)
| TypeError (msg : string)
| External (msg : string).

Inductive result (A : Type) : Type :=
| Ok (a : A)
| Throw (e : error).
Arguments Ok {A} a.
Arguments Throw {A} e.

Definition rbind {A B} (r : result A) (k : A -> result B) : result B :=
  match r with
  | Ok a => k a
  | Throw e => Throw e
  end.

(** [try { body } catch (e) { handler e }] *)
Definition try_catch {A} (body : result A) (handler : error -> result A) : result A :=
  match body with
  | Ok a => Ok a
  | Throw e => handler e
  end.

(** [try { return body } catch (_error) { return dflt }]: cannot throw. *)
Definition try_or {A} (body : result A) (dflt : A) : A :=
  match body with
  | Ok a => a
  | Throw _ => dflt
  end.

Notation "'let?' x ':=' r 'in' k" := (rbind r (fun x => k))
  (at level 10, x pattern, r at level 100, k at level 200).

(* ================================================================= *)
(** ** String primitives *)

Definition nl : string := String (ascii_of_nat 10) EmptyString.
Definition dquote : string := String (ascii_of_nat 34) EmptyString.
Definition quoted (s : string) : string := dquote +++ s +++ dquote.

(** [\s] of a regular expression and the set [String.prototype.trim] removes
    (white space and line terminators), restricted to code units below 256:
    TAB, LF, VT, FF, CR, SPACE and NBSP. *)
Definition is_space (c : ascii) : bool :=
  let n := nat_of_ascii c in
  (n =? 9) || (n =? 10) || (n =? 11) || (n =? 12) || (n =? 13) || (n =? 32)
  || (n =? 160).

(** [.] of a regular expression without the [s] flag excludes these. *)
Definition is_line_terminator (c : ascii) : bool :=
  let n := nat_of_ascii c in (n =? 10) || (n =? 13).

Fixpoint trimStart (s : string) : string :=
  match s with
  | EmptyString => EmptyString
  | String c s' => if is_space c then trimStart s' else s
  end.

Fixpoint trimEnd (s : string) : string :=
  match s with
  | EmptyString => EmptyString
  | String c s' =>
      match trimEnd s' with
      | EmptyString => if is_space c then EmptyString else String c EmptyString
      | t => String c t
      end
  end.

(** [s.trim()] *)
Definition trim (s : string) : string := trimEnd (trimStart s).

(** [s.startsWith(p)] *)
Fixpoint startsWith (p s : string) : bool :=
  match p, s with
  | EmptyString, _ => true
  | String a p', String b s' => Ascii.eqb a b && startsWith p' s'
  | String _ _, EmptyString => false
  end.

(** [s.split(sep)] for a one-character separator. *)
Fixpoint split (sep : ascii) (s : string) : list string :=
  match s with
  | EmptyString => [EmptyString]
  | String c s' =>
      if Ascii.eqb c sep then EmptyString :: split sep s'
      else match split sep s' with
           | h :: t => String c h :: t
           | [] => [String c EmptyString]
           end
  end.

Definition nonempty (s : string) : bool := negb (String.eqb s EmptyString).

Definition is_slash (c : ascii) : bool := Ascii.eqb c "/".
Definition not_slash (c : ascii) : bool := negb (Ascii.eqb c "/").

Definition is_upper (c : ascii) : bool :=
  let n := nat_of_ascii c in (65 <=? n) && (n <=? 90).
Definition is_lower (c : ascii) : bool :=
  let n := nat_of_ascii c in (97 <=? n) && (n <=? 122).
Definition is_digit (c : ascii) : bool :=
  let n := nat_of_ascii c in (48 <=? n) && (n <=? 57).

(** Case mapping on the ASCII letters; section keys come from a serialized
    URL path, which is ASCII. *)
Definition to_upper (c : ascii) : ascii :=
  if is_lower c then ascii_of_nat (nat_of_ascii c - 32) else c.
Definition to_lower (c : ascii) : ascii :=
  if is_upper c then ascii_of_nat (nat_of_ascii c + 32) else c.

Fixpoint toLowerCase (s : string) : string :=
  match s with
  | EmptyString => EmptyString
  | String c s' => String (to_lower c) (toLowerCase s')
  end.

Fixpoint all_chars (p : ascii -> bool) (s : string) : bool :=
  match s with
  | EmptyString => true
  | String c s' => p c && all_chars p s'
  end.

(* ================================================================= *)
(** ** External collaborators *)

Record sitemap_result : Type := {
  sites : list string;
  urls : option (list (jsstr * jsstr))   (* [{loc, lastmod}] when present *)
}.

Record Env : Type := {
  (** cheerio: a loaded document and its queries *)
  Dom : Type;
  cheerio_load : string -> result Dom;
  dom_text : Dom -> string -> string;            (* [$(sel).text()] *)
  dom_attr : Dom -> string -> string -> jsstr;   (* [$(sel).attr(name)] *)
  dom_html : Dom -> string -> jsstr;             (* [$(sel).html()] *)
  (** undici: [request(url, ...)] followed by [body.text()] *)
  request : string -> result string;
  (** [new URL(uri).pathname] *)
  URL_pathname : string -> result string;
  (** [new RegExp(pattern, flags)] and [String.prototype.replace] *)
  Regex : Type;
  RegExp_new : string -> string -> result Regex;
  replace : string -> Regex -> string -> string;
  (** picomatch: [picomatch(pattern)] compiles one glob, and throws when it
      cannot (on the empty pattern, for one); [glob pattern input] is the
      compiled glob applied to an input string *)
  glob_compile : string -> result unit;
  glob : string -> string -> bool;
  (** turndown: [turndownService.turndown(html)] *)
  turndown : string -> result string;
  (** sitemapper: [sitemap.fetch(url)] *)
  sitemap_fetch : string -> result sitemap_result
}.

(* ================================================================= *)
(** ** Helpers of gen.js *)

(** [fetchHtml]: the body text, or [null] on any error. *)
Definition fetchHtml (env : Env) (url : string) : jsstr :=
  try_or (let? rawHtml := request env url in Ok (Str rawHtml)) Null.

(** [getTitle]: trimmed text of [head > title], or [null] on any error. *)
Definition getTitle (env : Env) (html : string) : jsstr :=
  try_or (let? d := cheerio_load env html in
          Ok (Str (trim (dom_text env d "head > title"))))
         Null.

(** [getDescription]: the content of the description meta element, falling
    back to the Open Graph and Twitter ones; [null] on any error. *)
Definition getDescription (env : Env) (html : string) : jsstr :=
  try_or
    (let? d := cheerio_load env html in
     let description :=
       dom_attr env d ("head > meta[name=" +++ quoted "description" +++ "]") "content" in
     let description :=
       if negb (truthy description)
       then dom_attr env d ("head > meta[property=" +++ quoted "og:description" +++ "]") "content"
       else description in
     let description :=
       if negb (truthy description)
       then dom_attr env d ("head > meta[name=" +++ quoted "twitter:description" +++ "]") "content"
       else description in
     Ok description)
    Null.

(** The match in [parseSubstitutionCommand] of the anchored expression
    [s/] lazy-group [/] lazy-group [/] flags, where a lazy group is any
    characters except line terminators, as few as possible, and flags are any
    number of the letters g, i, m, s, u, y up to the end of the input; as the
    backtracking matcher runs it.
    [lazy_to_slash acc s k] is one lazy group and its closing [/] followed by
    the rest of the expression [k]: the shortest capture is tried first, and the capture
    grows by one character that is not a line terminator each time the rest
    fails. *)
Fixpoint lazy_to_slash {A} (acc s : string) (k : string -> string -> option A)
  : option A :=
  match s with
  | EmptyString => None
  | String c s' =>
      match (if Ascii.eqb c "/" then k acc s' else None) with
      | Some r => Some r
      | None =>
          if is_line_terminator c then None
          else lazy_to_slash (acc +++ String c EmptyString) s' k
      end
  end.

Definition is_flag (c : ascii) : bool :=
  existsb (Ascii.eqb c) ["g"; "i"; "m"; "s"; "u"; "y"]%char.

(** The three captures [(pattern, replacement, flags)], or [None] when the
    command does not match. *)
Definition match_command (command : string) : option (string * string * string) :=
  match command with
  | String "s" (String "/" rest) =>
      lazy_to_slash EmptyString rest (fun pattern r1 =>
        lazy_to_slash EmptyString r1 (fun replacement flags =>
          if all_chars is_flag flags then Some (pattern, replacement, flags)
          else None))
  | _ => None
  end.

Definition parseSubstitutionCommand (env : Env) (command : string)
  : result (Regex env * string) :=
  match match_command command with
  | Some (pattern, replacement, flags) =>
      let? re := RegExp_new env pattern flags in
      Ok (re, replacement)
  | None => Throw (Error "Invalid substitution command format")
  end.

(** [parseSection]: first non-empty segment of the path, [ROOT] when there is
    none or when the URL constructor throws. *)
Definition parseSection (env : Env) (uri : string) : result string :=
  try_catch
    (let? pathname := URL_pathname env uri in
     let segments := filter nonempty (split "/" pathname) in
     Ok (match segments with
         | seg :: _ => seg
         | [] => "ROOT"
         end))
    (fun _ => Ok "ROOT").

Definition substituteTitle (env : Env) (title command : string) : result string :=
  if negb (startsWith "s/" command) then Ok title
  else
    let? (pattern, replacement) := parseSubstitutionCommand env command in
    Ok (replace env title pattern replacement).

(** [capitalizeString] *)
Definition capitalizeString (str : string) : string :=
  match str with
  | EmptyString => EmptyString
  | String c rest => String (to_upper c) (toLowerCase rest)
  end.

(** The [replace] of [cleanTitle]: a [|] at the start of the title and the
    white space after it are removed. *)
Definition strip_leading_bar (title : string) : string :=
  match title with
  | String "|" rest => trimStart rest
  | _ => title
  end.

(** [cleanTitle] *)
Definition cleanTitle (title : string) : string :=
  if String.eqb title EmptyString then EmptyString
  else trim (strip_leading_bar title).

(** The title rewriting of [processUrl]:
    [for (command of replaceTitle) title = substituteTitle(title, command)]. *)
Fixpoint rewriteTitle (env : Env) (replaceTitle : list string) (title : string)
  : result string :=
  match replaceTitle with
  | [] => Ok title
  | command :: rest =>
      let? title' := substituteTitle env title command in
      rewriteTitle env rest title'
  end.

(* ================================================================= *)
(** ** Records produced by the pipelines *)

(** The object [{ title, url, description, section }] returned by the
    [processUrl] of [gen]. *)
Record PageResult : Type := {
  pr_title : string;
  pr_url : string;
  pr_description : jsstr;
  pr_section : string
}.

Inductive reason : Type :=
| excluded
| not_included
| fetch_failed
| no_title.

(** An entry [{url, reason}] of the array [skipped] of [genFull]. *)
Record SkipRecord : Type := {
  skip_url : string;
  skip_reason : reason
}.

(** An entry of the array [pageInfos] of [genFull]. *)
Record PageInfo : Type := {
  pi_title : string;
  pi_url : string;
  pi_description : jsstr;
  pi_markdown : string;
  pi_anchor : string;
  pi_lastmod : jsstr
}.

(* ================================================================= *)
(** ** The store and its monad *)

(** The variables of the enclosing function that the per-URL pipelines
    write: [spinner.text], and in [genFull] the arrays [skipped] and
    [pageInfos] (newest entry last). *)
Record store : Type := {
  spinner_text : string;
  skipped : list SkipRecord;
  pageInfos : list PageInfo
}.

Definition empty_store (text : string) : store :=
  {| spinner_text := text; skipped := []; pageInfos := [] |}.

Definition M (A : Type) : Type := store -> result A * store.

Definition ret {A} (a : A) : M A := fun s => (Ok a, s).

Definition bind {A B} (m : M A) (k : A -> M B) : M B :=
  fun s =>
    match m s with
    | (Ok a, s') => k a s'
    | (Throw e, s') => (Throw e, s')
    end.

Definition lift {A} (r : result A) : M A := fun s => (r, s).

Definition set_spinner (text : string) : M unit :=
  fun s => (Ok tt, {| spinner_text := text;
                      skipped := skipped s;
                      pageInfos := pageInfos s |}).

Definition push_skipped (r : SkipRecord) : M unit :=
  fun s => (Ok tt, {| spinner_text := spinner_text s;
                      skipped := skipped s ++ [r];
                      pageInfos := pageInfos s |}).

Definition push_pageInfos (p : PageInfo) : M unit :=
  fun s => (Ok tt, {| spinner_text := spinner_text s;
                      skipped := skipped s;
                      pageInfos := pageInfos s ++ [p] |}).

Notation "x <- m ;; k" := (bind m (fun x => k))
  (at level 61, m at next level, right associativity).
Notation "m ;;; k" := (bind m (fun _ => k))
  (at level 61, right associativity).

(* ================================================================= *)
(** ** Asynchronous pipelines and the batch scheduler *)

(** What a call [processor(item, index)] has become when control returns to
    the caller: either its promise is already settled with a value, or it is
    suspended in [await fetchHtml(url)] with the continuation [k] that runs
    when the fetch completes.  The awaits on [getTitle] and [getDescription]
    wait on no I/O: the code between the completion of the fetch and the
    return runs without another pipeline in between. *)
Inductive pipeline (A : Type) : Type :=
| Settled (value : A)
| Fetching (url : string) (k : jsstr -> M A).
Arguments Settled {A} value.
Arguments Fetching {A} url k.

Definition processor_t (A : Type) : Type := string -> nat -> M (pipeline (option A)).

(** The fetches observed during a run, oldest first. *)
Inductive event : Type :=
| FetchStart (index : nat)
| FetchEnd (index : nat).

(** Local state of [processInBatches] and the observed events. *)
Record sched : Type := {
  processedItems : nat;
  trace : list event
}.

Definition sched0 : sched := {| processedItems := 0; trace := [] |}.

Definition count_processed (sc : sched) : sched :=
  {| processedItems := S (processedItems sc); trace := trace sc |}.

Definition observe (e : event) (sc : sched) : sched :=
  {| processedItems := processedItems sc; trace := trace sc ++ [e] |}.

(** A pipeline of the current batch that waits for its fetch. *)
Record pending (A : Type) : Type := {
  p_pos : nat;                      (* position in the batch *)
  p_index : nat;                    (* [i + index] *)
  p_url : string;
  p_k : jsstr -> M (option A)
}.
Arguments p_pos {A} _.
Arguments p_index {A} _.
Arguments p_url {A} _.
Arguments p_k {A} _.

(** [Promise.all(batchPromises)] while it waits: the array of values, filled
    by position, the pipelines still waiting, and the first rejection. *)
Record chunk (A : Type) : Type := {
  values : list (option A);
  waiting : list (pending A);
  rejected : option error
}.
Arguments values {A} _.
Arguments waiting {A} _.
Arguments rejected {A} _.

(** [values[pos] = v] *)
Definition place {A} (vs : list (option A)) (pos : nat) (v : option A)
  : list (option A) :=
  firstn pos vs ++ v :: skipn (S pos) vs.

(** [items.slice(i, j)] *)
Definition slice {A} (items : list A) (i j : nat) : list A :=
  firstn (j - i) (skipn i items).

(** The position in an array of length [n] that [slice] takes for the
    bound [k]: a negative bound counts from the end, and the position is
    kept between 0 and [n]. *)
Definition relative_index (n : nat) (k : Z) : nat :=
  if (k <? 0)%Z then Z.to_nat (Z.max (Z.of_nat n + k) 0)
  else Nat.min (Z.to_nat k) n.

(** [items.slice(i, j)] for any two integers. *)
Definition Array_slice {A} (items : list A) (i j : Z) : list A :=
  let from := relative_index (List.length items) i in
  let to := relative_index (List.length items) j in
  firstn (to - from) (skipn from items).

(** [results.filter(Boolean)]: [None] stands for [null]. *)
Definition Boolean {A} (r : option A) : bool :=
  match r with
  | Some _ => true
  | None => false
  end.

Section Scheduler.
Context {A : Type}.
Variable env : Env.
Variable processor : processor_t A.

(** [batch.map(async (item, index) => ...)]: every pipeline of the batch is
    started, in order, and runs up to its fetch.  [processedItems], which
    nothing reads, is counted when the value of a pipeline is known. *)
Fixpoint launch (i : nat) (batch : list string) (pos : nat)
         (c : chunk A) (s : store) (sc : sched) : chunk A * store * sched :=
  match batch with
  | [] => (c, s, sc)
  | item :: rest =>
      match processor item (i + pos) s with
      | (Ok (Settled v), s') =>
          launch i rest (S pos)
                 {| values := place (values c) pos v;
                    waiting := waiting c;
                    rejected := rejected c |}
                 s' (count_processed sc)
      | (Ok (Fetching u k), s') =>
          launch i rest (S pos)
                 {| values := values c;
                    waiting := waiting c ++
                               [{| p_pos := pos; p_index := i + pos;
                                   p_url := u; p_k := k |}];
                    rejected := rejected c |}
                 s' (observe (FetchStart (i + pos)) sc)
      | (Throw e, s') =>
          launch i rest (S pos)
                 {| values := values c;
                    waiting := waiting c;
                    rejected := match rejected c with
                                | Some e0 => Some e0
                                | None => Some e
                                end |}
                 s' sc
      end
  end.

(** [await Promise.all(batchPromises)]: the waiting fetches complete one at
    a time, in the order the oracle picks; each continuation runs to its
    end and its value is placed at the position of its item.  The first
    continuation that throws rejects the whole: [processInBatches] throws
    at once, no further batch is started, and nothing reads what the
    pipelines still waiting do to the store afterwards. *)
Fixpoint settle (n : nat) (oracle : list nat) (c : chunk A)
         (s : store) (sc : sched)
  : result (list (option A)) * store * sched * list nat :=
  match n, waiting c with
  | S n', p0 :: _ =>
      let j := hd 0 oracle mod List.length (waiting c) in
      let p := nth j (waiting c) p0 in
      let others := firstn j (waiting c) ++ skipn (S j) (waiting c) in
      let sc1 := observe (FetchEnd (p_index p)) sc in
      match p_k p (fetchHtml env (p_url p)) s with
      | (Ok v, s') =>
          settle n' (tl oracle)
                 {| values := place (values c) (p_pos p) v;
                    waiting := others;
                    rejected := rejected c |}
                 s' (count_processed sc1)
      | (Throw e, s') => (Throw e, s', sc1, tl oracle)
      end
  | _, _ => (Ok (values c), s, sc, oracle)
  end.

(** One iteration of the loop of [processInBatches]. *)
Definition run_batch (i : nat) (batch : list string) (oracle : list nat)
           (s : store) (sc : sched)
  : result (list (option A)) * store * sched * list nat :=
  let '(c, s1, sc1) :=
    launch i batch 0
           {| values := repeat None (List.length batch);
              waiting := [];
              rejected := None |} s sc in
  match rejected c with
  | Some e => (Throw e, s1, sc1, oracle)
  | None => settle (List.length (waiting c)) oracle c s1 sc1
  end.

(** The loop [for (let i = 0; i < totalItems; i += concurrency)].  [None]
    is returned when the loop is still running after [fuel] iterations. *)
Fixpoint batches (fuel : nat) (items : list string) (concurrency : nat)
         (i : nat) (results : list (option A)) (oracle : list nat)
         (s : store) (sc : sched)
  : option (result (list (option A)) * store * sched) :=
  match fuel with
  | 0 => None
  | S fuel' =>
      if i <? List.length items then
        let batch := slice items i (i + concurrency) in
        match run_batch i batch oracle s sc with
        | (Ok batchResults, s', sc', oracle') =>
            batches fuel' items concurrency (i + concurrency)
                    (results ++ batchResults) oracle' s' sc'
        | (Throw e, s', sc', _) => Some (Throw e, s', sc')
        end
      else Some (Ok (filter Boolean results), s, sc)
  end.

(** [processInBatches(items, processor, concurrency)].  With a positive
    [concurrency] the loop runs at most [List.length items] iterations, so the
    fuel given here is enough; with [concurrency = 0] and a non-empty list
    the loop of the source never ends and the result is [None]. *)
Definition processInBatches (items : list string) (concurrency : nat)
           (oracle : list nat) (s : store)
  : option (result (list (option A)) * store * sched) :=
  batches (S (List.length items)) items concurrency 0 [] oracle s sched0.

(** The same loop when [concurrency] is any integer, as [gen] and [genFull]
    may pass it: [i] and [i + concurrency] may then be negative, and
    [items.slice] counts a negative bound from the end of the array.  A
    batch is not empty only when [i] is not negative, so that the index
    [i + index] given to the processor is a natural number. *)
Fixpoint batchesZ (fuel : nat) (items : list string) (concurrency : Z)
         (i : Z) (results : list (option A)) (oracle : list nat)
         (s : store) (sc : sched)
  : option (result (list (option A)) * store * sched) :=
  match fuel with
  | 0 => None
  | S fuel' =>
      if (i <? Z.of_nat (List.length items))%Z then
        let batch := Array_slice items i (i + concurrency) in
        match run_batch (Z.to_nat i) batch oracle s sc with
        | (Ok batchResults, s', sc', oracle') =>
            batchesZ fuel' items concurrency (i + concurrency)%Z
                     (results ++ batchResults) oracle' s' sc'
        | (Throw e, s', sc', _) => Some (Throw e, s', sc')
        end
      else Some (Ok (filter Boolean results), s, sc)
  end.

(** [processInBatches(items, processor, concurrency)] for any integer
    [concurrency].  With a positive one this is [processInBatches] above;
    with a negative one and a list that is not empty the loop never ends,
    and no fuel is enough. *)
Definition processInBatchesZ (items : list string) (concurrency : Z)
           (oracle : list nat) (s : store)
  : option (result (list (option A)) * store * sched) :=
  batchesZ (S (List.length items)) items concurrency 0 [] oracle s sched0.

End Scheduler.

(* ================================================================= *)
(** ** Options and the filter *)

(** [this.opts()]: an option that was not given is [None] or [Undefined].
    [--concurrency] is what [parseInt] makes of its argument: an integer,
    which may be zero or negative, or [NaN], which is [None] too. *)
Record options : Type := {
  excludePath : option (list string);
  includePath : option (list string);
  replaceTitle : option (list string);
  opt_title : jsstr;
  opt_description : jsstr;
  opt_concurrency : option Z
}.

(** [x || []] *)
Definition or_empty {A} (x : option (list A)) : list A :=
  match x with
  | Some l => l
  | None => []
  end.

(** [options.concurrency || 5]: zero and [NaN] are falsy, every other
    number is kept, a negative one too. *)
Definition concurrency_of (o : options) : Z :=
  match opt_concurrency o with
  | Some 0%Z => 5%Z
  | Some c => c
  | None => 5%Z
  end.

Section Filter.
Variable env : Env.
Variables excludePaths includePaths : list string.

(** [picomatch(excludePaths)] *)
Definition isExcluded (input : string) : bool :=
  existsb (fun pattern => glob env pattern input) excludePaths.

(** [picomatch(includePaths, { ignore: excludePaths })]: an input that
    matches an ignore pattern matches no pattern. *)
Definition isIncluded (input : string) : bool :=
  existsb (fun pattern =>
             glob env pattern input
             && negb (existsb (fun ign => glob env ign input) excludePaths))
          includePaths.

(** The two guards at the head of [processUrl]: the reason why the URL is
    not processed, or [None] when it goes on to the fetch. *)
Definition filtered (url : string) : option reason :=
  if isExcluded url then Some excluded
  else if (0 <? List.length includePaths) && negb (isIncluded url)
       then Some not_included
       else None.
End Filter.

Definition show_nat (n : nat) : string :=
  DecimalString.NilEmpty.string_of_uint (Nat.to_uint n).

(** [`Processing [${index + 1}/${sites.sites.length}]: ${url}`] *)
Definition progress (index total : nat) (url : string) : string :=
  "Processing [" +++ show_nat (index + 1) +++ "/" +++ show_nat total +++ "]: " +++ url.

(* ================================================================= *)
(** ** gen: the index mode *)

Section Gen.
Variable env : Env.
Variable o : options.

(** What the [processUrl] of [gen] does once [fetchHtml] has returned.  The
    loop over the commands has no [await]: that its variable [command] is
    an undeclared global does not let another pipeline interfere. *)
Definition after_fetch (url : string) (html : jsstr) : M (option PageResult) :=
  match html with
  | Str html' =>
      if negb (truthy html) then ret None
      else
        match getTitle env html' with
        | Str raw =>
            if negb (truthy (Str raw)) then ret None
            else
              title <- lift (rewriteTitle env (or_empty (replaceTitle o)) raw) ;;
              let title := cleanTitle title in
              let description := getDescription env html' in
              section <- lift (parseSection env url) ;;
              ret (Some {| pr_title := title;
                           pr_url := url;
                           pr_description := description;
                           pr_section := section |})
        | _ => ret None
        end
  | _ => ret None
  end.

(** The [processUrl] of [gen]. *)
Definition processUrl (total : nat) : processor_t PageResult :=
  fun url index =>
    set_spinner (progress index total url) ;;;
    match filtered env (or_empty (excludePath o)) (or_empty (includePath o)) url with
    | Some _ => ret (Settled None)
    | None => ret (Fetching url (after_fetch url))
    end.
End Gen.

(** An entry [{ title, url, description }] of a section. *)
Record line : Type := {
  line_title : string;
  line_url : string;
  line_description : jsstr
}.

(** The object [sections]: its own properties in the order of their
    creation. *)
Definition sections_t : Type := list (string * list line).

(** The properties every object inherits from [Object.prototype]; each reads
    as a truthy value that has no [push]. *)
Definition inherited_keys : list string :=
  ["constructor"; "__defineGetter__"; "__defineSetter__"; "hasOwnProperty";
   "__lookupGetter__"; "__lookupSetter__"; "isPrototypeOf";
   "propertyIsEnumerable"; "toString"; "valueOf"; "__proto__";
   "toLocaleString"].

Definition inherited (key : string) : bool :=
  existsb (String.eqb key) inherited_keys.

Fixpoint own_get (sections : sections_t) (key : string) : option (list line) :=
  match sections with
  | [] => None
  | (k, ls) :: rest => if String.eqb k key then Some ls else own_get rest key
  end.

Fixpoint own_push (sections : sections_t) (key : string) (l : line)
  : sections_t :=
  match sections with
  | [] => []
  | (k, ls) :: rest =>
      if String.eqb k key then (k, ls ++ [l]) :: rest
      else (k, ls) :: own_push rest key l
  end.

(** [sections[section] ||= []; sections[section].push(l)] *)
Definition add_line (sections : sections_t) (key : string) (l : line)
  : result sections_t :=
  match own_get sections key with
  | Some _ => Ok (own_push sections key l)
  | None =>
      if inherited key
      then Throw (TypeError "sections[section].push is not a function")
      else Ok (sections ++ [(key, [l])])
  end.

(** The loop [for (const result of results)] that fills [sections]; the
    object keeps what was added before an exception. *)
Fixpoint organize (results : list (option PageResult)) (sections : sections_t)
  : sections_t * option error :=
  match results with
  | [] => (sections, None)
  | None :: rest => organize rest sections
  | Some r :: rest =>
      match add_line sections (pr_section r)
                     {| line_title := pr_title r;
                        line_url := pr_url r;
                        line_description := pr_description r |} with
      | Ok sections' => organize rest sections'
      | Throw e => (sections, Some e)
      end
  end.

(** [delete sections[key]] *)
Definition delete (key : string) (sections : sections_t) : sections_t :=
  filter (fun kv => negb (String.eqb (fst kv) key)) sections.

Definition digit_value (c : ascii) : N := N.of_nat (nat_of_ascii c - 48).

Fixpoint number_of (s : string) (acc : N) : N :=
  match s with
  | EmptyString => acc
  | String c s' => number_of s' (acc * 10 + digit_value c)%N
  end.

(** An array index: the canonical decimal form of an integer below
    [2^32 - 1]. *)
Definition is_array_index (key : string) : bool :=
  match key with
  | EmptyString => false
  | String c rest =>
      all_chars is_digit key
      && (negb (Ascii.eqb c "0") || String.eqb rest EmptyString)
      && (number_of key 0 <=? 4294967294)%N
  end.

Fixpoint insert_index (key : string) (sorted : list string) : list string :=
  match sorted with
  | [] => [key]
  | k :: rest =>
      if (number_of key 0 <=? number_of k 0)%N then key :: sorted
      else k :: insert_index key rest
  end.

Fixpoint sort_indices (keys : list string) : list string :=
  match keys with
  | [] => []
  | k :: rest => insert_index k (sort_indices rest)
  end.

(** The order in which a [for...in] loop (and [Object.keys]) visits string
    keys: the array indices in ascending numeric order, then the other keys
    in the order of their creation. *)
Definition enumeration_order (keys : list string) : list string :=
  sort_indices (filter is_array_index keys)
  ++ filter (fun k => negb (is_array_index k)) keys.

(** [for (const section in sections)] *)
Definition for_in (sections : sections_t) : list string :=
  enumeration_order (map fst sections).

Definition concat_map {A} (f : A -> string) (l : list A) : string :=
  fold_left (fun output x => output +++ f x) l EmptyString.

(** The text one iteration of the inner loop adds to [output]. *)
Definition bullet (l : line) : string :=
  nl +++ "- [" +++ line_title l +++ "](" +++ line_url l +++ ")"
     +++ (if truthy (line_description l)
          then ": " +++ display (line_description l)
          else EmptyString).

(** The text one iteration of the loop over the sections adds. *)
Definition section_block (sections : sections_t) (section : string) : string :=
  "## " +++ capitalizeString section +++ nl
  +++ concat_map bullet (match own_get sections section with
                         | Some ls => ls
                         | None => []
                         end)
  +++ nl +++ nl.

(** Lines 216 to 248 of gen.js: the document built from [sections] (the
    updates of the spinner are left out). *)
Definition assemble (o : options) (sections0 : sections_t) : string :=
  let root := match own_get sections0 "ROOT" with
              | Some ls => ls
              | None => []
              end in
  let sections := delete "ROOT" sections0 in
  let defaultTitle := js_or (opt_title o) (Str "Documentation") in
  let defaultDescription := js_or (opt_description o) (Str "Generated documentation") in
  let output :=
    "# " +++ display (js_or (opt_title o)
                            (match root with
                             | r0 :: _ => Str (line_title r0)
                             | [] => defaultTitle
                             end)) +++ nl +++ nl
    +++ "> " +++ display (js_or (opt_description o)
                                (match root with
                                 | r0 :: _ => line_description r0
                                 | [] => defaultDescription
                                 end)) +++ nl +++ nl in
  fold_left (fun output section => output +++ section_block sections section)
            (for_in sections) output.

Definition message (e : error) : string :=
  match e with
  | Error m => m
  | TypeError m => m
  | External m => m
  end.

(** What a run of [gen] or [genFull] leaves behind. *)
Record run : Type := {
  stdout : list string;          (* [console.log] *)
  stderr : list string;          (* [console.error], [spinner.fail] *)
  final_store : store;
  final_sched : sched
}.

(** [gen(sitemapUrl)] from line 149 on, that is once the two matchers of
    lines 145 and 146 are compiled; [gen_action] below is the whole
    function.  [None] only if [processInBatches] does not return. *)
Definition gen (env : Env) (o : options) (sitemapUrl : string)
           (oracle : list nat) : option run :=
  let s0 := empty_store sitemapUrl in
  let finish sections errs s sc :=
    Some {| stdout := [assemble o sections];
            stderr := errs;
            final_store := s;
            final_sched := sc |} in
  let report e := "Error processing sitemap: " +++ message e in
  match sitemap_fetch env sitemapUrl with
  | Throw e => finish [] [report e] s0 sched0
  | Ok sm =>
      match processInBatchesZ env (processUrl env o (List.length (sites sm)))
                              (sites sm) (concurrency_of o) oracle s0 with
      | None => None
      | Some (Throw e, s, sc) => finish [] [report e] s sc
      | Some (Ok results, s, sc) =>
          match organize results [] with
          | (sections, None) => finish sections [] s sc
          | (sections, Some e) => finish sections [report e] s sc
          end
      end
  end.

(* ================================================================= *)
(** ** genFull: the full-content mode *)

Definition reason_text (r : reason) : string :=
  match r with
  | excluded => "excluded"
  | not_included => "not included"
  | fetch_failed => "fetch failed"
  | no_title => "no title"
  end.

(** [title.toLowerCase().replace(/[^a-z0-9]+/g, '-')] on an already
    lower-cased title; [in_run] tells that the previous character was
    replaced. *)
Fixpoint dashes (s : string) (in_run : bool) : string :=
  match s with
  | EmptyString => EmptyString
  | String c s' =>
      if is_lower c || is_digit c then String c (dashes s' false)
      else if in_run then dashes s' true
           else String "-" (dashes s' true)
  end.

Definition anchor_of (title : string) : string := dashes (toLowerCase title) false.

(** [urlToLastMod[url]] after the loop over [sites.urls]: the last entry
    with a truthy [loc] equal to [url] and a truthy [lastmod]. *)
Definition lastmod_of (entries : list (jsstr * jsstr)) (url : string) : jsstr :=
  fold_left (fun found entry =>
               if truthy (fst entry) && truthy (snd entry)
                  && String.eqb (display (fst entry)) url
               then snd entry else found)
            entries Undefined.

Section GenFull.
Variable env : Env.
Variable o : options.
Variable entries : list (jsstr * jsstr).

(** The cascade that selects [mainHtml]. *)
Definition main_html (d : Dom env) (html : string) : string :=
  display
    (js_or (dom_html env d "main")
    (js_or (dom_html env d "[role=main]")
    (js_or (dom_html env d ".content, #content, .post, .docs, .article")
    (js_or (dom_html env d "article")
    (js_or (dom_html env d "body")
           (Str html)))))).

Definition skip (url : string) (r : reason) : M (option unit) :=
  push_skipped {| skip_url := url; skip_reason := r |} ;;; ret None.

(** What the [processUrl] of [genFull] does once [fetchHtml] has
    returned. *)
Definition after_fetch_full (url : string) (html : jsstr) : M (option unit) :=
  match html with
  | Str html' =>
      if negb (truthy html) then skip url fetch_failed
      else
        match getTitle env html' with
        | Str raw =>
            if negb (truthy (Str raw)) then skip url no_title
            else
              title <- lift (rewriteTitle env (or_empty (replaceTitle o)) raw) ;;
              let title := cleanTitle title in
              d <- lift (cheerio_load env html') ;;
              let mainHtml := main_html d html' in
              markdown <- lift (turndown env mainHtml) ;;
              let anchor := anchor_of title in
              push_pageInfos {| pi_title := title;
                                pi_url := url;
                                pi_description := getDescription env html';
                                pi_markdown := markdown;
                                pi_anchor := anchor;
                                pi_lastmod := lastmod_of entries url |} ;;;
              ret (Some tt)
        | _ => skip url no_title
        end
  | _ => skip url fetch_failed
  end.

(** The [processUrl] of [genFull]; [Some tt] stands for [true]. *)
Definition processUrl_full (total : nat) : processor_t unit :=
  fun url index =>
    set_spinner (progress index total url) ;;;
    match filtered env (or_empty (excludePath o)) (or_empty (includePath o)) url with
    | Some r =>
        push_skipped {| skip_url := url; skip_reason := r |} ;;;
        ret (Settled None)
    | None => ret (Fetching url (after_fetch_full url))
    end.
End GenFull.

Definition toc_entry (page : PageInfo) : string :=
  "- [" +++ pi_title page +++ "](#" +++ pi_anchor page +++ ")" +++ nl.

Definition page_block (page : PageInfo) : string :=
  nl +++ nl +++ "---" +++ nl +++ nl
  +++ "## " +++ pi_title page +++ nl +++ nl
  +++ "[" +++ pi_url page +++ "](" +++ pi_url page +++ ")" +++ nl +++ nl
  +++ (if truthy (pi_description page)
       then "> " +++ display (pi_description page) +++ nl +++ nl
       else EmptyString)
  +++ (if truthy (pi_lastmod page)
       then "*Last modified: " +++ display (pi_lastmod page) +++ "*" +++ nl +++ nl
       else EmptyString)
  +++ pi_markdown page +++ nl.

Definition skipped_entry (r : SkipRecord) : string :=
  "- " +++ skip_url r +++ " (" +++ reason_text (skip_reason r) +++ ")" +++ nl.

(** The document [genFull] prints after the crawl. *)
Definition assemble_full (o : options) (s : store) : string :=
  let toc := "# Table of Contents" +++ nl +++ concat_map toc_entry (pageInfos s) in
  "# " +++ display (js_or (opt_title o) (Str "Full Documentation")) +++ nl +++ nl
  +++ toc +++ nl
  +++ concat_map page_block (pageInfos s)
  +++ match skipped s with
      | [] => EmptyString
      | _ => nl +++ nl +++ "---" +++ nl +++ nl +++ "## Skipped Pages" +++ nl
             +++ concat_map skipped_entry (skipped s)
      end.

(** [genFull(sitemapUrl)] from line 261 on, that is once the two matchers
    of lines 259 and 260 are compiled; [genFull_action] below is the whole
    function.  An exception anywhere in the [try] block leaves only the
    failure message of the spinner.  [None] only if [processInBatches] does
    not return. *)
Definition genFull (env : Env) (o : options) (sitemapUrl : string)
           (oracle : list nat) : option run :=
  let s0 := empty_store sitemapUrl in
  let report e := "Error processing sitemap: " +++ message e in
  match sitemap_fetch env sitemapUrl with
  | Throw e => Some {| stdout := []; stderr := [report e];
                       final_store := s0; final_sched := sched0 |}
  | Ok sm =>
      match processInBatchesZ env
              (processUrl_full env o (or_empty (urls sm)) (List.length (sites sm)))
              (sites sm) (concurrency_of o) oracle s0 with
      | None => None
      | Some (Throw e, s, sc) =>
          Some {| stdout := []; stderr := [report e];
                  final_store := s; final_sched := sc |}
      | Some (Ok _, s, sc) =>
          Some {| stdout := [assemble_full o s]; stderr := [];
                  final_store := s; final_sched := sc |}
      end
  end.

(* ================================================================= *)
(** ** The two actions as the command line calls them *)

(** How a call of [gen] or of [genFull] ends: it returns, having printed
    what [r] holds, or it throws, the exception being outside every [try]
    of the function, and nothing was printed. *)
Inductive outcome : Type :=
| Returned (r : run)
| Thrown (e : error).

(** [picomatch(patterns)] on an array: every pattern is compiled, in
    order. *)
Fixpoint compile_globs (env : Env) (patterns : list string) : result unit :=
  match patterns with
  | [] => Ok tt
  | pattern :: rest =>
      let? _ := glob_compile env pattern in
      compile_globs env rest
  end.

(** Lines 143 to 146, and 257 to 260: [picomatch(excludePaths)], then
    [picomatch(includePaths, { ignore: excludePaths })], which compiles the
    patterns of [includePaths] and with each of them those of
    [excludePaths] again.  Both calls stand before the [try]. *)
Definition compile_filter (env : Env) (o : options) : result unit :=
  let? _ := compile_globs env (or_empty (excludePath o)) in
  compile_globs env (or_empty (includePath o)).

(** [gen(sitemapUrl)], the whole function.  [None] only if
    [processInBatches] does not return. *)
Definition gen_action (env : Env) (o : options) (sitemapUrl : string)
           (oracle : list nat) : option outcome :=
  match compile_filter env o with
  | Throw e => Some (Thrown e)
  | Ok _ => option_map Returned (gen env o sitemapUrl oracle)
  end.

(** [genFull(sitemapUrl)], the whole function. *)
Definition genFull_action (env : Env) (o : options) (sitemapUrl : string)
           (oracle : list nat) : option outcome :=
  match compile_filter env o with
  | Throw e => Some (Thrown e)
  | Ok _ => option_map Returned (genFull env o sitemapUrl oracle)
  end.

(* ================================================================= *)
(** ** A small instance of the collaborators

    A site given as a table of pages, with the simplest behaviour of each
    library on the inputs the examples use: documents that hold one
    [title] element, URLs of the form [scheme://host/path], patterns
    made of letters, digits, spaces and dashes without flags, and globs
    made of literal characters, [*] and [**], the empty glob being the one
    that does not compile. *)

Module Demo.

Definition page (title : string) : string :=
  "<html><head><title>" +++ title +++ "</title></head><body>text</body></html>".

(** The text between the first [a] and the next [b]. *)
Definition between (a b s : string) : option string :=
  match index 0 a s with
  | Some i =>
      let start := i + String.length a in
      match index start b s with
      | Some j => Some (substring start (j - start) s)
      | None => None
      end
  | None => None
  end.

Definition text_of (d sel : string) : string :=
  if String.eqb sel "head > title"
  then match between "<title>" "</title>" d with
       | Some t => t
       | None => EmptyString
       end
  else EmptyString.

Definition html_of (d sel : string) : jsstr :=
  if String.eqb sel "body"
  then match between "<body>" "</body>" d with
       | Some t => Str t
       | None => Null
       end
  else Null.

Fixpoint lookup (table : list (string * string)) (key : string)
  : option string :=
  match table with
  | [] => None
  | (k, v) :: rest => if String.eqb k key then Some v else lookup rest key
  end.

(** The path of [scheme://host/path]: from the first [/] after the host
    up to a [?] or a [#]. *)
Fixpoint until_query (s : string) : string :=
  match s with
  | EmptyString => EmptyString
  | String c s' =>
      if Ascii.eqb c "?" || Ascii.eqb c "#" then EmptyString
      else String c (until_query s')
  end.

Definition pathname_of (uri : string) : result string :=
  match index 0 "://" uri with
  | Some i =>
      let rest := substring (i + 3) (String.length uri) uri in
      match index 0 "/" rest with
      | Some j => Ok (until_query (substring j (String.length rest) rest))
      | None => Ok "/"
      end
  | None => Throw (TypeError "Invalid URL")
  end.

Definition plain (c : ascii) : bool :=
  is_lower c || is_upper c || is_digit c || Ascii.eqb c " " || Ascii.eqb c "-".

(** A pattern of plain characters without flags denotes itself. *)
Definition regexp_new (pattern flags : string) : result string :=
  if all_chars plain pattern && String.eqb flags EmptyString
     && negb (String.eqb pattern EmptyString)
  then Ok pattern
  else Throw (External "pattern outside the fragment of this instance").

(** The first occurrence of the pattern is replaced. *)
Definition replace_first (s pattern replacement : string) : string :=
  match index 0 pattern s with
  | Some i =>
      substring 0 i s +++ replacement
      +++ substring (i + String.length pattern) (String.length s) s
  | None => s
  end.

(** [*] matches characters other than [/]; [**] matches any characters;
    every other character matches itself; the whole input must match. *)
Fixpoint glob_chars (p : list ascii) : list ascii -> bool :=
  match p with
  | [] => fun s => match s with [] => true | _ => false end
  | "*"%char :: p1 =>
      match p1 with
      | "*"%char :: p2 =>
          fix any (s : list ascii) : bool :=
            glob_chars p2 s
            || match s with
               | [] => false
               | _ :: s' => any s'
               end
      | _ =>
          fix star (s : list ascii) : bool :=
            glob_chars p1 s
            || match s with
               | [] => false
               | c :: s' => negb (Ascii.eqb c "/") && star s'
               end
      end
  | c :: p1 =>
      fun s => match s with
               | c' :: s' => Ascii.eqb c c' && glob_chars p1 s'
               | [] => false
               end
  end.

Definition glob_match (pattern input : string) : bool :=
  glob_chars (list_ascii_of_string pattern) (list_ascii_of_string input).

Definition compile_glob (pattern : string) : result unit :=
  if String.eqb pattern EmptyString
  then Throw (TypeError "Expected pattern to be a non-empty string")
  else Ok tt.

(** The converter of this instance gives the markup back, and fails on a
    document with a table: the rule [genFull] adds for tables converts a
    table by calling [turndown] on the markup of the same table. *)
Definition convert (html : string) : result string :=
  match index 0 "<table" html with
  | Some _ => Throw (External "Maximum call stack size exceeded")
  | None => Ok html
  end.

(** The environment of a site: [listed] is what the sitemap at
    [sitemapUrl] lists, [pages] what the server answers. *)
Definition world_with (converter : string -> result string)
           (sitemapUrl : string) (listed : list string)
           (pages : list (string * string)) : Env :=
  {| Dom := string;
     cheerio_load := fun html => Ok html;
     dom_text := text_of;
     dom_attr := fun _ _ _ => Undefined;
     dom_html := html_of;
     request := fun url =>
                  match lookup pages url with
                  | Some html => Ok html
                  | None => Throw (External "getaddrinfo ENOTFOUND")
                  end;
     URL_pathname := pathname_of;
     Regex := string;
     RegExp_new := regexp_new;
     replace := replace_first;
     glob_compile := compile_glob;
     glob := glob_match;
     turndown := converter;
     sitemap_fetch := fun url =>
                        if String.eqb url sitemapUrl
                        then Ok {| sites := listed; urls := None |}
                        else Throw (External "sitemap unreachable") |}.

Definition world : string -> list string -> list (string * string) -> Env :=
  world_with convert.

Definition no_options : options :=
  {| excludePath := None; includePath := None; replaceTitle := None;
     opt_title := Undefined; opt_description := Undefined;
     opt_concurrency := None |}.

Definition sitemap : string := "https://x.test/sitemap.xml".

(** The site of the scenario of the specification. *)
Definition site : list (string * string) :=
  [("https://x.test/", page "Home");
   ("https://x.test/docs/a", page "A | Docs");
   ("https://x.test/docs/b", page "B");
   ("https://x.test/blog/c", page "C")].

Definition site_env : Env := world sitemap (map fst site) site.

(** The same site with a converter that never fails. *)
Definition calm_env : Env :=
  world_with (fun html => Ok html) sitemap (map fst site) site.

(** A site with a page that holds a table. *)
Definition table_site : list (string * string) :=
  [("https://x.test/", page "Home");
   ("https://x.test/t",
    "<html><head><title>T</title></head><body><table></table></body></html>")].

Definition table_env : Env := world sitemap (map fst table_site) table_site.

End Demo.

(* ================================================================= *)
(** * Notions used to state the properties *)

Definition starts_with_space (s : string) : bool :=
  match s with
  | String c _ => is_space c
  | EmptyString => false
  end.

Fixpoint ends_with_space (s : string) : bool :=
  match s with
  | EmptyString => false
  | String c EmptyString => is_space c
  | String _ s' => ends_with_space s'
  end.

(** The title a page gets from its raw title: the commands, then
    [cleanTitle]. *)
Definition final_title (env : Env) (commands : list string) (raw : string)
  : result string :=
  let? title := rewriteTitle env commands raw in
  Ok (cleanTitle title).

(** What the specification says of the cleanup: [cleaned] is [raw] without
    one [|] at its start, the white space after it, and the white space
    around. *)
Definition cleaned_from (raw cleaned : string) : Prop :=
  exists bar lead trail,
    raw = bar +++ lead +++ cleaned +++ trail
    /\ (bar = "|" \/ (bar = EmptyString /\ startsWith "|" raw = false))
    /\ all_chars is_space lead = true
    /\ all_chars is_space trail = true
    /\ starts_with_space cleaned = false
    /\ ends_with_space cleaned = false.

(** A command that does not have the shape of a substitution. *)
Definition malformed (command : string) : Prop := match_command command = None.

(** What the specification says of a run with a malformed command: an error
    is reported and no fetch was started. *)
Definition fails_before_any_fetch (r : run) : Prop :=
  stderr r <> [] /\ trace (final_sched r) = [].

(** Eligibility as the specification words it, the globs being matched
    against the path of the URL. *)
Definition eligible_on_path (env : Env) (excludePaths includePaths : list string)
           (url : string) : Prop :=
  exists pathname,
    URL_pathname env url = Ok pathname
    /\ (forall p, In p excludePaths -> glob env p pathname = false)
    /\ (includePaths = []
        \/ exists p, In p includePaths /\ glob env p pathname = true).

(** The same with the globs matched against the URL as the sitemap lists
    it. *)
Definition eligible_on_url (env : Env) (excludePaths includePaths : list string)
           (url : string) : Prop :=
  (forall p, In p excludePaths -> glob env p url = false)
  /\ (includePaths = []
      \/ exists p, In p includePaths /\ glob env p url = true).

(** [mapi_from f i items]: the value [f item index] of every item, the first
    item having the index [i]. *)
Fixpoint mapi_from {A} (f : string -> nat -> option A) (i : nat)
         (items : list string) : list (option A) :=
  match items with
  | [] => []
  | item :: rest => f item i :: mapi_from f (S i) rest
  end.

(** The processor [processor] never throws and the value of the pipeline of
    an item is [f item index], whatever the other pipelines did to the store
    in between. *)
Definition answers {A} (env : Env) (processor : processor_t A)
           (f : string -> nat -> option A) : Prop :=
  forall item index s,
    match processor item index s with
    | (Ok (Settled v), _) => v = f item index
    | (Ok (Fetching u k), _) =>
        forall s1, exists s2, k (fetchHtml env u) s1 = (Ok (f item index), s2)
    | (Throw _, _) => False
    end.

(** What the specification says of the scheduler: as many results as
    items. *)
Definition one_result_per_item {A} (env : Env) (processor : processor_t A) : Prop :=
  forall items concurrency oracle s results s' sc,
    1 <= concurrency ->
    processInBatches env processor items concurrency oracle s
    = Some (Ok results, s', sc) ->
    List.length results = List.length items.

(** [resumes env f acc item index u k]: the continuation [k] of the pipeline
    of [item], run when its fetch of [u] completes, returns [f item index]
    and accounts for [item], from any store in which [acc] holds. *)
Definition resumes {A} (env : Env) (f : string -> nat -> option A)
           (acc : list string -> store -> Prop)
           (item : string) (index : nat) (u : string)
           (k : jsstr -> M (option A)) : Prop :=
  forall done s,
    acc done s ->
    exists s', k (fetchHtml env u) s = (Ok (f item index), s')
               /\ acc (item :: done) s'.

(** [accounts env processor f acc]: every pipeline returns [f item index],
    never throws, and turns a store that accounts for the items [done]
    into one that accounts for its own item too. *)
Definition accounts {A} (env : Env) (processor : processor_t A)
           (f : string -> nat -> option A)
           (acc : list string -> store -> Prop) : Prop :=
  forall item index done s,
    acc done s ->
    match processor item index s with
    | (Ok (Settled v), s') => v = f item index /\ acc (item :: done) s'
    | (Ok (Fetching u k), s') => acc done s' /\ resumes env f acc item index u k
    | (Throw _, _) => False
    end.

(** The same for the items in [D] only. *)
Definition accounts_on {A} (env : Env) (D : string -> Prop)
           (processor : processor_t A)
           (f : string -> nat -> option A)
           (acc : list string -> store -> Prop) : Prop :=
  forall item index done s,
    D item ->
    acc done s ->
    match processor item index s with
    | (Ok (Settled v), s') => v = f item index /\ acc (item :: done) s'
    | (Ok (Fetching u k), s') => acc done s' /\ resumes env f acc item index u k
    | (Throw _, _) => False
    end.

Definition item_at {A} (batch : list string) (p : pending A) : string :=
  nth (p_pos p) batch EmptyString.

(** The state of a batch whose first [pos] pipelines were started. *)
Record chunk_ok {A} (env : Env) (f : string -> nat -> option A)
       (acc : list string -> store -> Prop)
       (i : nat) (batch : list string) (pos : nat) (done0 : list string)
       (c : chunk A) (s : store) : Prop := {
  ok_length : List.length (values c) = List.length batch;
  ok_rejected : rejected c = None;
  ok_values :
    forall q item,
      q < pos -> nth_error batch q = Some item ->
      nth_error (values c) q = Some (f item (i + q))
      \/ exists p, In p (waiting c) /\ p_pos p = q;
  ok_waiting :
    forall p, In p (waiting c) ->
              exists item,
                nth_error batch (p_pos p) = Some item
                /\ resumes env f acc item (i + p_pos p) (p_url p) (p_k p);
  ok_done :
    exists done,
      acc done s
      /\ Permutation (done ++ map (item_at batch) (waiting c))
                     (firstn pos batch ++ done0)
}.

(** The pipeline of one item run on its own from the store [s0]. *)
Definition alone {A} (env : Env) (processor : processor_t A) (s0 : store)
           (item : string) (index : nat) : result (option A) :=
  match processor item index s0 with
  | (Ok (Settled v), _) => Ok v
  | (Ok (Fetching u k), s) => fst (k (fetchHtml env u) s)
  | (Throw e, _) => Throw e
  end.

Definition value_of {A} (r : result (option A)) : option A :=
  match r with
  | Ok v => v
  | Throw _ => None
  end.

(** The page of a URL in index mode, [None] when the URL is skipped. *)
Definition page_of (env : Env) (o : options) (total : nat)
           (url : string) (index : nat) : option PageResult :=
  value_of (alone env (processUrl env o total) (empty_store EmptyString) url index).

(** The value of the pipeline of a URL in full mode: [Some tt] for a page,
    [None] for a skip. *)
Definition full_of (env : Env) (o : options) (entries : list (jsstr * jsstr))
           (total : nat) (url : string) (index : nat) : option unit :=
  value_of (alone env (processUrl_full env o entries total)
                  (empty_store EmptyString) url index).

(** A command that [substituteTitle] applies without throwing. *)
Definition command_ok (env : Env) (command : string) : Prop :=
  startsWith "s/" command = false
  \/ exists r, parseSubstitutionCommand env command = Ok r.

Definition commands_ok (env : Env) (o : options) : Prop :=
  Forall (command_ok env) (or_empty (replaceTitle o)).

(** The converter does not fail on the page of [url]: on the main content
    of what the server answers for [url], when the HTML library loads
    it. *)
Definition converts (env : Env) (url : string) : Prop :=
  forall html d,
    request env url = Ok html ->
    cheerio_load env html = Ok d ->
    exists markdown, turndown env (main_html env d html) = Ok markdown.

(** The same for a URL that the filter lets through: the page of a URL
    that is filtered out is never converted. *)
Definition convertible (env : Env) (o : options) (url : string) : Prop :=
  filtered env (or_empty (excludePath o)) (or_empty (includePath o)) url = None ->
  converts env url.

(** Every glob of the options compiles. *)
Definition globs_compile (env : Env) (o : options) : Prop :=
  Forall (fun pattern => glob_compile env pattern = Ok tt)
         (or_empty (excludePath o) ++ or_empty (includePath o)).

(** What the specification says of failures: whatever happens to a page, the
    scheduler returns normally. *)
Definition never_throws {A} (env : Env) (processor : processor_t A) : Prop :=
  forall items concurrency oracle s r s' sc,
    1 <= concurrency ->
    processInBatches env processor items concurrency oracle s = Some (r, s', sc) ->
    exists results, r = Ok results.

(** What the pipeline of a URL of [genFull] does after its fetch: it records
    a skip, records a page, or throws. *)
Inductive verdict : Type :=
| Skip (r : reason)
| Page (p : PageInfo)
| Fail (e : error).

Definition apply_verdict (url : string) (v : verdict) (s : store)
  : result (option unit) * store :=
  match v with
  | Skip r => (Ok None,
               {| spinner_text := spinner_text s;
                  skipped := skipped s ++ [{| skip_url := url; skip_reason := r |}];
                  pageInfos := pageInfos s |})
  | Page p => (Ok (Some tt),
               {| spinner_text := spinner_text s;
                  skipped := skipped s;
                  pageInfos := pageInfos s ++ [p] |})
  | Fail e => (Throw e, s)
  end.

(** The URLs the records of a store of [genFull] stand for. *)
Definition accounted (s : store) : list string :=
  map pi_url (pageInfos s) ++ map skip_url (skipped s).

(** What the specification says of the records: one page or one skip for
    every URL of the sitemap, in every run. *)
Definition every_url_accounted (env : Env) (o : options) : Prop :=
  forall sitemapUrl oracle sm r,
    sitemap_fetch env sitemapUrl = Ok sm ->
    genFull env o sitemapUrl oracle = Some r ->
    List.length (pageInfos (final_store r)) + List.length (skipped (final_store r))
    = List.length (sites sm).

(** The sum [count(PageInfo) + count(SkipRecord)] of a store. *)
Definition records (s : store) : nat :=
  List.length (pageInfos s) + List.length (skipped s).

(** The number of fetches started, and of fetches completed, in a trace. *)
Fixpoint starts (t : list event) : nat :=
  match t with
  | [] => 0
  | FetchStart _ :: t' => S (starts t')
  | FetchEnd _ :: t' => starts t'
  end.

Fixpoint ends (t : list event) : nat :=
  match t with
  | [] => 0
  | FetchStart _ :: t' => ends t'
  | FetchEnd _ :: t' => S (ends t')
  end.

(** At every instant of the trace, at most [c] fetches are started and not
    completed. *)
Definition in_flight_at_most (c : nat) (t : list event) : Prop :=
  forall before after, t = before ++ after -> starts before <= ends before + c.

Definition returned {A} (r : result A) : bool :=
  match r with
  | Ok _ => true
  | Throw _ => false
  end.

(** [chunked c n finished i t]: [t] is the trace of the chunks that begin at
    the indices [i], [i + c], ... of a list of [n] items.  A chunk starts
    fetches of its own items only, each at most once, and completes every
    one of them before the next chunk starts; when the run is not
    [finished], the last chunk of the trace may leave fetches pending. *)
Inductive chunked (c n : nat) : bool -> nat -> list event -> Prop :=
| chunked_end i :
    n <= i -> chunked c n true i []
| chunked_batch finished i started ended rest :
    i < n ->
    (forall x, In x started -> i <= x < i + c /\ x < n) ->
    NoDup started ->
    Permutation ended started ->
    chunked c n finished (i + c) rest ->
    chunked c n finished i (map FetchStart started ++ map FetchEnd ended ++ rest)
| chunked_abort i started ended pending :
    i < n ->
    (forall x, In x started -> i <= x < i + c /\ x < n) ->
    NoDup started ->
    Permutation (ended ++ pending) started ->
    chunked c n false i (map FetchStart started ++ map FetchEnd ended).

(** The pages among the results. *)
Fixpoint pages_of (results : list (option PageResult)) : list PageResult :=
  match results with
  | [] => []
  | Some p :: rest => p :: pages_of rest
  | None :: rest => pages_of rest
  end.

(** The distinct keys of a list in the order of their first occurrence. *)
Fixpoint first_seen (keys : list string) : list string :=
  match keys with
  | [] => []
  | k :: rest => k :: filter (fun x => negb (String.eqb x k)) (first_seen rest)
  end.

Definition line_of (p : PageResult) : line :=
  {| line_title := pr_title p;
     line_url := pr_url p;
     line_description := pr_description p |}.

(** The lines of the pages of a section, in the order of the pages. *)
Definition lines_of (pages : list PageResult) (key : string) : list line :=
  map line_of (filter (fun p => String.eqb (pr_section p) key) pages).

(** The sections of the pages other than [ROOT], in the order of their
    first page. *)
Definition sections_of (pages : list PageResult) : list string :=
  filter (fun k => negb (String.eqb k "ROOT"))
         (first_seen (map pr_section pages)).

(** The index document as the specification describes it: the title and
    the description come from the options or else from the first page of
    [ROOT] (a description that page does not have is printed as the text
    [undefined]) or else are the default ones; then one block for each
    section, taken in the order [order] gives to them, with one bullet for
    each page of the section. *)
Definition document (order : list string -> list string) (o : options)
           (pages : list PageResult) : string :=
  let root := lines_of pages "ROOT" in
  "# " +++ display (js_or (opt_title o)
                          (match root with
                           | r0 :: _ => Str (line_title r0)
                           | [] => Str "Documentation"
                           end)) +++ nl +++ nl
  +++ "> " +++ display (js_or (opt_description o)
                              (match root with
                               | r0 :: _ => line_description r0
                               | [] => Str "Generated documentation"
                               end)) +++ nl +++ nl
  +++ concat_map (fun key =>
                    "## " +++ capitalizeString key +++ nl
                    +++ concat_map bullet (lines_of pages key)
                    +++ nl +++ nl)
                 (order (sections_of pages)).

(** The object [sections] after the pages were added. *)
Definition grouped (pages : list PageResult) : sections_t :=
  map (fun k => (k, lines_of pages k)) (first_seen (map pr_section pages)).

(** No page is in a section named like a property of [Object.prototype]. *)
Definition plain_sections (results : list (option PageResult)) : Prop :=
  forall p, In p (pages_of results) -> inherited (pr_section p) = false.

(* ================================================================= *)
(** * Further code of gen.js and notions for its properties *)

(** [isRootUrl]: the path of the URL is [/]; [false] when the URL
    constructor throws. *)
Definition isRootUrl (env : Env) (uri : string) : bool :=
  try_or (let? pathname := URL_pathname env uri in
          Ok (String.eqb pathname "/"))
         false.

Definition not_terminator (c : ascii) : bool := negb (is_line_terminator c).

(** The text [s/pattern/replacement/flags]. *)
Definition command_text (pattern replacement flags : string) : string :=
  "s/" +++ pattern +++ "/" +++ replacement +++ "/" +++ flags.

(** The characters of an anchor. *)
Definition anchor_char (c : ascii) : bool :=
  is_lower c || is_digit c || Ascii.eqb c "-".

Definition starts_with_dash (s : string) : bool :=
  match s with
  | String c _ => Ascii.eqb c "-"
  | EmptyString => false
  end.

Fixpoint no_double_dash (s : string) : bool :=
  match s with
  | EmptyString => true
  | String c s' =>
      negb (Ascii.eqb c "-" && starts_with_dash s') && no_double_dash s'
  end.

(** The options with another [--concurrency]. *)
Definition with_concurrency (o : options) (c : option Z) : options :=
  {| excludePath := excludePath o;
     includePath := includePath o;
     replaceTitle := replaceTitle o;
     opt_title := opt_title o;
     opt_description := opt_description o;
     opt_concurrency := c |}.

(** A [--concurrency] that is not negative. *)
Definition not_negative (c : option Z) : Prop :=
  forall z, c = Some z -> (0 <= z)%Z.

(** The pages the grouping loop of [gen] reaches: those before the first
    page whose section has the name of an inherited property. *)
Fixpoint pages_grouped (results : list (option PageResult)) : list PageResult :=
  match results with
  | [] => []
  | None :: rest => pages_grouped rest
  | Some p :: rest =>
      if inherited (pr_section p) then [] else p :: pages_grouped rest
  end.

(** The document of a run of [gen] that has no page. *)
Definition default_document (o : options) : string :=
  "# " +++ display (js_or (opt_title o) (Str "Documentation")) +++ nl +++ nl
  +++ "> " +++ display (js_or (opt_description o) (Str "Generated documentation"))
  +++ nl +++ nl.

(** The document of a run of [genFull] that has neither page nor skip. *)
Definition empty_full_document (o : options) : string :=
  "# " +++ display (js_or (opt_title o) (Str "Full Documentation")) +++ nl +++ nl
  +++ "# Table of Contents" +++ nl +++ nl.

Definition report (e : error) : string :=
  "Error processing sitemap: " +++ message e.

Definition no_upper (c : ascii) : bool := negb (is_upper c).

(** A code unit of the ASCII range, on which the case mappings of the
    embedding are those of JavaScript. *)
Definition is_ascii (c : ascii) : bool := nat_of_ascii c <? 128.

(** The URL gets a page in full mode (and not a skip). *)
Definition is_page (env : Env) (o : options) (entries : list (jsstr * jsstr))
           (total : nat) (url : string) : bool :=
  Boolean (full_of env o entries total url 0).

(** The indices of the fetches started, and of the fetches completed, in a
    trace, in their order. *)
Fixpoint started_of (t : list event) : list nat :=
  match t with
  | [] => []
  | FetchStart i :: t' => i :: started_of t'
  | FetchEnd _ :: t' => started_of t'
  end.

Fixpoint ended_of (t : list event) : list nat :=
  match t with
  | [] => []
  | FetchStart _ :: t' => ended_of t'
  | FetchEnd i :: t' => i :: ended_of t'
  end.

(* ================================================================= *)
(** * Properties *)

(* ================================================================= *)
(** ** Strings *)

Lemma append_empty_r (s : string) : s +++ EmptyString = s.
Proof. induction s as [|c s IH]; simpl; [reflexivity | now rewrite IH]. Qed.

Lemma append_assoc (a b c : string) : (a +++ b) +++ c = a +++ b +++ c.
Proof. induction a as [|x a IH]; simpl; [reflexivity | now rewrite IH]. Qed.

Lemma split_not_nil (sep : ascii) (s : string) : split sep s <> [].
Proof.
  induction s as [|c s IH]; simpl; [discriminate|].
  destruct (Ascii.eqb c sep); [discriminate|].
  destruct (split sep s); [contradiction | discriminate].
Qed.

(** Leading separators only add empty segments. *)
Lemma segments_skip_slashes (lead s : string) :
  all_chars is_slash lead = true ->
  filter nonempty (split "/" (lead +++ s)) = filter nonempty (split "/" s).
Proof.
  induction lead as [|c lead IH]; simpl; intros H; [reflexivity|].
  apply andb_true_iff in H as [Hc Hl]. unfold is_slash in Hc.
  rewrite Hc. simpl. now apply IH.
Qed.

(** A segment without separator is the head of the split. *)
Lemma split_segment (seg rest : string) :
  all_chars not_slash seg = true ->
  split "/" (seg +++ rest) =
  match split "/" rest with
  | h :: t => (seg +++ h) :: t
  | [] => [seg]
  end.
Proof.
  induction seg as [|c seg IH]; simpl; intros H.
  - destruct (split "/" rest) eqn:E; [now destruct (split_not_nil "/" rest)|].
    reflexivity.
  - apply andb_true_iff in H as [Hc Hs]. unfold not_slash in Hc.
    apply negb_true_iff in Hc. rewrite Hc, (IH Hs).
    destruct (split "/" rest) eqn:E; [now destruct (split_not_nil "/" rest)|].
    reflexivity.
Qed.

Lemma first_segment (lead seg rest : string) :
  all_chars is_slash lead = true ->
  seg <> EmptyString ->
  all_chars not_slash seg = true ->
  rest = EmptyString \/ startsWith "/" rest = true ->
  exists more,
    filter nonempty (split "/" (lead +++ seg +++ rest)) = seg :: more.
Proof.
  intros Hlead Hne Hseg Hrest.
  rewrite (segments_skip_slashes _ _ Hlead), (split_segment _ _ Hseg).
  assert (Hn : nonempty seg = true).
  { unfold nonempty. destruct seg; [contradiction | reflexivity]. }
  destruct Hrest as [-> | Hr].
  - simpl. rewrite append_empty_r, Hn. now eexists.
  - destruct rest as [|c rest]; [discriminate|]. cbn [startsWith] in Hr.
    apply andb_true_iff in Hr as [Hc _].
    apply Ascii.eqb_eq in Hc. subst c. simpl.
    rewrite append_empty_r, Hn. now eexists.
Qed.

Lemma no_segment (path : string) :
  all_chars is_slash path = true ->
  filter nonempty (split "/" path) = [].
Proof.
  intros H. rewrite <- (append_empty_r path).
  now rewrite (segments_skip_slashes _ _ H).
Qed.

(* ================================================================= *)
(** ** parseSection *)

Lemma parseSection_returns (env : Env) (uri : string) :
  (exists section, parseSection env uri = Ok section)
  /\ (forall e, URL_pathname env uri = Throw e -> parseSection env uri = Ok "ROOT").
Proof.
  unfold parseSection. split.
  - destruct (URL_pathname env uri) as [p|e]; simpl; eexists; reflexivity.
  - intros e ->. reflexivity.
Qed.



(** C6: the section of a URL is the first non-empty segment of its path, as
    it is written there; a path without segment gives [ROOT].  With the
    paths the URL constructor gives them, [https://x.test/] is in [ROOT] and
    [https://x.test/docs/intro] in [docs]. *)
Theorem parseSection_first_segment (env : Env) (uri pathname : string) :
  URL_pathname env uri = Ok pathname ->
  (forall lead seg rest,
      pathname = lead +++ seg +++ rest ->
      all_chars is_slash lead = true ->
      seg <> EmptyString ->
      all_chars not_slash seg = true ->
      rest = EmptyString \/ startsWith "/" rest = true ->
      parseSection env uri = Ok seg)
  /\ (all_chars is_slash pathname = true -> parseSection env uri = Ok "ROOT")
  /\ (uri = "https://x.test/" -> pathname = "/" ->
      parseSection env uri = Ok "ROOT")
  /\ (uri = "https://x.test/docs/intro" -> pathname = "/docs/intro" ->
      parseSection env uri = Ok "docs").
Proof.
  intros Hp. unfold parseSection. rewrite Hp. simpl.
  repeat split.
  - intros lead seg rest -> Hl Hne Hs Hr.
    destruct (first_segment lead seg rest Hl Hne Hs Hr) as [more ->].
    reflexivity.
  - intros H. now rewrite (no_segment _ H).
  - intros _ ->. reflexivity.
  - intros _ ->. reflexivity.
Qed.

Lemma parseSection_first_segment_witness :
  parseSection Demo.site_env "https://x.test/docs/intro" = Ok "docs"
  /\ parseSection Demo.site_env "https://x.test/" = Ok "ROOT".
Proof.
  split.
  - apply (proj1 (parseSection_first_segment Demo.site_env
                    "https://x.test/docs/intro" "/docs/intro" eq_refl)
                 "/" "docs" "/intro").
    + reflexivity.
    + reflexivity.
    + discriminate.
    + reflexivity.
    + right. reflexivity.
  - apply (proj1 (proj2 (parseSection_first_segment Demo.site_env
                           "https://x.test/" "/" eq_refl))).
    reflexivity.
Defined.

(* ================================================================= *)
(** ** cleanTitle *)

Lemma trimStart_split (s : string) :
  exists lead,
    s = lead +++ trimStart s
    /\ all_chars is_space lead = true
    /\ starts_with_space (trimStart s) = false.
Proof.
  induction s as [|c s (lead & E & Hl & Hs)]; simpl.
  - exists EmptyString. repeat split.
  - destruct (is_space c) eqn:Hc.
    + exists (String c lead). simpl. rewrite Hc, <- E. repeat split; assumption.
    + exists EmptyString. simpl. repeat split. assumption.
Qed.

Lemma trimEnd_split (s : string) :
  exists trail,
    s = trimEnd s +++ trail
    /\ all_chars is_space trail = true
    /\ ends_with_space (trimEnd s) = false.
Proof.
  induction s as [|c s (trail & E & Ht & He)]; simpl.
  - exists EmptyString. repeat split.
  - destruct (trimEnd s) as [|d t] eqn:Et.
    + simpl in E. subst trail. destruct (is_space c) eqn:Hc.
      * exists (String c s). simpl. rewrite Hc, Ht. repeat split.
      * exists s. simpl. rewrite Hc. repeat split. assumption.
    + exists trail. simpl in E. repeat split; try assumption.
      simpl. now rewrite <- E.
Qed.

Lemma trimEnd_keeps_start (s : string) :
  starts_with_space s = false -> starts_with_space (trimEnd s) = false.
Proof.
  destruct s as [|c s]; simpl; intros H; [reflexivity|].
  destruct (trimEnd s).
  - rewrite H. exact H.
  - exact H.
Qed.

Lemma trim_split (s : string) :
  exists lead trail,
    s = lead +++ trim s +++ trail
    /\ all_chars is_space lead = true
    /\ all_chars is_space trail = true
    /\ starts_with_space (trim s) = false
    /\ ends_with_space (trim s) = false.
Proof.
  destruct (trimStart_split s) as (lead & E1 & Hl & Hs).
  destruct (trimEnd_split (trimStart s)) as (trail & E2 & Ht & He).
  exists lead, trail. unfold trim.
  rewrite <- E2, <- E1. repeat split; try assumption.
  now apply trimEnd_keeps_start.
Qed.

Lemma all_space_append (a b : string) :
  all_chars is_space a = true -> all_chars is_space b = true ->
  all_chars is_space (a +++ b) = true.
Proof.
  induction a as [|c a IH]; simpl; intros Ha Hb; [assumption|].
  apply andb_true_iff in Ha as [Hc Ha]. rewrite Hc. simpl. now apply IH.
Qed.

Lemma cleanTitle_cleaned (raw : string) : cleaned_from raw (cleanTitle raw).
Proof.
  unfold cleanTitle, cleaned_from.
  destruct raw as [|c raw].
  - exists EmptyString, EmptyString, EmptyString. simpl. repeat split. now right.
  - replace (String.eqb (String c raw) EmptyString) with false by reflexivity.
    destruct (Ascii.eqb_spec c "|") as [->|Hc].
    + cbn [strip_leading_bar].
      destruct (trimStart_split raw) as (ws & E1 & Hws & _).
      destruct (trim_split (trimStart raw)) as (lead & trail & E2 & Hl & Ht & Hs & He).
      exists "|", (ws +++ lead), trail.
      repeat split; try assumption.
      * rewrite append_assoc, <- E2, <- E1. reflexivity.
      * now left.
      * now apply all_space_append.
    + assert (Hstrip : strip_leading_bar (String c raw) = String c raw).
      { unfold strip_leading_bar.
        destruct c as [[] [] [] [] [] [] [] []]; try reflexivity.
        now elim Hc. }
      rewrite Hstrip.
      destruct (trim_split (String c raw)) as (lead & trail & E & Hl & Ht & Hs & He).
      exists EmptyString, lead, trail.
      repeat split; try assumption.
      right. split; [reflexivity|].
      cbn [startsWith]. apply andb_false_iff. left.
      apply Ascii.eqb_neq. congruence.
Qed.

(** C9: with an empty list of substitution commands the final title is the
    raw title without one [|] at its start, the white space that follows
    it, and the white space around. *)
Theorem empty_rewrite_only_cleans (env : Env) (raw : string) :
  exists cleaned,
    final_title env [] raw = Ok cleaned /\ cleaned_from raw cleaned.
Proof.
  exists (cleanTitle raw). split; [reflexivity | apply cleanTitle_cleaned].
Qed.

(* ================================================================= *)
(** ** Title substitution commands *)

Example well_formed_commands :
  match_command "s/ - Docs//" = Some (" - Docs", EmptyString, EmptyString)
  /\ match_command "s/a/b/c/gi" = Some ("a", "b/c", "gi")
  /\ match_command "s/abc" = None
  /\ match_command "s/a/b/x" = None
  /\ match_command "not-a-command" = None.
Proof. repeat split. Qed.

(** A command that starts with [s/] and has not the shape is rejected only
    when the first title is rewritten, after the fetches of its batch were
    started; the pages of the run are lost. *)
Example malformed_s_command_aborts_mid_crawl :
  gen Demo.site_env
      {| excludePath := None; includePath := None;
         replaceTitle := Some ["s/abc"];
         opt_title := Undefined; opt_description := Undefined;
         opt_concurrency := Some 2%Z |}
      Demo.sitemap []
  = Some {| stdout := ["# Documentation" +++ nl +++ nl
                       +++ "> Generated documentation" +++ nl +++ nl];
            stderr := ["Error processing sitemap: Invalid substitution command format"];
            final_store := {| spinner_text := "Processing [2/4]: https://x.test/docs/a";
                              skipped := []; pageInfos := [] |};
            final_sched := {| processedItems := 0;
                              trace := [FetchStart 0; FetchStart 1; FetchEnd 0] |} |}.
Proof. vm_compute. reflexivity. Qed.

(** C3, as stated, fails: the command [not-a-command] is malformed, and the
    run that is given it reports no error and fetches every page. *)
Lemma malformed_command_is_not_rejected_up_front :
  ~ (forall env o sitemapUrl oracle command,
        In command (or_empty (replaceTitle o)) ->
        malformed command ->
        exists r, gen env o sitemapUrl oracle = Some r /\ fails_before_any_fetch r).
Proof.
  intros H.
  destruct (H Demo.site_env
              {| excludePath := None; includePath := None;
                 replaceTitle := Some ["not-a-command"];
                 opt_title := Undefined; opt_description := Undefined;
                 opt_concurrency := None |}
              Demo.sitemap [] "not-a-command")
    as (r & Hr & Herr & _).
  - left. reflexivity.
  - reflexivity.
  - vm_compute in Hr. injection Hr as <-. apply Herr. reflexivity.
Qed.

Lemma processUrl_launch (env : Env) (o : options) (total : nat)
      (url : string) (index : nat) (s : store) :
  processUrl env o total url index s =
  (Ok (match filtered env (or_empty (excludePath o)) (or_empty (includePath o)) url with
       | Some _ => Settled None
       | None => Fetching url (after_fetch env o url)
       end),
   {| spinner_text := progress index total url;
      skipped := skipped s;
      pageInfos := pageInfos s |}).
Proof.
  unfold processUrl, bind, set_spinner, ret.
  destruct (filtered _ _ _ url); reflexivity.
Qed.

(** C3, amended: a command that does not start with [s/] is ignored, the
    title is unchanged and nothing is raised; a command that starts with
    [s/] without having the shape raises [Invalid substitution command
    format] where a title is rewritten, that is in the pipeline of a page
    after its fetch: the part of a pipeline that precedes the fetch raises
    nothing, and a run whose sitemap lists no page reports no error whatever
    the commands are. *)
Theorem substitution_errors_surface_in_the_pipeline (env : Env) (o : options) :
  (forall title command,
      startsWith "s/" command = false ->
      substituteTitle env title command = Ok title)
  /\ (forall title command,
         startsWith "s/" command = true ->
         malformed command ->
         substituteTitle env title command
         = Throw (Error "Invalid substitution command format"))
  /\ (forall total url index s,
         exists p s', processUrl env o total url index s = (Ok p, s'))
  /\ (forall sitemapUrl oracle sm,
         sitemap_fetch env sitemapUrl = Ok sm ->
         sites sm = [] ->
         exists r, gen env o sitemapUrl oracle = Some r /\ stderr r = []).
Proof.
  repeat split.
  - intros title command H. unfold substituteTitle. now rewrite H.
  - intros title command H Hm. unfold substituteTitle, parseSubstitutionCommand.
    rewrite H. red in Hm. now rewrite Hm.
  - intros. rewrite processUrl_launch. eauto.
  - intros sitemapUrl oracle sm Hs Hn. unfold gen. rewrite Hs, Hn.
    simpl. eexists. split; reflexivity.
Qed.

Lemma substitution_errors_surface_in_the_pipeline_witness :
  substituteTitle Demo.site_env "Home" "not-a-command" = Ok "Home"
  /\ substituteTitle Demo.site_env "Home" "s/abc"
     = Throw (Error "Invalid substitution command format")
  /\ exists r, gen (Demo.world Demo.sitemap [] []) Demo.no_options Demo.sitemap [] = Some r
               /\ stderr r = [].
Proof.
  pose proof (substitution_errors_surface_in_the_pipeline Demo.site_env Demo.no_options)
    as (H1 & H2 & _ & _).
  pose proof (substitution_errors_surface_in_the_pipeline
                (Demo.world Demo.sitemap [] []) Demo.no_options)
    as (_ & _ & _ & H4).
  split; [|split].
  - apply H1. reflexivity.
  - apply H2; reflexivity.
  - apply (H4 Demo.sitemap [] {| sites := []; urls := None |}); reflexivity.
Defined.

(* ================================================================= *)
(** ** The filter *)

Lemma existsb_false_iff {A} (f : A -> bool) (l : list A) :
  existsb f l = false <-> forall x, In x l -> f x = false.
Proof.
  split.
  - intros H x Hx. destruct (f x) eqn:E; [|reflexivity].
    rewrite <- H. symmetry. apply existsb_exists. eauto.
  - intros H. destruct (existsb f l) eqn:E; [|reflexivity].
    apply existsb_exists in E as (x & Hx & Hf). rewrite (H x Hx) in Hf. discriminate.
Qed.

(** Apart from the patterns of exclusion, which win, an input is included
    when one pattern of inclusion matches it. *)
Lemma isIncluded_iff (env : Env) (ex inc : list string) (url : string) :
  isIncluded env ex inc url = true <->
  (exists p, In p inc /\ glob env p url = true)
  /\ (forall q, In q ex -> glob env q url = false).
Proof.
  unfold isIncluded. rewrite existsb_exists. split.
  - intros (p & Hp & H). apply andb_true_iff in H as [Hg Hn].
    apply negb_true_iff in Hn. rewrite existsb_false_iff in Hn. eauto.
  - intros ((p & Hp & Hg) & Hn). exists p. split; [assumption|].
    rewrite Hg. simpl. apply negb_true_iff. now apply existsb_false_iff.
Qed.

(** C5, as stated, fails: the globs are matched against the whole URL, so
    the pattern [/blog/*], which matches the path [/blog/c], does not
    exclude [https://x.test/blog/c]. *)
Lemma filter_does_not_match_paths :
  ~ (forall env ex inc url,
        filtered env ex inc url = None <-> eligible_on_path env ex inc url).
Proof.
  intros H.
  destruct (H Demo.site_env ["/blog/*"] [] "https://x.test/blog/c") as [H1 _].
  destruct (H1 eq_refl) as (pathname & Hp & Hex & _).
  vm_compute in Hp. injection Hp as <-.
  specialize (Hex "/blog/*" (or_introl eq_refl)).
  vm_compute in Hex. discriminate.
Qed.

(** C5, amended: a URL goes on to the fetch if and only if no pattern of
    exclusion matches it and either there is no pattern of inclusion or one
    of them matches it, the patterns of exclusion winning inside the check
    of inclusion too; the globs are matched against the URL as the sitemap
    lists it, not against its path; the decision is a function of the URL
    and the two sets, and a URL that is filtered out starts no fetch. *)
Theorem filter_decides_on_the_url (env : Env) (o : options) (url : string) :
  let ex := or_empty (excludePath o) in
  let inc := or_empty (includePath o) in
  (filtered env ex inc url = None <-> eligible_on_url env ex inc url)
  /\ (isIncluded env ex inc url = true <->
      (exists p, In p inc /\ glob env p url = true)
      /\ (forall q, In q ex -> glob env q url = false))
  /\ (forall total index s,
         exists p s',
           processUrl env o total url index s = (Ok p, s')
           /\ (filtered env ex inc url = None <-> exists k, p = Fetching url k)).
Proof.
  intros ex inc. split; [|split].
  - unfold filtered, eligible_on_url, isExcluded.
    destruct (existsb (fun p => glob env p url) ex) eqn:Eex.
    + split; [discriminate|]. intros [Hex _].
      apply existsb_false_iff in Hex. congruence.
    + rewrite existsb_false_iff in Eex.
      destruct inc as [|p0 inc'] eqn:Einc.
      * simpl. split; intros _; [split; [assumption | now left] | reflexivity].
      * rewrite <- Einc.
        replace (0 <? List.length inc) with true by (rewrite Einc; reflexivity).
        simpl.
        destruct (isIncluded env ex inc url) eqn:Ei; simpl.
        -- apply isIncluded_iff in Ei as [Hin _].
           split; intros _; [split; [assumption | now right] | reflexivity].
        -- split; [discriminate|]. intros [_ [Hnil | Hin]].
           ++ rewrite Einc in Hnil. discriminate.
           ++ assert (isIncluded env ex inc url = true) by (apply isIncluded_iff; auto).
              congruence.
  - apply isIncluded_iff.
  - intros total index s. rewrite processUrl_launch. fold ex inc.
    do 2 eexists. split; [reflexivity|].
    destruct (filtered env ex inc url).
    + split; [discriminate | intros [k Hk]; discriminate].
    + split; [eauto | reflexivity].
Qed.

Lemma filter_decides_on_the_url_witness :
  filtered Demo.site_env ["/blog/*"] [] "https://x.test/docs/a" = None.
Proof.
  apply (proj2 (proj1 (filter_decides_on_the_url
                         Demo.site_env
                         {| excludePath := Some ["/blog/*"]; includePath := None;
                            replaceTitle := None; opt_title := Undefined;
                            opt_description := Undefined;
                            opt_concurrency := None |}
                         "https://x.test/docs/a"))).
  split.
  - intros p [<- | []]. reflexivity.
  - now left.
Defined.

(* ================================================================= *)
(** ** Lists *)

Lemma place_length {A} (vs : list (option A)) (pos : nat) (v : option A) :
  pos < List.length vs -> List.length (place vs pos v) = List.length vs.
Proof.
  intros H. unfold place.
  rewrite length_app, length_firstn. cbn [List.length].
  rewrite length_skipn. lia.
Qed.

Lemma place_nth_same {A} (vs : list (option A)) (pos : nat) (v : option A) :
  pos < List.length vs -> nth_error (place vs pos v) pos = Some v.
Proof.
  intros H. unfold place.
  rewrite nth_error_app2; rewrite length_firstn, Nat.min_l by lia; [|lia].
  now rewrite Nat.sub_diag.
Qed.

Lemma place_nth_other {A} (vs : list (option A)) (pos q : nat) (v : option A) :
  pos < List.length vs -> q <> pos ->
  nth_error (place vs pos v) q = nth_error vs q.
Proof.
  revert pos q. induction vs as [|x vs IH]; intros pos q H Hq; simpl in H; [lia|].
  destruct pos as [|pos]; destruct q as [|q]; try reflexivity; try lia.
  unfold place in *. simpl. apply IH; lia.
Qed.

Lemma pick_perm {X} (l : list X) (j : nat) (d : X) :
  j < List.length l ->
  Permutation l (nth j l d :: firstn j l ++ skipn (S j) l).
Proof.
  revert j. induction l as [|x l IH]; intros j H; simpl in H; [lia|].
  destruct j as [|j]; [reflexivity|].
  simpl. rewrite perm_swap. constructor. apply IH. lia.
Qed.

Lemma pick_length {X} (l : list X) (j : nat) :
  j < List.length l ->
  List.length (firstn j l ++ skipn (S j) l) = pred (List.length l).
Proof.
  intros H. rewrite length_app, length_firstn, length_skipn. lia.
Qed.

Lemma firstn_add {X} (l : list X) (i c : nat) :
  firstn (i + c) l = firstn i l ++ firstn c (skipn i l).
Proof.
  revert i. induction l as [|x l IH]; intros i.
  - now rewrite skipn_nil, !firstn_nil.
  - destruct i as [|i]; simpl; [reflexivity | now rewrite IH].
Qed.

Lemma mapi_from_app {A} (f : string -> nat -> option A) (i : nat)
      (l1 l2 : list string) :
  mapi_from f i (l1 ++ l2)
  = mapi_from f i l1 ++ mapi_from f (i + List.length l1) l2.
Proof.
  revert i. induction l1 as [|x l1 IH]; intros i; simpl.
  - now rewrite Nat.add_0_r.
  - rewrite IH. do 3 f_equal. lia.
Qed.

Lemma mapi_from_length {A} (f : string -> nat -> option A) (i : nat)
      (l : list string) :
  List.length (mapi_from f i l) = List.length l.
Proof. revert i. induction l; intros i; simpl; [reflexivity | now rewrite IHl]. Qed.

(** A list that agrees with [mapi_from] at every position is that list. *)
Lemma mapi_from_ext {A} (f : string -> nat -> option A) (i : nat)
      (batch : list string) (vs : list (option A)) :
  List.length vs = List.length batch ->
  (forall q item, nth_error batch q = Some item ->
                  nth_error vs q = Some (f item (i + q))) ->
  vs = mapi_from f i batch.
Proof.
  revert i vs. induction batch as [|x batch IH]; intros i vs Hlen H.
  - destruct vs; [reflexivity | discriminate].
  - destruct vs as [|v vs]; [discriminate|]. simpl.
    pose proof (H 0 x eq_refl) as H0. simpl in H0. rewrite Nat.add_0_r in H0.
    injection H0 as ->. f_equal.
    apply IH; [simpl in Hlen; lia|].
    intros q item Hq. specialize (H (S q) item Hq). simpl in H.
    now rewrite Nat.add_succ_r in H.
Qed.

Lemma filter_none {X} (p : X -> bool) (l : list X) :
  (forall x, In x l -> p x = false) -> filter p l = [].
Proof.
  induction l as [|x l IH]; intros H; cbn [filter]; [reflexivity|].
  rewrite (H x (or_introl eq_refl)). apply IH. intros y Hy. apply H. now right.
Qed.

Lemma filter_length_le {X} (p : X -> bool) (l : list X) :
  List.length (filter p l) <= List.length l.
Proof. induction l as [|x l IH]; simpl; [lia|]. destruct (p x); simpl; lia. Qed.

Lemma skipn_cons_inv {X} (l : list X) (pos : nat) (x : X) (rest : list X) :
  skipn pos l = x :: rest ->
  nth_error l pos = Some x
  /\ skipn (S pos) l = rest
  /\ firstn (S pos) l = firstn pos l ++ [x]
  /\ pos < List.length l.
Proof.
  revert pos. induction l as [|y l IH]; intros pos H.
  - rewrite skipn_nil in H. discriminate.
  - destruct pos as [|pos].
    + simpl in H. injection H as -> ->. simpl. repeat split; lia.
    + simpl in H. destruct (IH pos H) as (H1 & H2 & H3 & H4).
      cbn [nth_error]. repeat split; try assumption.
      * change (firstn (S (S pos)) (y :: l)) with (y :: firstn (S pos) l).
        rewrite H3. reflexivity.
      * simpl. lia.
Qed.

(* ================================================================= *)
(** ** The scheduler accounts for every item *)

Lemma Forall_firstn_skipn {X} (D : X -> Prop) (l : list X) (i c : nat) :
  Forall D l -> Forall D (firstn c (skipn i l)).
Proof.
  intros H. rewrite <- (firstn_skipn i l) in H.
  apply Forall_app in H as [_ H].
  rewrite <- (firstn_skipn c (skipn i l)) in H.
  now apply Forall_app in H as [H _].
Qed.

Section Accounting.
Context {A : Type}.
Variable env : Env.
Variable processor : processor_t A.
Variable f : string -> nat -> option A.
Variable acc : list string -> store -> Prop.
Variable D : string -> Prop.

Hypothesis acc_perm :
  forall d d' s, Permutation d d' -> acc d s -> acc d' s.
Hypothesis Hstep : accounts_on env D processor f acc.

Lemma launch_ok (suffix : list string) :
  forall i batch pos done0 c s sc,
    Forall D batch ->
    skipn pos batch = suffix ->
    chunk_ok env f acc i batch pos done0 c s ->
    exists c' s' sc',
      launch processor i suffix pos c s sc = (c', s', sc')
      /\ chunk_ok env f acc i batch (List.length batch) done0 c' s'.
Proof.
  induction suffix as [|item rest IH]; intros i batch pos done0 c s sc HD Hsuf Hok.
  - exists c, s, sc. split; [reflexivity|].
    assert (Hpos : List.length batch <= pos).
    { apply skipn_all_iff. exact Hsuf. }
    destruct Hok as [Hl Hr Hv Hw (done & Hacc & Hperm)].
    constructor; try assumption.
    + intros q it Hq. apply Hv. lia.
    + exists done. split; [assumption|].
      rewrite firstn_all. now rewrite firstn_all2 in Hperm.
  - destruct (skipn_cons_inv _ _ _ _ Hsuf) as (Hnth & Hrest & Hfirst & Hlt).
    destruct Hok as [Hl Hr Hv Hw (done & Hacc & Hperm)].
    assert (Hitem : D item).
    { apply (proj1 (Forall_forall D batch) HD).
      apply (nth_error_In _ _ Hnth). }
    pose proof (Hstep item (i + pos) done s Hitem Hacc) as Hs.
    cbn [launch].
    destruct (processor item (i + pos) s) as [[[v | u k] | e] s1]; [| |contradiction].
    + destruct Hs as [-> Hacc1].
      apply (IH i batch (S pos) done0); [exact HD | exact Hrest|].
      constructor; cbn [values waiting rejected].
      * rewrite place_length; lia.
      * assumption.
      * intros q it Hq Hit.
        destruct (Nat.eq_dec q pos) as [-> | Hne].
        -- left. rewrite place_nth_same by lia. congruence.
        -- destruct (Hv q it ltac:(lia) Hit) as [H | H]; [left | now right].
           rewrite place_nth_other by lia. exact H.
      * assumption.
      * exists (item :: done). split; [assumption|].
        rewrite Hfirst. cbn [app]. rewrite <- app_assoc. cbn [app].
        rewrite <- Permutation_middle. now constructor.
    + destruct Hs as [Hacc1 Hres].
      apply (IH i batch (S pos) done0); [exact HD | exact Hrest|].
      constructor; cbn [values waiting rejected].
      * assumption.
      * assumption.
      * intros q it Hq Hit.
        destruct (Nat.eq_dec q pos) as [-> | Hne].
        -- right. eexists. split; [apply in_or_app; right; left; reflexivity|].
           reflexivity.
        -- destruct (Hv q it ltac:(lia) Hit) as [H | (p & Hp & Hpp)]; [now left|].
           right. exists p. split; [apply in_or_app; now left | assumption].
      * intros p Hp. apply in_app_or in Hp as [Hp | [<- | []]].
        -- now apply Hw.
        -- exists item. cbn [p_pos p_url p_k]. split; assumption.
      * exists done. split; [assumption|].
        rewrite map_app. cbn [map]. unfold item_at at 2. cbn [p_pos].
        rewrite (nth_error_nth _ _ _ Hnth).
        rewrite Hfirst, app_assoc, <- (app_assoc (firstn pos batch)).
        cbn [app]. rewrite <- Permutation_middle.
        rewrite <- Permutation_middle, app_nil_r. now constructor.
Qed.

Lemma settle_ok (n : nat) :
  forall i batch done0 oracle c s sc,
    n = List.length (waiting c) ->
    chunk_ok env f acc i batch (List.length batch) done0 c s ->
    exists s' sc' oracle',
      settle env n oracle c s sc = (Ok (mapi_from f i batch), s', sc', oracle')
      /\ acc (batch ++ done0) s'.
Proof.
  induction n as [|n IH]; intros i batch done0 oracle c s sc Hn Hok.
  - destruct Hok as [Hl Hr Hv Hw (done & Hacc & Hperm)].
    destruct (waiting c) as [|p l] eqn:W; [|discriminate].
    exists s, sc, oracle. split.
    + cbn [settle]. f_equal. f_equal. f_equal. f_equal.
      apply mapi_from_ext; [assumption|].
      intros q item Hq.
      destruct (Hv q item) as [H | (p & [] & _)]; [|assumption|assumption].
      apply nth_error_Some. congruence.
    + cbn [map] in Hperm. rewrite app_nil_r, firstn_all in Hperm.
      now apply (acc_perm done).
  - destruct (waiting c) as [|p0 l] eqn:W; [discriminate|].
    cbn [settle]. rewrite W.
    set (w := p0 :: l) in *.
    set (j := hd 0 oracle mod List.length w).
    assert (Hj : j < List.length w).
    { apply Nat.mod_upper_bound. discriminate. }
    set (p := nth j w p0).
    assert (Hp : In p w) by (apply nth_In; exact Hj).
    pose proof (pick_perm w j p0 Hj) as Hpick. fold p in Hpick.
    destruct Hok as [Hl Hr Hv Hw (done & Hacc & Hperm)].
    rewrite W in Hv, Hw, Hperm. fold w in Hv, Hw, Hperm.
    destruct (Hw p Hp) as (item & Hitem & Hres).
    destruct (Hres done s Hacc) as (s2 & Hk & Hacc2).
    cbv zeta. fold p. rewrite Hk.
    apply (IH i batch done0).
    + cbn [waiting]. rewrite pick_length by exact Hj. cbn in Hn. cbn. lia.
    + assert (Hlt : p_pos p < List.length (values c)).
      { rewrite Hl. apply nth_error_Some. congruence. }
      constructor; cbn [values waiting rejected].
      * now rewrite place_length.
      * assumption.
      * intros q it Hq Hit.
        destruct (Nat.eq_dec q (p_pos p)) as [-> | Hne].
        -- left. rewrite place_nth_same by assumption. congruence.
        -- destruct (Hv q it Hq Hit) as [H | (p' & Hp' & Hpp)].
           ++ left. now rewrite place_nth_other.
           ++ right. exists p'. split; [|assumption].
              apply (Permutation_in _ Hpick) in Hp' as [<- | Hin];
                [congruence | assumption].
      * intros p' Hp'. apply Hw.
        apply (Permutation_in p' (Permutation_sym Hpick)). now right.
      * exists (item :: done). split; [assumption|].
        rewrite <- Hperm.
        rewrite (Permutation_map (item_at batch) Hpick). cbn [map].
        unfold item_at at 2. rewrite (nth_error_nth _ _ _ Hitem).
        cbn [app]. rewrite <- Permutation_middle. reflexivity.
Qed.

Lemma run_batch_ok (i : nat) (batch : list string) (oracle : list nat)
      (s : store) (sc : sched) (done0 : list string) :
  Forall D batch ->
  acc done0 s ->
  exists s' sc' oracle',
    run_batch env processor i batch oracle s sc
    = (Ok (mapi_from f i batch), s', sc', oracle')
    /\ acc (batch ++ done0) s'.
Proof.
  intros HD Hacc. unfold run_batch.
  destruct (launch_ok batch i batch 0 done0
              {| values := repeat None (List.length batch);
                 waiting := []; rejected := None |} s sc HD eq_refl)
    as (c & s1 & sc1 & -> & Hok).
  { constructor; cbn [values waiting rejected].
    - apply repeat_length.
    - reflexivity.
    - intros q item Hq. lia.
    - intros p [].
    - exists done0. split; [assumption|]. cbn. now rewrite app_nil_r. }
  rewrite (ok_rejected _ _ _ _ _ _ _ _ _ Hok).
  now apply settle_ok.
Qed.

Lemma batches_ok (fuel : nat) :
  forall items concurrency i results oracle s sc done0,
    Forall D items ->
    1 <= concurrency ->
    List.length items - i < fuel ->
    results = mapi_from f 0 (firstn i items) ->
    acc (firstn i items ++ done0) s ->
    exists s' sc',
      batches env processor fuel items concurrency i results oracle s sc
      = Some (Ok (filter Boolean (mapi_from f 0 items)), s', sc')
      /\ acc (items ++ done0) s'.
Proof.
  induction fuel as [|fuel IH];
    intros items concurrency i results oracle s sc done0 HD Hc Hfuel Hres Hacc;
    [lia|].
  cbn [batches].
  destruct (i <? List.length items) eqn:Hi.
  - apply Nat.ltb_lt in Hi.
    unfold slice. replace (i + concurrency - i) with concurrency by lia.
    destruct (run_batch_ok i (firstn concurrency (skipn i items)) oracle s sc
                           (firstn i items ++ done0)
                           (Forall_firstn_skipn D items i concurrency HD) Hacc)
      as (s1 & sc1 & oracle1 & -> & Hacc1).
    apply IH; try assumption; try lia.
    + rewrite Hres, firstn_add, mapi_from_app.
      rewrite length_firstn, Nat.min_l by lia. reflexivity.
    + rewrite firstn_add, <- app_assoc.
      apply (acc_perm _ _ _ (Permutation_app_swap_app _ _ _)). exact Hacc1.
  - apply Nat.ltb_ge in Hi. rewrite firstn_all2 in Hres, Hacc by assumption.
    exists s, sc. subst results. split; [reflexivity | assumption].
Qed.

(** The run returns the values of the items in the order of the items,
    without the [null] ones, and its store accounts for every item. *)
Lemma processInBatches_accounts_on (items : list string) (concurrency : nat)
      (oracle : list nat) (s : store) (done0 : list string) :
  Forall D items ->
  1 <= concurrency ->
  acc done0 s ->
  exists s' sc,
    processInBatches env processor items concurrency oracle s
    = Some (Ok (filter Boolean (mapi_from f 0 items)), s', sc)
    /\ acc (items ++ done0) s'.
Proof.
  intros HD Hc Hacc. unfold processInBatches.
  apply batches_ok; try assumption; [lia | reflexivity].
Qed.

End Accounting.

Lemma Forall_all {X} (l : list X) : Forall (fun _ => True) l.
Proof. induction l; constructor; [exact Logic.I | assumption]. Qed.

Lemma processInBatches_accounts {A} (env : Env) (processor : processor_t A)
      (f : string -> nat -> option A) (acc : list string -> store -> Prop)
      (acc_perm : forall d d' s, Permutation d d' -> acc d s -> acc d' s)
      (Hstep : accounts env processor f acc)
      (items : list string) (concurrency : nat)
      (oracle : list nat) (s : store) (done0 : list string) :
  1 <= concurrency ->
  acc done0 s ->
  exists s' sc,
    processInBatches env processor items concurrency oracle s
    = Some (Ok (filter Boolean (mapi_from f 0 items)), s', sc)
    /\ acc (items ++ done0) s'.
Proof.
  intros Hc Hacc.
  apply (processInBatches_accounts_on env processor f acc (fun _ => True)
           acc_perm (fun item index done s0 _ => Hstep item index done s0));
    [apply Forall_all | assumption | assumption].
Qed.

(* ================================================================= *)
(** ** The scheduler on integers *)

Lemma relative_index_nat (n i : nat) :
  relative_index n (Z.of_nat i) = Nat.min i n.
Proof.
  unfold relative_index.
  destruct (Z.ltb_spec (Z.of_nat i) 0); [lia|]. now rewrite Nat2Z.id.
Qed.

Lemma firstn_min_length {X} (l : list X) (c : nat) :
  firstn (Nat.min c (List.length l)) l = firstn c l.
Proof.
  destruct (Nat.le_gt_cases c (List.length l)) as [H | H].
  - now rewrite Nat.min_l.
  - rewrite Nat.min_r by lia. rewrite firstn_all. symmetry.
    apply firstn_all2. lia.
Qed.

(** On natural numbers [Array_slice] is [slice]. *)
Lemma Array_slice_nat {X} (items : list X) (i c : nat) :
  Array_slice items (Z.of_nat i) (Z.of_nat i + Z.of_nat c) = slice items i (i + c).
Proof.
  unfold Array_slice, slice. rewrite <- Nat2Z.inj_add, !relative_index_nat.
  replace (i + c - i) with c by lia.
  destruct (Nat.le_gt_cases (List.length items) i) as [H | H].
  - rewrite !Nat.min_r by lia. rewrite Nat.sub_diag.
    rewrite (skipn_all2 items H). now rewrite firstn_nil.
  - rewrite (Nat.min_l i) by lia.
    replace (Nat.min (i + c) (List.length items) - i)
      with (Nat.min c (List.length (skipn i items)))
      by (rewrite length_skipn; lia).
    apply firstn_min_length.
Qed.

Lemma batchesZ_nat {A} (env : Env) (processor : processor_t A) (fuel : nat) :
  forall items c i results oracle s sc,
    batchesZ env processor fuel items (Z.of_nat c) (Z.of_nat i) results oracle s sc
    = batches env processor fuel items c i results oracle s sc.
Proof.
  induction fuel as [|fuel IH]; intros items c i results oracle s sc;
    cbn [batchesZ batches]; [reflexivity|].
  replace (Z.of_nat i <? Z.of_nat (List.length items))%Z
    with (i <? List.length items).
  2:{ destruct (Nat.ltb_spec i (List.length items));
      destruct (Z.ltb_spec (Z.of_nat i) (Z.of_nat (List.length items)));
      try reflexivity; lia. }
  destruct (i <? List.length items); [|reflexivity].
  rewrite Array_slice_nat, Nat2Z.id.
  destruct (run_batch env processor i (slice items i (i + c)) oracle s sc)
    as [[[[batchResults | e] s'] sc'] oracle']; [|reflexivity].
  rewrite <- Nat2Z.inj_add. apply IH.
Qed.

(** With a concurrency that is not negative, the loop on integers is the
    loop on natural numbers. *)
Lemma processInBatchesZ_nat {A} (env : Env) (processor : processor_t A)
      (items : list string) (concurrency : Z) (oracle : list nat) (s : store) :
  (0 <= concurrency)%Z ->
  processInBatchesZ env processor items concurrency oracle s
  = processInBatches env processor items (Z.to_nat concurrency) oracle s.
Proof.
  intros H. unfold processInBatchesZ, processInBatches.
  rewrite <- (Z2Nat.id concurrency H) at 1.
  exact (batchesZ_nat env processor _ items (Z.to_nat concurrency) 0 [] oracle s sched0).
Qed.

Lemma concurrency_not_zero (o : options) : concurrency_of o <> 0%Z.
Proof.
  unfold concurrency_of. destruct (opt_concurrency o) as [[|c|c]|]; discriminate.
Qed.

Lemma concurrency_to_nat (o : options) :
  (0 <= concurrency_of o)%Z -> 1 <= Z.to_nat (concurrency_of o).
Proof. pose proof (concurrency_not_zero o). lia. Qed.

Lemma Array_slice_before_start {X} (items : list X) (i c : Z) :
  (i < 0)%Z -> (c < 0)%Z -> Array_slice items i (i + c) = [].
Proof.
  intros Hi Hc. unfold Array_slice, relative_index.
  destruct (Z.ltb_spec i 0); [|lia].
  destruct (Z.ltb_spec (i + c) 0); [|lia].
  replace (Z.to_nat (Z.max (Z.of_nat (List.length items) + (i + c)) 0)
           - Z.to_nat (Z.max (Z.of_nat (List.length items) + i) 0))
    with 0 by lia.
  reflexivity.
Qed.

Lemma Array_slice_all_but_last {X} (items : list X) (c : Z) :
  (c < 0)%Z ->
  Array_slice items 0 (0 + c) = firstn (List.length items - Z.to_nat (- c)) items.
Proof.
  intros Hc. unfold Array_slice, relative_index.
  destruct (Z.ltb_spec 0 0); [lia|].
  destruct (Z.ltb_spec (0 + c) 0); [|lia].
  cbn [Z.to_nat Nat.min skipn]. rewrite Nat.sub_0_r.
  f_equal. lia.
Qed.

(** Once the index is negative the batches are empty and the loop goes
    on. *)
Lemma batchesZ_below_zero {A} (env : Env) (processor : processor_t A)
      (items : list string) (c : Z) (fuel : nat) :
  (c < 0)%Z ->
  forall i results oracle s sc,
    (i < 0)%Z ->
    batchesZ env processor fuel items c i results oracle s sc = None.
Proof.
  intros Hc. induction fuel as [|fuel IH]; intros i results oracle s sc Hi;
    cbn [batchesZ]; [reflexivity|].
  destruct (Z.ltb_spec i (Z.of_nat (List.length items))); [|lia].
  rewrite Array_slice_before_start by assumption.
  cbn. apply IH. lia.
Qed.

Lemma batchesZ_negative {A} (env : Env) (processor : processor_t A)
      (items : list string) (c : Z) (oracle : list nat) (s : store)
      (fuel : nat) :
  items <> [] ->
  (c < 0)%Z ->
  batchesZ env processor (S fuel) items c 0 [] oracle s sched0
  = match run_batch env processor 0
                    (firstn (List.length items - Z.to_nat (- c)) items)
                    oracle s sched0 with
    | (Ok _, _, _, _) => None
    | (Throw e, s', sc', _) => Some (Throw e, s', sc')
    end.
Proof.
  intros Hne Hc. cbn [batchesZ].
  destruct (Z.ltb_spec 0 (Z.of_nat (List.length items))) as [_ | H].
  2:{ destruct items; [contradiction | cbn in H; lia]. }
  rewrite Array_slice_all_but_last by assumption. cbn [Z.to_nat].
  destruct (run_batch env processor 0 _ oracle s sched0)
    as [[[[batchResults | e] s'] sc'] oracle']; [|reflexivity].
  apply batchesZ_below_zero; lia.
Qed.

Lemma processInBatchesZ_negative {A} (env : Env) (processor : processor_t A)
      (items : list string) (c : Z) (oracle : list nat) (s : store) :
  items <> [] ->
  (c < 0)%Z ->
  processInBatchesZ env processor items c oracle s
  = match run_batch env processor 0
                    (firstn (List.length items - Z.to_nat (- c)) items)
                    oracle s sched0 with
    | (Ok _, _, _, _) => None
    | (Throw e, s', sc', _) => Some (Throw e, s', sc')
    end.
Proof. intros Hne Hc. now apply batchesZ_negative. Qed.

Lemma compile_globs_ok (env : Env) (patterns : list string) :
  Forall (fun pattern => glob_compile env pattern = Ok tt) patterns ->
  compile_globs env patterns = Ok tt.
Proof.
  induction 1 as [|pattern rest H _ IH]; cbn [compile_globs]; [reflexivity|].
  rewrite H. exact IH.
Qed.

Lemma compile_filter_ok (env : Env) (o : options) :
  globs_compile env o -> compile_filter env o = Ok tt.
Proof.
  intros H. apply Forall_app in H as [He Hi]. unfold compile_filter.
  rewrite (compile_globs_ok env _ He). exact (compile_globs_ok env _ Hi).
Qed.

(** When the globs compile, the actions are [gen] and [genFull]: what is
    proved of these holds of the whole functions. *)
Lemma actions_compiled (env : Env) (o : options) (sitemapUrl : string)
      (oracle : list nat) :
  globs_compile env o ->
  gen_action env o sitemapUrl oracle
  = option_map Returned (gen env o sitemapUrl oracle)
  /\ genFull_action env o sitemapUrl oracle
     = option_map Returned (genFull env o sitemapUrl oracle).
Proof.
  intros H. unfold gen_action, genFull_action.
  now rewrite (compile_filter_ok env o H).
Qed.

(* ================================================================= *)
(** ** The pipelines of gen and genFull *)

Lemma rewriteTitle_ok (env : Env) (commands : list string) :
  Forall (command_ok env) commands ->
  forall title, exists title', rewriteTitle env commands title = Ok title'.
Proof.
  induction 1 as [|command rest Hc _ IH]; intros title; cbn [rewriteTitle].
  - eauto.
  - assert (Hs : exists t, substituteTitle env title command = Ok t).
    { unfold substituteTitle. destruct Hc as [-> | ([re rep] & ->)].
      - simpl. eauto.
      - destruct (startsWith "s/" command); simpl; eauto. }
    destruct Hs as (t & ->). simpl. apply IH.
Qed.

(** The continuation of [processUrl] leaves the store as it is, and its
    value does not depend on the store. *)
Lemma after_fetch_pure (env : Env) (o : options) (url : string) (html : jsstr)
      (s s0 : store) :
  after_fetch env o url html s = (fst (after_fetch env o url html s0), s).
Proof.
  unfold after_fetch, bind, lift, ret.
  destruct html as [| |h]; try reflexivity.
  destruct (negb (truthy (Str h))); [reflexivity|].
  destruct (getTitle env h) as [| |raw]; try reflexivity.
  destruct (negb (truthy (Str raw))); [reflexivity|].
  destruct (rewriteTitle env _ raw); [|reflexivity].
  destruct (parseSection env url); reflexivity.
Qed.

Lemma after_fetch_ok (env : Env) (o : options) (url : string) (html : jsstr)
      (s : store) :
  commands_ok env o ->
  exists v, after_fetch env o url html s = (Ok v, s).
Proof.
  intros Hc. unfold after_fetch, bind, lift, ret.
  destruct html as [| |h]; eauto.
  destruct (negb (truthy (Str h))); eauto.
  destruct (getTitle env h) as [| |raw]; eauto.
  destruct (negb (truthy (Str raw))); eauto.
  destruct (rewriteTitle_ok env _ Hc raw) as (t & ->).
  destruct (proj1 (parseSection_returns env url)) as (sec & ->).
  eauto.
Qed.

(** A failed request, an empty body and a document the HTML library rejects
    all make the page [null]. *)
Lemma after_fetch_soft_failures (env : Env) (o : options) (url : string)
      (s : store) :
  (forall e, request env url = Throw e ->
             after_fetch env o url (fetchHtml env url) s = (Ok None, s))
  /\ (forall html e, request env url = Ok html ->
                     cheerio_load env html = Throw e ->
                     after_fetch env o url (fetchHtml env url) s = (Ok None, s)).
Proof.
  split.
  - intros e He. unfold fetchHtml. rewrite He. reflexivity.
  - intros html e Hr Hl. unfold fetchHtml. rewrite Hr.
    cbn [rbind try_or]. unfold after_fetch.
    destruct (negb (truthy (Str html))); [reflexivity|].
    unfold getTitle. rewrite Hl. reflexivity.
Qed.

Lemma processUrl_answers (env : Env) (o : options) (total : nat) :
  commands_ok env o ->
  answers env (processUrl env o total) (page_of env o total).
Proof.
  intros Hc item index s. rewrite processUrl_launch.
  unfold page_of, alone. rewrite processUrl_launch.
  destruct (filtered env _ _ item); [reflexivity|].
  intros s1.
  destruct (after_fetch_ok env o item (fetchHtml env item) s1 Hc) as (v & Hv).
  exists s1. rewrite Hv. rewrite (after_fetch_pure _ _ _ _ _ s1), Hv. reflexivity.
Qed.

Lemma answers_accounts {A} (env : Env) (processor : processor_t A)
      (f : string -> nat -> option A) :
  answers env processor f ->
  accounts env processor f (fun _ _ => True).
Proof.
  intros H item index done s _. specialize (H item index s).
  destruct (processor item index s) as [[[v | u k] | e] s1]; [| |contradiction].
  - split; [assumption | exact Logic.I].
  - split; [exact Logic.I|]. intros d s2 _.
    destruct (H s2) as (s3 & ->). eauto.
Qed.

Lemma processUrl_full_launch (env : Env) (o : options)
      (entries : list (jsstr * jsstr)) (total : nat)
      (url : string) (index : nat) (s : store) :
  processUrl_full env o entries total url index s =
  match filtered env (or_empty (excludePath o)) (or_empty (includePath o)) url with
  | Some r =>
      (Ok (Settled None),
       {| spinner_text := progress index total url;
          skipped := skipped s ++ [{| skip_url := url; skip_reason := r |}];
          pageInfos := pageInfos s |})
  | None =>
      (Ok (Fetching url (after_fetch_full env o entries url)),
       {| spinner_text := progress index total url;
          skipped := skipped s;
          pageInfos := pageInfos s |})
  end.
Proof.
  unfold processUrl_full, bind, set_spinner, push_skipped, ret.
  destruct (filtered _ _ _ url); reflexivity.
Qed.

(** After its fetch, the pipeline of [genFull] records one skip, records one
    page of its own URL, or throws; which one does not depend on the store.
    It throws only where a title is rewritten or the document converted. *)
Lemma after_fetch_full_verdict (env : Env) (o : options)
      (entries : list (jsstr * jsstr)) (url : string) (html : jsstr) :
  exists v,
    (forall s, after_fetch_full env o entries url html s = apply_verdict url v s)
    /\ (forall p, v = Page p -> pi_url p = url)
    /\ (commands_ok env o ->
        (forall h d, html = Str h -> cheerio_load env h = Ok d ->
                     exists markdown, turndown env (main_html env d h) = Ok markdown) ->
        forall e, v <> Fail e).
Proof.
  unfold after_fetch_full, skip, bind, lift, ret, push_skipped, push_pageInfos.
  destruct html as [| |h];
    try (exists (Skip fetch_failed); repeat split; intros; discriminate).
  destruct (negb (truthy (Str h)));
    [exists (Skip fetch_failed); repeat split; intros; discriminate|].
  unfold getTitle.
  destruct (cheerio_load env h) as [d|e0] eqn:Hload; cbn [rbind try_or];
    [|exists (Skip no_title); repeat split; intros; discriminate].
  destruct (negb (truthy (Str (trim (dom_text env d "head > title")))));
    [exists (Skip no_title); repeat split; intros; discriminate|].
  destruct (rewriteTitle env (or_empty (replaceTitle o))
                         (trim (dom_text env d "head > title")))
    as [title|e1] eqn:Hrw.
  - destruct (turndown env (main_html env d h)) as [markdown|e2] eqn:Htd.
    + eexists (Page _). repeat split; intros; try discriminate.
      injection H as <-. reflexivity.
    + exists (Fail e2). repeat split; intros; try discriminate.
      destruct (H0 h d eq_refl Hload) as (md & Hmd). congruence.
  - exists (Fail e1). repeat split; intros; try discriminate.
    destruct (rewriteTitle_ok env _ H (trim (dom_text env d "head > title")))
      as (t & Ht). congruence.
Qed.

Lemma accounted_skip (s : store) (url : string) (r : reason) (text : string) :
  Permutation
    (accounted {| spinner_text := text;
                  skipped := skipped s ++ [{| skip_url := url; skip_reason := r |}];
                  pageInfos := pageInfos s |})
    (url :: accounted s).
Proof.
  unfold accounted. cbn [skipped pageInfos]. rewrite map_app. cbn [map skip_url].
  rewrite app_assoc, <- Permutation_cons_append. reflexivity.
Qed.

Lemma accounted_page (s : store) (p : PageInfo) (text : string) :
  Permutation
    (accounted {| spinner_text := text;
                  skipped := skipped s;
                  pageInfos := pageInfos s ++ [p] |})
    (pi_url p :: accounted s).
Proof.
  unfold accounted. cbn [skipped pageInfos]. rewrite map_app. cbn [map].
  rewrite <- app_assoc. cbn [app]. symmetry. apply Permutation_middle.
Qed.

Lemma fetchHtml_Str (env : Env) (url h : string) :
  fetchHtml env url = Str h -> request env url = Ok h.
Proof.
  unfold fetchHtml. destruct (request env url) as [html|e]; cbn [rbind try_or].
  - now intros [= ->].
  - discriminate.
Qed.

Lemma processUrl_full_accounts (env : Env) (o : options)
      (entries : list (jsstr * jsstr)) (total : nat) :
  commands_ok env o ->
  accounts_on env (convertible env o) (processUrl_full env o entries total)
              (full_of env o entries total)
              (fun done s => Permutation (accounted s) done).
Proof.
  intros Hc item index done s Ht Hacc.
  assert (Hf : full_of env o entries total item index
               = value_of (alone env (processUrl_full env o entries total)
                                 (empty_store EmptyString) item index))
    by reflexivity.
  unfold alone in Hf. rewrite processUrl_full_launch in Hf.
  rewrite processUrl_full_launch. unfold convertible in Ht.
  destruct (filtered env _ _ item) as [r|].
  - split; [now rewrite Hf|].
    rewrite accounted_skip. now constructor.
  - split; [exact Hacc|].
    destruct (after_fetch_full_verdict env o entries item (fetchHtml env item))
      as (v & Hv & Hurl & Hok).
    intros d s1 Hacc1. rewrite Hf, !Hv.
    destruct v as [r | p | e]; cbn [apply_verdict fst value_of].
    + eexists. split; [reflexivity|]. rewrite accounted_skip. now constructor.
    + eexists. split; [reflexivity|].
      rewrite accounted_page, (Hurl p eq_refl). now constructor.
    + now elim (Hok Hc (fun h d Hh Hd =>
                          Ht eq_refl h d (fetchHtml_Str env item h Hh) Hd) e).
Qed.

(* ================================================================= *)
(** ** The results of the batch scheduler *)

(** C1, as stated, fails: a URL whose pipeline returns [null] has no entry
    in the result, which is then shorter than the input. *)
Lemma results_can_be_fewer_than_items :
  ~ (forall env o total, one_result_per_item env (processUrl env o total)).
Proof.
  intros H.
  pose proof (fun results s' sc =>
                H Demo.site_env
                  {| excludePath := Some ["https://x.test/blog/c"];
                     includePath := None; replaceTitle := None;
                     opt_title := Undefined; opt_description := Undefined;
                     opt_concurrency := None |}
                  1 ["https://x.test/blog/c"] 5 [] (empty_store EmptyString)
                  results s' sc ltac:(lia)) as H'.
  vm_compute in H'.
  specialize (H' _ _ _ eq_refl). discriminate.
Qed.

(** C1, amended: for every list of URLs, every concurrency of at least 1 and
    every order of completion, when no pipeline throws, the scheduler
    returns the values of the pipelines in the order of the URLs with the
    [null] values removed: the entries follow the order of the input, each
    is the value of the pipeline of its own URL, and there are as many as
    there are values that are not [null], at most the number of URLs. *)
Theorem results_follow_input_order {A} (env : Env) (processor : processor_t A)
        (f : string -> nat -> option A) (items : list string)
        (concurrency : nat) (oracle : list nat) (s : store) :
  answers env processor f ->
  1 <= concurrency ->
  (exists s' sc,
      processInBatches env processor items concurrency oracle s
      = Some (Ok (filter Boolean (mapi_from f 0 items)), s', sc))
  /\ List.length (filter Boolean (mapi_from f 0 items)) <= List.length items
  /\ List.length (mapi_from f 0 items) = List.length items.
Proof.
  intros Ha Hc. split; [|split].
  - destruct (processInBatches_accounts env processor f (fun _ _ => True)
                (fun _ _ _ _ _ => Logic.I) (answers_accounts env processor f Ha)
                items concurrency oracle s [] Hc Logic.I)
      as (s' & sc & H & _).
    eauto.
  - rewrite <- (mapi_from_length f 0 items). apply filter_length_le.
  - apply mapi_from_length.
Qed.

Lemma results_follow_input_order_witness :
  exists s' sc,
    processInBatches Demo.site_env (processUrl Demo.site_env Demo.no_options 4)
                     (map fst Demo.site) 3 [2; 0; 1] (empty_store EmptyString)
    = Some (Ok (filter Boolean
                       (mapi_from (page_of Demo.site_env Demo.no_options 4) 0
                                  (map fst Demo.site))), s', sc).
Proof.
  apply (results_follow_input_order Demo.site_env
           (processUrl Demo.site_env Demo.no_options 4)
           (page_of Demo.site_env Demo.no_options 4)).
  - apply processUrl_answers. constructor.
  - lia.
Defined.

(* ================================================================= *)
(** ** Failures of a page *)

(** C2, as stated, fails: the exception of a title substitution leaves the
    pipeline of its page and the scheduler, and the pages of the run are
    lost; and with commands that are all accepted, so does in full mode the
    exception of the converter. *)
Lemma failures_leave_the_scheduler :
  ~ (forall env o total, never_throws env (processUrl env o total))
  /\ ~ (forall env o entries total,
          commands_ok env o ->
          never_throws env (processUrl_full env o entries total)).
Proof.
  split; intros H.
  - pose proof (fun r s' sc =>
                  H Demo.site_env
                    {| excludePath := None; includePath := None;
                       replaceTitle := Some ["s/abc"];
                       opt_title := Undefined; opt_description := Undefined;
                       opt_concurrency := None |}
                    4 (map fst Demo.site) 5 [] (empty_store EmptyString)
                    r s' sc ltac:(lia)) as H'.
    vm_compute in H'.
    destruct (H' _ _ _ eq_refl) as (results & Hr). discriminate.
  - pose proof (fun r s' sc =>
                  H Demo.table_env Demo.no_options [] 2 (Forall_nil _)
                    (map fst Demo.table_site) 5 [] (empty_store EmptyString)
                    r s' sc ltac:(lia)) as H'.
    vm_compute in H'.
    destruct (H' _ _ _ eq_refl) as (results & Hr). discriminate.
Qed.

(** In full mode a failure of the converter leaves the scheduler too, and
    nothing is printed. *)
Example converter_failure_aborts_genFull :
  genFull Demo.table_env Demo.no_options Demo.sitemap []
  = Some {| stdout := [];
            stderr := ["Error processing sitemap: Maximum call stack size exceeded"];
            final_store :=
              {| spinner_text := "Processing [2/2]: https://x.test/t";
                 skipped := [];
                 pageInfos := [{| pi_title := "Home"; pi_url := "https://x.test/";
                                  pi_description := Undefined;
                                  pi_markdown := "text"; pi_anchor := "home";
                                  pi_lastmod := Undefined |}] |};
            final_sched :=
              {| processedItems := 1;
                 trace := [FetchStart 0; FetchStart 1; FetchEnd 0; FetchEnd 1] |} |}.
Proof. vm_compute. reflexivity. Qed.

(** C2, amended: a failure of the fetch (an empty body is one) or of the
    extraction of the title, and a title that is missing, are caught in the
    pipeline of their URL and make the page [null], and in full mode a skip
    with the reason [fetch failed] or [no title]; a failure of the
    extraction of the description leaves the description [null]; none of
    them needs a condition.  The exceptions that leave a pipeline are those of a title
    substitution and, in full mode, of the converter: when every
    substitution command is one [substituteTitle] accepts (and, in full
    mode, the converter does not fail on the pages of the list that pass
    the filter), nothing is thrown past the scheduler and every URL has the
    value of its own pipeline, in full mode its one page or skip too,
    whatever fails in the fetches and in the HTML library, for every
    concurrency of at least 1 and in whatever order the fetches
    complete. *)
Theorem page_failures_are_absorbed (env : Env) (o : options)
        (entries : list (jsstr * jsstr)) (total : nat) :
  (forall url e s,
      request env url = Throw e ->
      after_fetch env o url (fetchHtml env url) s = (Ok None, s))
  /\ (forall url html e s,
         request env url = Ok html ->
         cheerio_load env html = Throw e ->
         after_fetch env o url (fetchHtml env url) s = (Ok None, s))
  /\ (forall url e s,
         request env url = Throw e ->
         after_fetch_full env o entries url (fetchHtml env url) s
         = apply_verdict url (Skip fetch_failed) s)
  /\ (forall url s,
         request env url = Ok EmptyString ->
         after_fetch env o url (fetchHtml env url) s = (Ok None, s)
         /\ after_fetch_full env o entries url (fetchHtml env url) s
            = apply_verdict url (Skip fetch_failed) s)
  /\ (forall url html e s,
         request env url = Ok html ->
         html <> EmptyString ->
         cheerio_load env html = Throw e ->
         after_fetch_full env o entries url (fetchHtml env url) s
         = apply_verdict url (Skip no_title) s)
  /\ (forall html e,
         cheerio_load env html = Throw e ->
         getTitle env html = Null /\ getDescription env html = Null)
  /\ (forall url html d s,
         request env url = Ok html ->
         cheerio_load env html = Ok d ->
         trim (dom_text env d "head > title") = EmptyString ->
         after_fetch env o url (fetchHtml env url) s = (Ok None, s)
         /\ (html <> EmptyString ->
             after_fetch_full env o entries url (fetchHtml env url) s
             = apply_verdict url (Skip no_title) s))
  /\ (forall items concurrency oracle s,
         commands_ok env o ->
         1 <= concurrency ->
         exists s' sc,
           processInBatches env (processUrl env o total) items concurrency oracle s
           = Some (Ok (filter Boolean (mapi_from (page_of env o total) 0 items)),
                   s', sc))
  /\ (forall items concurrency oracle s,
         commands_ok env o ->
         Forall (convertible env o) items ->
         1 <= concurrency ->
         exists s' sc,
           processInBatches env (processUrl_full env o entries total)
                            items concurrency oracle s
           = Some (Ok (filter Boolean
                              (mapi_from (full_of env o entries total) 0 items)),
                   s', sc)
           /\ Permutation (accounted s') (items ++ accounted s)).
Proof.
  split; [|split; [|split; [|split; [|split; [|split; [|split; [|split]]]]]]].
  - intros url e s. apply after_fetch_soft_failures.
  - intros url html e s. apply after_fetch_soft_failures.
  - intros url e s He. unfold fetchHtml. rewrite He. reflexivity.
  - intros url s Hr. unfold fetchHtml. rewrite Hr. split; reflexivity.
  - intros url html e s Hr Hne Hl. unfold fetchHtml. rewrite Hr.
    cbn [rbind try_or]. unfold after_fetch_full.
    assert (Ht : truthy (Str html) = true).
    { cbn [truthy]. destruct (String.eqb_spec html EmptyString);
        [contradiction | reflexivity]. }
    rewrite Ht. cbn [negb]. unfold getTitle. rewrite Hl. reflexivity.
  - intros html e Hl. unfold getTitle, getDescription. rewrite Hl.
    split; reflexivity.
  - intros url html d s Hr Hl Ht. unfold fetchHtml. rewrite Hr.
    cbn [rbind try_or]. unfold after_fetch, after_fetch_full, getTitle.
    rewrite Hl. cbn [rbind try_or]. rewrite Ht.
    destruct (String.eqb_spec html EmptyString) as [-> | Hne].
    + split; [reflexivity | contradiction].
    + assert (Hh : truthy (Str html) = true).
      { cbn [truthy]. destruct (String.eqb_spec html EmptyString);
          [contradiction | reflexivity]. }
      rewrite Hh. split; reflexivity.
  - intros items concurrency oracle s Hc Hn.
    destruct (processInBatches_accounts env (processUrl env o total)
                (page_of env o total) (fun _ _ => True)
                (fun _ _ _ _ _ => Logic.I)
                (answers_accounts _ _ _ (processUrl_answers env o total Hc))
                items concurrency oracle s [] Hn Logic.I)
      as (s' & sc & H & _).
    eauto.
  - intros items concurrency oracle s Hc Ht Hn.
    destruct (processInBatches_accounts_on env (processUrl_full env o entries total)
                (full_of env o entries total)
                (fun done s => Permutation (accounted s) done)
                (convertible env o)
                (fun d d' s P H => Permutation_trans H P)
                (processUrl_full_accounts env o entries total Hc)
                items concurrency oracle s (accounted s) Ht Hn
                (Permutation_refl _))
      as (s' & sc & H & Hp).
    eauto.
Qed.

Lemma page_failures_are_absorbed_witness :
  after_fetch_full Demo.table_env Demo.no_options [] "https://x.test/gone"
                   (fetchHtml Demo.table_env "https://x.test/gone")
                   (empty_store EmptyString)
  = apply_verdict "https://x.test/gone" (Skip fetch_failed) (empty_store EmptyString)
  /\ exists s' sc,
       processInBatches
         Demo.table_env (processUrl_full Demo.table_env Demo.no_options [] 2)
         ["https://x.test/"; "https://x.test/gone"] 2 [1] (empty_store EmptyString)
       = Some (Ok (filter Boolean
                          (mapi_from (full_of Demo.table_env Demo.no_options [] 2) 0
                                     ["https://x.test/"; "https://x.test/gone"])),
               s', sc)
       /\ Permutation (accounted s')
                      (["https://x.test/"; "https://x.test/gone"]
                       ++ accounted (empty_store EmptyString)).
Proof.
  pose proof (page_failures_are_absorbed Demo.table_env Demo.no_options [] 2)
    as (_ & _ & H3 & _ & _ & _ & _ & _ & H7).
  split.
  - apply (H3 "https://x.test/gone" (External "getaddrinfo ENOTFOUND")).
    reflexivity.
  - apply H7.
    + constructor.
    + repeat constructor; intros _ html d Hr Hl; vm_compute in Hr;
        try discriminate; injection Hr as <-; vm_compute in Hl;
        injection Hl as <-; eexists; vm_compute; reflexivity.
    + lia.
Defined.

(* ================================================================= *)
(** ** Every URL is accounted for *)

Lemma processUrl_keeps_records (env : Env) (o : options) (total : nat) :
  commands_ok env o ->
  accounts env (processUrl env o total) (page_of env o total)
           (fun _ s => skipped s = [] /\ pageInfos s = []).
Proof.
  intros Hc item index done s Hacc.
  pose proof (processUrl_answers env o total Hc item index s) as Ha.
  rewrite processUrl_launch in *.
  destruct (filtered env _ _ item).
  - split; [assumption | exact Hacc].
  - split; [exact Hacc|]. intros d s1 Hacc1.
    destruct (Ha s1) as (s2 & Hs2). exists s1.
    destruct (after_fetch_ok env o item (fetchHtml env item) s1 Hc) as (v & Hv).
    rewrite Hv in *. injection Hs2 as -> _. split; [reflexivity | exact Hacc1].
Qed.

(** C4, as stated, fails: in a run that a title substitution aborts, the
    URLs of the sitemap have neither a page nor a skip; and with commands
    that are all accepted, a page on which the converter fails has
    neither, nor has any page after it. *)
Lemma aborted_run_accounts_for_no_url :
  ~ (forall env o, every_url_accounted env o)
  /\ ~ (forall env o, commands_ok env o -> every_url_accounted env o).
Proof.
  split; intros H.
  - pose proof (fun r =>
                  H Demo.site_env
                    {| excludePath := None; includePath := None;
                       replaceTitle := Some ["s/abc"];
                       opt_title := Undefined; opt_description := Undefined;
                       opt_concurrency := None |}
                    Demo.sitemap []
                    {| sites := map fst Demo.site; urls := None |} r eq_refl) as H'.
    vm_compute in H'.
    specialize (H' _ eq_refl). discriminate.
  - pose proof (fun r =>
                  H Demo.table_env Demo.no_options (Forall_nil _)
                    Demo.sitemap []
                    {| sites := map fst Demo.table_site; urls := None |} r eq_refl)
      as H'.
    vm_compute in H'.
    specialize (H' _ eq_refl). discriminate.
Qed.

(** C4, amended: in a run of [genFull] whose globs compile, whose
    concurrency is not negative and in which no pipeline throws (every
    substitution command is one [substituteTitle] accepts and the converter
    does not fail on the pages of the sitemap that pass the filter), every
    URL of the sitemap
    gets exactly one page or exactly one skip, never both and never
    neither: the URLs of the pages and of the skips are together a
    permutation of the list of the sitemap, and
    count(PageInfo) + count(SkipRecord) is its length.  In index mode no
    skip is recorded: every URL gets its page or [null], the [null] values
    being dropped from the result. *)
Theorem every_url_is_a_page_or_a_skip (env : Env) (o : options)
        (sitemapUrl : string) (oracle : list nat) (sm : sitemap_result) :
  sitemap_fetch env sitemapUrl = Ok sm ->
  globs_compile env o ->
  (0 <= concurrency_of o)%Z ->
  commands_ok env o ->
  (Forall (convertible env o) (sites sm) ->
   exists r,
     genFull_action env o sitemapUrl oracle = Some (Returned r)
     /\ stderr r = []
     /\ Permutation (accounted (final_store r)) (sites sm)
     /\ records (final_store r) = List.length (sites sm))
  /\ (exists s' sc,
         let outcomes :=
           mapi_from (page_of env o (List.length (sites sm))) 0 (sites sm) in
         processInBatchesZ env (processUrl env o (List.length (sites sm)))
                           (sites sm) (concurrency_of o) oracle
                           (empty_store sitemapUrl)
         = Some (Ok (filter Boolean outcomes), s', sc)
         /\ List.length outcomes = List.length (sites sm)
         /\ skipped s' = []).
Proof.
  intros Hs Hg Hn Hc. split.
  - intros Ht. unfold genFull_action, genFull.
    rewrite (compile_filter_ok env o Hg), Hs.
    rewrite (processInBatchesZ_nat _ _ _ _ _ _ Hn).
    destruct (processInBatches_accounts_on env
                (processUrl_full env o (or_empty (urls sm)) (List.length (sites sm)))
                (full_of env o (or_empty (urls sm)) (List.length (sites sm)))
                (fun done s => Permutation (accounted s) done)
                (convertible env o)
                (fun d d' s P H => Permutation_trans H P)
                (processUrl_full_accounts env o _ _ Hc)
                (sites sm) (Z.to_nat (concurrency_of o)) oracle
                (empty_store sitemapUrl)
                [] Ht (concurrency_to_nat o Hn) (Permutation_refl _))
      as (s' & sc & -> & Hp).
    rewrite app_nil_r in Hp.
    eexists. split; [reflexivity|]. cbn [stderr final_store].
    split; [reflexivity|]. split; [exact Hp|].
    rewrite <- (Permutation_length Hp). unfold records, accounted.
    now rewrite length_app, !length_map.
  - rewrite (processInBatchesZ_nat _ _ _ _ _ _ Hn).
    destruct (processInBatches_accounts env
                (processUrl env o (List.length (sites sm)))
                (page_of env o (List.length (sites sm)))
                (fun _ s => skipped s = [] /\ pageInfos s = [])
                (fun _ _ _ _ H => H)
                (processUrl_keeps_records env o _ Hc)
                (sites sm) (Z.to_nat (concurrency_of o)) oracle
                (empty_store sitemapUrl)
                [] (concurrency_to_nat o Hn) (conj eq_refl eq_refl))
      as (s' & sc & H & Hk & _).
    exists s', sc. cbv zeta. split; [exact H|].
    split; [apply mapi_from_length | exact Hk].
Qed.

Lemma every_url_is_a_page_or_a_skip_witness :
  exists r,
    genFull_action Demo.site_env
            {| excludePath := Some ["https://x.test/blog/*"];
               includePath := None; replaceTitle := Some ["s/Home/Start/"];
               opt_title := Undefined; opt_description := Undefined;
               opt_concurrency := Some 3%Z |}
            Demo.sitemap [2; 0] = Some (Returned r)
    /\ stderr r = []
    /\ Permutation (accounted (final_store r)) (map fst Demo.site)
    /\ records (final_store r) = 4.
Proof.
  apply (every_url_is_a_page_or_a_skip Demo.site_env _ Demo.sitemap [2; 0]
           {| sites := map fst Demo.site; urls := None |}).
  - reflexivity.
  - repeat constructor.
  - cbn. lia.
  - constructor; [|constructor]. right. eexists. reflexivity.
  - repeat constructor; intros _ html d Hr Hl; vm_compute in Hr;
      injection Hr as <-; vm_compute in Hl; injection Hl as <-;
      eexists; vm_compute; reflexivity.
Defined.


(* ================================================================= *)
(** ** The concurrency ceiling *)

Lemma starts_app (a b : list event) : starts (a ++ b) = starts a + starts b.
Proof. induction a as [|[x|x] a IH]; simpl; lia. Qed.

Lemma ends_app (a b : list event) : ends (a ++ b) = ends a + ends b.
Proof. induction a as [|[x|x] a IH]; simpl; lia. Qed.

Lemma starts_map_start (l : list nat) : starts (map FetchStart l) = List.length l.
Proof. induction l; simpl; lia. Qed.

Lemma starts_map_end (l : list nat) : starts (map FetchEnd l) = 0.
Proof. induction l; simpl; lia. Qed.

Lemma ends_map_start (l : list nat) : ends (map FetchStart l) = 0.
Proof. induction l; simpl; lia. Qed.

Lemma ends_map_end (l : list nat) : ends (map FetchEnd l) = List.length l.
Proof. induction l; simpl; lia. Qed.

(** Distinct indices of one chunk are at most [c]. *)
Lemma chunk_size (c i : nat) (started : list nat) :
  NoDup started ->
  (forall x, In x started -> i <= x < i + c) ->
  List.length started <= c.
Proof.
  intros Hnd Hin.
  rewrite <- (length_seq c i). apply NoDup_incl_length; [assumption|].
  intros x Hx. apply in_seq. now apply Hin.
Qed.

Lemma chunk_prefix_bounded (c : nat) (started ended : list nat)
      (before after : list event) :
  List.length started <= c ->
  map FetchStart started ++ map FetchEnd ended = before ++ after ->
  starts before <= ends before + c.
Proof.
  intros Hc E.
  assert (H : starts before <= starts (before ++ after))
    by (rewrite starts_app; lia).
  rewrite <- E, starts_app, starts_map_start, starts_map_end in H. lia.
Qed.

Lemma chunked_bounded (c n : nat) (finished : bool) (i : nat) (t : list event) :
  chunked c n finished i t -> in_flight_at_most c t.
Proof.
  induction 1 as [i Hi
                 | finished i started ended rest Hi Hin Hnd Hperm _ IH
                 | i started ended pending Hi Hin Hnd Hperm];
    intros before after E.
  - symmetry in E. apply app_eq_nil in E as [-> _]. simpl. lia.
  - assert (Hc : List.length started <= c).
    { apply (chunk_size c i); [assumption|]. intros x Hx. now apply Hin. }
    rewrite app_assoc in E. apply app_eq_app in E as (m & [[E1 E2] | [E1 E2]]).
    + now apply (chunk_prefix_bounded c started ended before m).
    + subst before. specialize (IH m after E2).
      rewrite !starts_app, !ends_app, starts_map_start, starts_map_end,
        ends_map_start, ends_map_end, (Permutation_length Hperm).
      lia.
  - assert (Hc : List.length started <= c).
    { apply (chunk_size c i); [assumption|]. intros x Hx. now apply Hin. }
    now apply (chunk_prefix_bounded c started ended before after).
Qed.

Section Trace.
Context {A : Type}.
Variable env : Env.
Variable processor : processor_t A.

(** The pipelines that [launch] leaves waiting are those of the batch that
    reached their fetch, in order, and the trace has their starts. *)
Lemma launch_trace (suffix : list string) :
  forall i pos c s sc c' s' sc',
    launch processor i suffix pos c s sc = (c', s', sc') ->
    exists new,
      waiting c' = waiting c ++ new
      /\ trace sc' = trace sc ++ map FetchStart (map p_index new)
      /\ NoDup (map p_index new)
      /\ (forall x, In x (map p_index new) ->
                    i + pos <= x < i + pos + List.length suffix).
Proof.
  induction suffix as [|item rest IH]; intros i pos c s sc c' s' sc' H.
  - injection H as <- <- <-. exists []. cbn [map]. rewrite !app_nil_r.
    split; [reflexivity|]. split; [reflexivity|].
    split; [constructor | intros x []].
  - cbn [launch] in H.
    destruct (processor item (i + pos) s) as [[[v | u k] | e] s1].
    + apply IH in H as (new & Hw & Ht & Hnd & Hin).
      exists new. cbn [waiting] in Hw. cbn [trace count_processed] in Ht.
      split; [exact Hw|]. split; [exact Ht|]. split; [exact Hnd|].
      intros x Hx. specialize (Hin x Hx). cbn [List.length]. lia.
    + apply IH in H as (new & Hw & Ht & Hnd & Hin).
      cbn [waiting] in Hw. cbn [trace observe] in Ht.
      eexists (_ :: new). rewrite <- app_assoc in Hw, Ht.
      split; [exact Hw|]. split; [exact Ht|]. cbn [map p_index].
      split.
      * constructor; [|assumption]. intros Hx. specialize (Hin _ Hx). lia.
      * intros x [<- | Hx]; cbn [List.length]; [lia|].
        specialize (Hin x Hx). lia.
    + apply IH in H as (new & Hw & Ht & Hnd & Hin).
      exists new. cbn [waiting] in Hw.
      split; [exact Hw|]. split; [exact Ht|]. split; [exact Hnd|].
      intros x Hx. specialize (Hin x Hx). cbn [List.length]. lia.
Qed.

(** [settle] completes fetches of the waiting pipelines, each once, and
    all of them when it returns a value. *)
Lemma settle_trace (n : nat) :
  forall oracle (c : chunk A) s sc r s' sc' oracle',
    n = List.length (waiting c) ->
    settle env n oracle c s sc = (r, s', sc', oracle') ->
    exists ended pending,
      Permutation (ended ++ pending) (map p_index (waiting c))
      /\ trace sc' = trace sc ++ map FetchEnd ended
      /\ (returned r = true -> pending = []).
Proof.
  induction n as [|n IH]; intros oracle c s sc r s' sc' oracle' Hn H.
  - destruct (waiting c) as [|p l] eqn:W; [|discriminate].
    cbn [settle] in H. injection H as <- _ <- _.
    exists [], []. cbn [map app]. rewrite app_nil_r.
    split; [constructor|]. split; reflexivity.
  - destruct (waiting c) as [|p0 l] eqn:W; [discriminate|].
    cbn [settle] in H. rewrite W in H.
    set (w := p0 :: l) in *.
    set (j := hd 0 oracle mod List.length w) in *.
    assert (Hj : j < List.length w).
    { apply Nat.mod_upper_bound. discriminate. }
    set (p := nth j w p0) in *.
    pose proof (pick_perm w j p0 Hj) as Hpick. fold p in Hpick.
    cbv zeta in H.
    destruct (p_k p (fetchHtml env (p_url p)) s) as [[v | e] s1].
    + apply IH in H as (ended & pending & Hperm & Ht & Hr).
      * cbn [waiting] in Hperm. cbn [trace observe count_processed] in Ht.
        exists (p_index p :: ended), pending.
        split; [|split; [|exact Hr]].
        -- rewrite (Permutation_map p_index Hpick). cbn [map app].
           now constructor.
        -- rewrite Ht, <- app_assoc. reflexivity.
      * cbn [waiting]. rewrite pick_length by exact Hj. cbn in Hn. cbn. lia.
    + injection H as <- _ <- _.
      exists [p_index p], (map p_index (firstn j w ++ skipn (S j) w)).
      split; [|split; [reflexivity | discriminate]].
      rewrite (Permutation_map p_index Hpick). reflexivity.
Qed.

Lemma run_batch_trace (i : nat) (batch : list string) (oracle : list nat)
      (s : store) (sc : sched) r s' sc' oracle' :
  run_batch env processor i batch oracle s sc = (r, s', sc', oracle') ->
  exists started ended pending,
    trace sc' = trace sc ++ map FetchStart started ++ map FetchEnd ended
    /\ NoDup started
    /\ (forall x, In x started -> i <= x < i + List.length batch)
    /\ Permutation (ended ++ pending) started
    /\ (returned r = true -> pending = []).
Proof.
  unfold run_batch. intros H.
  destruct (launch processor i batch 0 _ s sc) as [[c s1] sc1] eqn:L.
  apply launch_trace in L as (new & Hw & Ht & Hnd & Hin).
  cbn [waiting app] in Hw.
  assert (Hin' : forall x, In x (map p_index new) ->
                           i <= x < i + List.length batch).
  { intros x Hx. specialize (Hin x Hx). lia. }
  destruct (rejected c) as [e|].
  - injection H as <- _ <- _.
    exists (map p_index new), [], (map p_index new).
    rewrite Ht, app_nil_r.
    split; [reflexivity|]. split; [exact Hnd|]. split; [exact Hin'|].
    split; [reflexivity | discriminate].
  - apply settle_trace in H as (ended & pending & Hperm & Ht2 & Hr);
      [|reflexivity].
    rewrite Hw in Hperm.
    exists (map p_index new), ended, pending.
    rewrite Ht2, Ht, <- app_assoc.
    split; [reflexivity|]. split; [exact Hnd|]. split; [exact Hin'|].
    split; [exact Hperm | exact Hr].
Qed.

Lemma batches_trace (fuel : nat) :
  forall items concurrency i results oracle s sc,
    1 <= concurrency ->
    List.length items - i < fuel ->
    exists r s' sc' t,
      batches env processor fuel items concurrency i results oracle s sc
      = Some (r, s', sc')
      /\ trace sc' = trace sc ++ t
      /\ chunked concurrency (List.length items) (returned r) i t.
Proof.
  induction fuel as [|fuel IH];
    intros items concurrency i results oracle s sc Hc Hfuel; [lia|].
  cbn [batches].
  destruct (i <? List.length items) eqn:Hi.
  - apply Nat.ltb_lt in Hi.
    destruct (run_batch env processor i (slice items i (i + concurrency))
                        oracle s sc) as [[[r1 s1] sc1] oracle1] eqn:R.
    apply run_batch_trace in R
      as (started & ended & pending & Ht & Hnd & Hin & Hperm & Hr).
    assert (Hlen : List.length (slice items i (i + concurrency))
                   = Nat.min concurrency (List.length items - i)).
    { unfold slice. rewrite length_firstn, length_skipn. lia. }
    assert (Hin' : forall x, In x started ->
                             i <= x < i + concurrency /\ x < List.length items).
    { intros x Hx. specialize (Hin x Hx). lia. }
    destruct r1 as [batchResults | e].
    + rewrite (Hr eq_refl), app_nil_r in Hperm.
      destruct (IH items concurrency (i + concurrency)
                   (results ++ batchResults) oracle1 s1 sc1 Hc ltac:(lia))
        as (r & s' & sc' & t & -> & Ht' & Hch).
      exists r, s', sc', (map FetchStart started ++ map FetchEnd ended ++ t).
      split; [reflexivity|]. split.
      * rewrite Ht', Ht, <- !app_assoc. reflexivity.
      * now apply chunked_batch.
    + exists (Throw e), s1, sc1, (map FetchStart started ++ map FetchEnd ended).
      split; [reflexivity|]. split; [exact Ht|].
      now apply (chunked_abort _ _ i started ended pending).
  - apply Nat.ltb_ge in Hi.
    exists (Ok (filter Boolean results)), s, sc, [].
    split; [reflexivity|]. split; [now rewrite app_nil_r|].
    now constructor.
Qed.

End Trace.

(** C8: for every concurrency [c >= 1], every processor and every order of
    completion, [processInBatches] returns; it takes the items in
    consecutive chunks of at most [c] items, in order; every fetch of a
    chunk completes before a fetch of the next chunk starts; and at no
    instant are more than [c] fetches in flight. *)
Theorem at_most_c_fetches_in_flight {A} (env : Env) (processor : processor_t A)
        (items : list string) (c : nat) (oracle : list nat) (s : store) :
  1 <= c ->
  exists r s' sc,
    processInBatches env processor items c oracle s = Some (r, s', sc)
    /\ (forall i, List.length (slice items i (i + c)) <= c)
    /\ chunked c (List.length items) (returned r) 0 (trace sc)
    /\ in_flight_at_most c (trace sc).
Proof.
  intros Hc. unfold processInBatches.
  destruct (batches_trace env processor (S (List.length items)) items c 0 []
                          oracle s sched0 Hc ltac:(lia))
    as (r & s' & sc & t & H & Ht & Hch).
  cbn [trace sched0 app] in Ht. subst t.
  exists r, s', sc. split; [exact H|]. split; [|split; [exact Hch|]].
  - intros i. unfold slice. rewrite length_firstn. lia.
  - exact (chunked_bounded _ _ _ _ _ Hch).
Qed.

Lemma at_most_c_fetches_in_flight_witness :
  exists r s' sc,
    processInBatches Demo.site_env (processUrl Demo.site_env Demo.no_options 4)
                     (map fst Demo.site) 3 [2; 0; 1] (empty_store EmptyString)
    = Some (r, s', sc)
    /\ (forall i, List.length (slice (map fst Demo.site) i (i + 3)) <= 3)
    /\ chunked 3 4 (returned r) 0 (trace sc)
    /\ in_flight_at_most 3 (trace sc).
Proof.
  apply (at_most_c_fetches_in_flight Demo.site_env
           (processUrl Demo.site_env Demo.no_options 4)
           (map fst Demo.site) 3 [2; 0; 1] (empty_store EmptyString)).
  lia.
Defined.

(* ================================================================= *)
(** ** The index document *)

Lemma first_seen_snoc (ks : list string) (k : string) :
  first_seen (ks ++ [k]) =
  if existsb (String.eqb k) ks then first_seen ks else first_seen ks ++ [k].
Proof.
  induction ks as [|a ks IH]; cbn [app first_seen existsb]; [reflexivity|].
  rewrite IH. destruct (String.eqb_spec k a) as [-> | Hne]; cbn [orb].
  - destruct (existsb (String.eqb a) ks); [reflexivity|].
    rewrite filter_app. cbn [filter]. rewrite String.eqb_refl. cbn [negb].
    now rewrite app_nil_r.
  - destruct (existsb (String.eqb k) ks); [reflexivity|].
    rewrite filter_app. cbn [filter].
    apply String.eqb_neq in Hne. rewrite Hne. reflexivity.
Qed.

Lemma first_seen_in (ks : list string) (k : string) :
  In k (first_seen ks) <-> In k ks.
Proof.
  induction ks as [|a ks IH]; cbn [first_seen]; [reflexivity|].
  cbn [In]. rewrite filter_In, IH.
  destruct (String.eqb_spec k a) as [-> | Hne]; cbn [negb].
  - split; intros; now left.
  - split; intros [H | H]; auto. right. tauto.
Qed.

Lemma existsb_eqb_in (k : string) (ks : list string) :
  existsb (String.eqb k) ks = true <-> In k ks.
Proof.
  rewrite existsb_exists. split.
  - intros (x & Hx & E). apply String.eqb_eq in E. now subst.
  - intros H. exists k. split; [assumption | apply String.eqb_refl].
Qed.

Lemma lines_of_snoc (pages : list PageResult) (p : PageResult) (k : string) :
  lines_of (pages ++ [p]) k =
  lines_of pages k ++ (if String.eqb (pr_section p) k then [line_of p] else []).
Proof.
  unfold lines_of. rewrite filter_app, map_app. cbn [filter].
  destruct (String.eqb (pr_section p) k); reflexivity.
Qed.

(** Reading and extending a property of an object whose values are a
    function of the key. *)
Lemma own_get_map (g : string -> list line) (ks : list string) (key : string) :
  own_get (map (fun k => (k, g k)) ks) key =
  if existsb (String.eqb key) ks then Some (g key) else None.
Proof.
  induction ks as [|a ks IH]; cbn [map own_get existsb]; [reflexivity|].
  rewrite String.eqb_sym.
  destruct (String.eqb_spec key a) as [-> | Hne]; [reflexivity | exact IH].
Qed.

Lemma own_push_map (g : string -> list line) (ks : list string)
      (key : string) (l : line) :
  NoDup ks ->
  own_push (map (fun k => (k, g k)) ks) key l =
  map (fun k => (k, g k ++ if String.eqb key k then [l] else [])) ks.
Proof.
  induction 1 as [|a ks Ha Hnd IH]; cbn [map own_push]; [reflexivity|].
  rewrite String.eqb_sym.
  destruct (String.eqb_spec key a) as [-> | Hne].
  - f_equal. apply map_ext_in. intros k Hk.
    destruct (String.eqb_spec a k) as [-> | _]; [contradiction|].
    now rewrite app_nil_r.
  - rewrite app_nil_r, IH. reflexivity.
Qed.

Lemma first_seen_nodup (ks : list string) : NoDup (first_seen ks).
Proof.
  induction ks as [|a ks IH]; cbn [first_seen]; constructor.
  - rewrite filter_In. intros [_ H]. now rewrite String.eqb_refl in H.
  - now apply NoDup_filter.
Qed.

Lemma add_line_grouped (pages : list PageResult) (p : PageResult) :
  inherited (pr_section p) = false ->
  add_line (grouped pages) (pr_section p) (line_of p) = Ok (grouped (pages ++ [p])).
Proof.
  intros Hi. unfold add_line, grouped.
  rewrite own_get_map, map_app. cbn [map]. rewrite first_seen_snoc.
  destruct (existsb (String.eqb (pr_section p)) (first_seen (map pr_section pages)))
    eqn:E.
  - assert (E' : existsb (String.eqb (pr_section p)) (map pr_section pages) = true).
    { apply existsb_eqb_in, first_seen_in, existsb_eqb_in. exact E. }
    rewrite E'. rewrite own_push_map by apply first_seen_nodup.
    apply (f_equal (@Ok sections_t)).
    apply map_ext. intros k. now rewrite lines_of_snoc.
  - assert (E' : existsb (String.eqb (pr_section p)) (map pr_section pages) = false).
    { destruct (existsb _ (map pr_section pages)) eqn:E2; [|reflexivity].
      apply existsb_eqb_in, first_seen_in, existsb_eqb_in in E2. congruence. }
    rewrite E', Hi, map_app. cbn [map].
    apply (f_equal (@Ok sections_t)). apply f_equal2; [|apply f_equal2; [|reflexivity]].
    + apply map_ext_in. intros k Hk. rewrite lines_of_snoc.
      destruct (String.eqb_spec (pr_section p) k) as [<- | _];
        [|now rewrite app_nil_r].
      apply existsb_eqb_in in Hk. congruence.
    + apply f_equal. rewrite lines_of_snoc, String.eqb_refl.
      replace (lines_of pages (pr_section p)) with (@nil line); [reflexivity|].
      unfold lines_of. rewrite filter_none; [reflexivity|].
      intros q Hq.
      destruct (String.eqb_spec (pr_section q) (pr_section p)) as [Eq|]; [|reflexivity].
      exfalso. rewrite <- Bool.not_true_iff_false in E'. apply E'.
      apply existsb_eqb_in. rewrite <- Eq. now apply in_map.
Qed.

Lemma organize_grouped (results : list (option PageResult)) :
  forall pre,
    plain_sections results ->
    organize results (grouped pre) = (grouped (pre ++ pages_of results), None).
Proof.
  induction results as [|[p|] rest IH]; intros pre Hp; cbn [organize pages_of].
  - now rewrite app_nil_r.
  - change {| line_title := pr_title p; line_url := pr_url p;
              line_description := pr_description p |} with (line_of p).
    rewrite add_line_grouped by (apply Hp; now left).
    rewrite IH.
    + now rewrite <- app_assoc.
    + intros q Hq. apply Hp. now right.
  - apply IH. exact Hp.
Qed.

Lemma fold_left_append {X} (f : X -> string) (l : list X) (a b : string) :
  fold_left (fun output x => output +++ f x) l (a +++ b)
  = a +++ fold_left (fun output x => output +++ f x) l b.
Proof.
  revert b. induction l as [|x l IH]; intros b; cbn [fold_left]; [reflexivity|].
  now rewrite append_assoc, IH.
Qed.

Lemma fold_left_concat_map {X} (f : X -> string) (l : list X) (a : string) :
  fold_left (fun output x => output +++ f x) l a = a +++ concat_map f l.
Proof.
  unfold concat_map. rewrite <- fold_left_append. now rewrite append_empty_r.
Qed.

Lemma concat_map_ext_in {X} (f g : X -> string) (l : list X) :
  (forall x, In x l -> f x = g x) -> concat_map f l = concat_map g l.
Proof.
  unfold concat_map. generalize EmptyString.
  induction l as [|x l IH]; intros a H; cbn [fold_left]; [reflexivity|].
  rewrite (H x (or_introl eq_refl)). apply IH. intros y Hy. apply H. now right.
Qed.

Lemma insert_index_in (k x : string) (l : list string) :
  In x (insert_index k l) <-> x = k \/ In x l.
Proof.
  induction l as [|a l IH]; cbn [insert_index].
  - cbn. intuition.
  - destruct (number_of k 0 <=? number_of a 0)%N; cbn [In]; [intuition|].
    rewrite IH. intuition.
Qed.

Lemma sort_indices_in (x : string) (l : list string) :
  In x (sort_indices l) <-> In x l.
Proof.
  induction l as [|a l IH]; cbn [sort_indices]; [reflexivity|].
  rewrite insert_index_in, IH. cbn. intuition.
Qed.

Lemma enumeration_order_in (x : string) (ks : list string) :
  In x (enumeration_order ks) <-> In x ks.
Proof.
  unfold enumeration_order.
  rewrite in_app_iff, sort_indices_in, !filter_In.
  destruct (is_array_index x); cbn; intuition discriminate.
Qed.

Lemma filter_all {X} (p : X -> bool) (l : list X) :
  (forall x, In x l -> p x = true) -> filter p l = l.
Proof.
  induction l as [|x l IH]; intros H; cbn [filter]; [reflexivity|].
  rewrite (H x (or_introl eq_refl)). f_equal. apply IH. intros y Hy. apply H. now right.
Qed.

Lemma delete_grouped (g : string -> list line) (ks : list string) (key : string) :
  delete key (map (fun k => (k, g k)) ks)
  = map (fun k => (k, g k)) (filter (fun k => negb (String.eqb k key)) ks).
Proof.
  unfold delete. induction ks as [|a ks IH]; cbn [map filter fst]; [reflexivity|].
  destruct (negb (String.eqb a key)); cbn [map]; now rewrite IH.
Qed.

Lemma root_lines (pages : list PageResult) :
  match own_get (grouped pages) "ROOT" with
  | Some ls => ls
  | None => []
  end = lines_of pages "ROOT".
Proof.
  unfold grouped. rewrite own_get_map.
  destruct (existsb (String.eqb "ROOT") (first_seen (map pr_section pages))) eqn:E;
    [reflexivity|].
  unfold lines_of. rewrite filter_none; [reflexivity|].
  intros p Hp.
  destruct (String.eqb_spec (pr_section p) "ROOT") as [Eq|]; [|reflexivity].
  exfalso. rewrite <- Bool.not_true_iff_false in E. apply E.
  apply existsb_eqb_in, first_seen_in. rewrite <- Eq. now apply in_map.
Qed.

Lemma js_or_twice (a b : jsstr) : js_or a (js_or a b) = js_or a b.
Proof. unfold js_or. destruct (truthy a); reflexivity. Qed.

(** The document [assemble] builds from the grouped pages is the one of the
    specification with the sections in the order of enumeration. *)
Lemma assemble_grouped (o : options) (pages : list PageResult) :
  assemble o (grouped pages) = document enumeration_order o pages.
Proof.
  unfold assemble, document. cbv zeta. rewrite root_lines.
  unfold grouped. rewrite delete_grouped. fold (sections_of pages).
  unfold for_in. rewrite map_map. cbn [fst]. rewrite map_id.
  rewrite fold_left_concat_map.
  rewrite (concat_map_ext_in
             (section_block (map (fun k => (k, lines_of pages k)) (sections_of pages)))
             (fun key => "## " +++ capitalizeString key +++ nl
                         +++ concat_map bullet (lines_of pages key) +++ nl +++ nl)).
  - destruct (lines_of pages "ROOT") as [|r0 ?]; rewrite ?js_or_twice;
      rewrite !append_assoc; reflexivity.
  - intros key Hk. apply (proj1 (enumeration_order_in _ _)) in Hk.
    unfold section_block. rewrite own_get_map.
    apply (proj2 (existsb_eqb_in _ _)) in Hk. now rewrite Hk.
Qed.

Lemma sections_of_in (pages : list PageResult) (k : string) :
  In k (sections_of pages) <->
  k <> "ROOT" /\ exists p, In p pages /\ pr_section p = k.
Proof.
  unfold sections_of. rewrite filter_In, first_seen_in, in_map_iff, negb_true_iff.
  rewrite String.eqb_neq. split.
  - intros ((p & E & Hin) & Hne). split; [exact Hne|]. now exists p.
  - intros (Hne & p & Hin & E). split; [|exact Hne]. now exists p.
Qed.

(** C7, as stated, fails: a section whose name is an array index, such as
    [2024], is emitted before the sections seen before it. *)
Lemma numeric_sections_are_emitted_first :
  ~ (forall o results,
        plain_sections results ->
        assemble o (fst (organize results []))
        = document (fun sections => sections) o (pages_of results)).
Proof.
  intros H.
  specialize (H Demo.no_options
                [Some {| pr_title := "A"; pr_url := "https://x.test/docs/a";
                         pr_description := Undefined; pr_section := "docs" |};
                 Some {| pr_title := "B"; pr_url := "https://x.test/2024/b";
                         pr_description := Undefined; pr_section := "2024" |}]).
  assert (Hp : plain_sections
                 [Some {| pr_title := "A"; pr_url := "https://x.test/docs/a";
                          pr_description := Undefined; pr_section := "docs" |};
                  Some {| pr_title := "B"; pr_url := "https://x.test/2024/b";
                          pr_description := Undefined; pr_section := "2024" |}]).
  { intros p [<- | [<- | []]]; reflexivity. }
  specialize (H Hp). vm_compute in H. discriminate.
Qed.

Example numeric_section_document :
  assemble Demo.no_options
           (fst (organize
                   [Some {| pr_title := "A"; pr_url := "https://x.test/docs/a";
                            pr_description := Undefined; pr_section := "docs" |};
                    Some {| pr_title := "B"; pr_url := "https://x.test/2024/b";
                            pr_description := Str "A post"; pr_section := "2024" |}]
                   []))
  = "# Documentation" +++ nl +++ nl
    +++ "> Generated documentation" +++ nl +++ nl
    +++ "## 2024" +++ nl +++ nl
    +++ "- [B](https://x.test/2024/b): A post" +++ nl +++ nl
    +++ "## Docs" +++ nl +++ nl
    +++ "- [A](https://x.test/docs/a)" +++ nl +++ nl.
Proof. vm_compute. reflexivity. Qed.

(** C7, amended: in index mode, when no page is in a section named like a
    property every object inherits, the document has no block for the key
    [ROOT]; the pages of [ROOT] are taken out first and the first of them
    gives the title and the description of the document unless the options
    [--title] and [--description] give them; every other section has one
    block, with one bullet for each of its pages in the order the pages
    were added; the blocks of the sections whose name is an array index
    come first, in ascending numeric order, and those of the other sections
    follow in the order the sections were first seen. *)
Theorem index_document_layout (o : options) (results : list (option PageResult)) :
  plain_sections results ->
  let pages := pages_of results in
  organize results [] = (grouped pages, None)
  /\ assemble o (fst (organize results [])) = document enumeration_order o pages
  /\ ~ In "ROOT" (enumeration_order (sections_of pages))
  /\ (forall k, In k (enumeration_order (sections_of pages)) <->
                k <> "ROOT" /\ exists p, In p pages /\ pr_section p = k)
  /\ enumeration_order (sections_of pages)
     = sort_indices (filter is_array_index (sections_of pages))
       ++ filter (fun k => negb (is_array_index k)) (sections_of pages)
  /\ ((forall p, In p pages -> is_array_index (pr_section p) = false) ->
      enumeration_order (sections_of pages) = sections_of pages).
Proof.
  intros Hp pages.
  assert (Ho : organize results [] = (grouped pages, None)).
  { exact (organize_grouped results [] Hp). }
  split; [exact Ho|]. rewrite Ho. cbn [fst].
  split; [apply assemble_grouped|].
  split; [|split; [|split]].
  - rewrite enumeration_order_in, sections_of_in. intros [H _]. now apply H.
  - intros k. now rewrite enumeration_order_in, sections_of_in.
  - reflexivity.
  - intros Hn. unfold enumeration_order.
    assert (Hk : forall k, In k (sections_of pages) -> is_array_index k = false).
    { intros k Hk. apply sections_of_in in Hk as (_ & p & Hin & <-). now apply Hn. }
    rewrite filter_none by exact Hk. cbn [sort_indices app].
    apply filter_all. intros k Hin. now rewrite (Hk k Hin).
Qed.

Lemma index_document_layout_witness :
  assemble Demo.no_options
           (fst (organize
                   [Some {| pr_title := "Home"; pr_url := "https://x.test/";
                            pr_description := Str "A site"; pr_section := "ROOT" |};
                    None;
                    Some {| pr_title := "A"; pr_url := "https://x.test/docs/a";
                            pr_description := Undefined; pr_section := "docs" |}]
                   []))
  = document enumeration_order Demo.no_options
             [{| pr_title := "Home"; pr_url := "https://x.test/";
                 pr_description := Str "A site"; pr_section := "ROOT" |};
              {| pr_title := "A"; pr_url := "https://x.test/docs/a";
                 pr_description := Undefined; pr_section := "docs" |}].
Proof.
  apply (index_document_layout Demo.no_options
           [Some {| pr_title := "Home"; pr_url := "https://x.test/";
                    pr_description := Str "A site"; pr_section := "ROOT" |};
            None;
            Some {| pr_title := "A"; pr_url := "https://x.test/docs/a";
                    pr_description := Undefined; pr_section := "docs" |}]).
  intros p [<- | [<- | []]]; reflexivity.
Defined.

(** A section named like an inherited property stops the grouping; the pages
    that follow it are not in the document. *)
Example inherited_section_stops_the_grouping :
  organize
    [Some {| pr_title := "A"; pr_url := "https://x.test/docs/a";
             pr_description := Undefined; pr_section := "docs" |};
     Some {| pr_title := "K"; pr_url := "https://x.test/constructor/k";
             pr_description := Undefined; pr_section := "constructor" |};
     Some {| pr_title := "C"; pr_url := "https://x.test/blog/c";
             pr_description := Undefined; pr_section := "blog" |}]
    []
  = ([("docs", [{| line_title := "A"; line_url := "https://x.test/docs/a";
                   line_description := Undefined |}])],
     Some (TypeError "sections[section].push is not a function")).
Proof. reflexivity. Qed.

(* ================================================================= *)
(** ** The scenario of the specification *)

(** The scenario of the specification, the blog page being excluded by its
    URL: the title comes from the page of the root, whose description is
    absent, and the two pages of [docs] are listed in their order. *)
Example scenario_index_document :
  exists r,
    gen Demo.site_env
        {| excludePath := Some ["https://x.test/blog/c"];
           includePath := None; replaceTitle := None;
           opt_title := Undefined; opt_description := Undefined;
           opt_concurrency := Some 2%Z |}
        Demo.sitemap [1; 0; 1] = Some r
    /\ stderr r = []
    /\ stdout r = ["# Home" +++ nl +++ nl
                   +++ "> undefined" +++ nl +++ nl
                   +++ "## Docs" +++ nl +++ nl
                   +++ "- [A | Docs](https://x.test/docs/a)" +++ nl
                   +++ "- [B](https://x.test/docs/b)" +++ nl +++ nl]
    /\ trace (final_sched r)
       = [FetchStart 0; FetchStart 1; FetchEnd 1; FetchEnd 0;
          FetchStart 2; FetchEnd 2].
Proof. eexists. vm_compute. repeat split. Qed.

(* ================================================================= *)
(** * Further properties *)

(* ================================================================= *)
(** ** Parsing a substitution command *)

Lemma slash_is_no_flag (a b : string) :
  all_chars is_flag (a +++ String "/" b) = false.
Proof.
  induction a as [|c a IH]; cbn [append all_chars]; [reflexivity|].
  rewrite IH. apply andb_false_r.
Qed.

(** What a lazy group returns comes from the shortest capture the rest of
    the expression accepts. *)
Lemma lazy_to_slash_sound {A} (s : string) :
  forall acc (k : string -> string -> option A) r,
    lazy_to_slash acc s k = Some r ->
    exists cap rest,
      s = cap +++ String "/" rest
      /\ all_chars not_terminator cap = true
      /\ k (acc +++ cap) rest = Some r
      /\ (forall cap' rest',
             s = cap' +++ String "/" rest' ->
             String.length cap' < String.length cap ->
             k (acc +++ cap') rest' = None).
Proof.
  induction s as [|c s IH]; intros acc k r H; cbn [lazy_to_slash] in H;
    [discriminate|].
  destruct (if Ascii.eqb c "/" then k acc s else None) as [r0|] eqn:Here.
  - injection H as ->.
    destruct (Ascii.eqb_spec c "/") as [-> | _]; [|discriminate].
    exists EmptyString, s. rewrite append_empty_r.
    split; [reflexivity|]. split; [reflexivity|]. split; [assumption|].
    intros cap' rest' _ Hlt. cbn in Hlt. lia.
  - destruct (is_line_terminator c) eqn:Hlt; [discriminate|].
    apply IH in H as (cap & rest & -> & Hcap & Hk & Hmin).
    exists (String c cap), rest. cbn [append all_chars].
    unfold not_terminator at 1. rewrite Hlt, Hcap.
    rewrite append_assoc in Hk.
    split; [reflexivity|]. split; [reflexivity|]. split; [assumption|].
    intros cap' rest' E Hlen.
    destruct cap' as [|d cap'].
    + cbn [append] in E. injection E as -> E. rewrite append_empty_r.
      replace (Ascii.eqb "/" "/") with true in Here by reflexivity.
      rewrite E in Here. exact Here.
    + cbn [append] in E. injection E as <- E.
      cbn [String.length] in Hlen.
      specialize (Hmin cap' rest' E ltac:(lia)).
      now rewrite append_assoc in Hmin.
Qed.

Lemma first_slash (s : string) :
  all_chars not_slash s = false ->
  exists a b,
    s = a +++ String "/" b /\ String.length a < String.length s.
Proof.
  induction s as [|c s IH]; cbn [all_chars]; intros H; [discriminate|].
  destruct (Ascii.eqb_spec c "/") as [-> | Hc].
  - exists EmptyString, s. cbn. split; [reflexivity | lia].
  - unfold not_slash at 1 in H. apply Ascii.eqb_neq in Hc. rewrite Hc in H.
    cbn [negb andb] in H. destruct (IH H) as (a & b & -> & Hl).
    exists (String c a), b. cbn [append String.length]. split; [reflexivity | lia].
Qed.

(** A capture without [/] is the one the group takes. *)
Lemma lazy_to_slash_first {A} (cap : string) :
  forall acc rest (k : string -> string -> option A),
    all_chars not_slash cap = true ->
    all_chars not_terminator cap = true ->
    lazy_to_slash acc (cap +++ String "/" rest) k = k (acc +++ cap) rest
    \/ (k (acc +++ cap) rest = None
        /\ exists r, lazy_to_slash acc (cap +++ String "/" rest) k = r).
Proof.
  induction cap as [|c cap IH]; intros acc rest k Hs Ht.
  - cbn [append lazy_to_slash]. rewrite append_empty_r.
    replace (Ascii.eqb "/" "/") with true by reflexivity.
    destruct (k acc rest) as [r|]; [now left|]. right. eauto.
  - cbn [all_chars] in Hs, Ht.
    apply andb_true_iff in Hs as [Hc Hs]. apply andb_true_iff in Ht as [Hl Ht].
    unfold not_slash in Hc. apply negb_true_iff in Hc.
    unfold not_terminator in Hl. apply negb_true_iff in Hl.
    cbn [append lazy_to_slash]. rewrite Hc, Hl.
    specialize (IH (acc +++ String c EmptyString) rest k Hs Ht).
    rewrite append_assoc in IH. exact IH.
Qed.

(** The second group and the flags: the capture ends at the last [/]. *)
Lemma lazy_to_slash_flags {A} (g : string -> string -> A) (replacement : string) :
  forall acc flags,
    all_chars not_terminator replacement = true ->
    all_chars is_flag flags = true ->
    lazy_to_slash acc (replacement +++ String "/" flags)
                  (fun rep fl => if all_chars is_flag fl then Some (g rep fl) else None)
    = Some (g (acc +++ replacement) flags).
Proof.
  induction replacement as [|c rep IH]; intros acc flags Ht Hf.
  - cbn [append lazy_to_slash]. rewrite append_empty_r.
    replace (Ascii.eqb "/" "/") with true by reflexivity.
    now rewrite Hf.
  - cbn [all_chars] in Ht. apply andb_true_iff in Ht as [Hl Ht].
    unfold not_terminator in Hl. apply negb_true_iff in Hl.
    cbn [append lazy_to_slash]. rewrite Hl.
    assert (Hhere : (if Ascii.eqb c "/"
                     then (if all_chars is_flag (rep +++ String "/" flags)
                           then Some (g acc (rep +++ String "/" flags)) else None)
                     else None) = None).
    { rewrite slash_is_no_flag. now destruct (Ascii.eqb c "/"). }
    rewrite Hhere, (IH _ _ Ht Hf), append_assoc. reflexivity.
Qed.

Lemma all_chars_append (p : ascii -> bool) (a b : string) :
  all_chars p (a +++ b) = all_chars p a && all_chars p b.
Proof.
  induction a as [|c a IH]; cbn [append all_chars]; [reflexivity|].
  now rewrite IH, andb_assoc.
Qed.

(** A command written from its three parts is parsed into them. *)
Lemma match_command_complete (pattern replacement flags : string) :
  all_chars not_slash pattern = true ->
  all_chars not_terminator pattern = true ->
  all_chars not_terminator replacement = true ->
  all_chars is_flag flags = true ->
  match_command (command_text pattern replacement flags)
  = Some (pattern, replacement, flags).
Proof.
  intros Hs Hp Hr Hf. unfold command_text, match_command. cbn [append].
  pose proof (lazy_to_slash_flags (fun rep fl => (pattern, rep, fl))
                replacement EmptyString flags Hr Hf) as H2.
  cbn [append] in H2.
  destruct (lazy_to_slash_first pattern EmptyString
              (replacement +++ String "/" flags)
              (fun pattern0 r1 =>
                 lazy_to_slash EmptyString r1
                   (fun replacement0 flags0 =>
                      if all_chars is_flag flags0
                      then Some (pattern0, replacement0, flags0) else None))
              Hs Hp) as [-> | [Hnone _]].
  - cbn [append]. exact H2.
  - cbn [append] in Hnone. rewrite H2 in Hnone. discriminate.
Qed.


(** What the parts of an accepted command are. *)
Lemma match_command_sound (command pattern replacement flags : string) :
  match_command command = Some (pattern, replacement, flags) ->
  command = command_text pattern replacement flags
  /\ all_chars is_flag flags = true
  /\ all_chars not_slash pattern = true
  /\ all_chars not_terminator pattern = true
  /\ all_chars not_terminator replacement = true.
Proof.
  unfold match_command, command_text. intros H.
  destruct command as [|c0 [|c1 rest]]; try discriminate.
  - destruct c0 as [[] [] [] [] [] [] [] []]; discriminate.
  - destruct (Ascii.eqb_spec c0 "s") as [-> | Hn0];
      [|destruct c0 as [[] [] [] [] [] [] [] []]; try discriminate; now elim Hn0].
    destruct (Ascii.eqb_spec c1 "/") as [-> | Hn1];
      [|destruct c1 as [[] [] [] [] [] [] [] []]; try discriminate; now elim Hn1].
    apply lazy_to_slash_sound in H as (cap1 & rest1 & -> & Ht1 & H & Hmin1).
    cbn [append] in H, Hmin1.
    apply lazy_to_slash_sound in H as (cap2 & rest2 & -> & Ht2 & H & _).
    cbn [append] in H.
    destruct (all_chars is_flag rest2) eqn:Hf; [|discriminate].
    injection H as <- <- <-.
    cbn [append]. repeat split; try assumption.
    destruct (all_chars not_slash cap1) eqn:Hs; [reflexivity | exfalso].
    destruct (first_slash cap1 Hs) as (a & b & -> & Hlen).
    rewrite all_chars_append in Ht1. cbn [all_chars] in Ht1.
    apply andb_true_iff in Ht1 as [_ Ht1]. apply andb_true_iff in Ht1 as [_ Hb].
    specialize (Hmin1 a (b +++ String "/" (cap2 +++ String "/" rest2))).
    rewrite append_assoc in Hmin1. cbn [append] in Hmin1.
    specialize (Hmin1 eq_refl Hlen).
    pose proof (lazy_to_slash_flags (fun rep fl => (a, rep, fl))
                  (b +++ String "/" cap2) EmptyString rest2) as Hok.
    rewrite all_chars_append in Hok. cbn [all_chars] in Hok.
    rewrite Hb, Ht2 in Hok. specialize (Hok eq_refl Hf).
    rewrite append_assoc in Hok. cbn [append] in Hok, Hmin1.
    rewrite Hok in Hmin1. discriminate.
Qed.

(** X1: a command is accepted, with the parts [pattern], [replacement] and
    [flags], exactly when it is the text [s/pattern/replacement/flags], the
    flags are among g, i, m, s, u, y, the pattern holds no [/] and neither
    the pattern nor the replacement holds a line terminator; the
    replacement may hold [/].  So a command has at most one reading, and
    the text of its parts reads back as these parts. *)
Theorem match_command_parts (command pattern replacement flags : string) :
  match_command command = Some (pattern, replacement, flags)
  <-> (command = command_text pattern replacement flags
       /\ all_chars is_flag flags = true
       /\ all_chars not_slash pattern = true
       /\ all_chars not_terminator pattern = true
       /\ all_chars not_terminator replacement = true).
Proof.
  split.
  - apply match_command_sound.
  - intros (-> & Hf & Hs & Hp & Hr). now apply match_command_complete.
Qed.

Lemma match_command_parts_witness :
  match_command (command_text " - Docs" "a/b" "gi") = Some (" - Docs", "a/b", "gi")
  /\ all_chars not_slash "a" = true.
Proof.
  split.
  - apply (proj2 (match_command_parts (command_text " - Docs" "a/b" "gi")
                                      " - Docs" "a/b" "gi")).
    repeat split.
  - apply (proj1 (match_command_parts "s/a/b/c/gi" "a" "b/c" "gi")). reflexivity.
Defined.

(* ================================================================= *)
(** ** Applying the commands *)

(** X2: on a command of the shape [s/pattern/replacement/flags],
    [substituteTitle] builds the regular expression of the pattern and the
    flags and replaces with the replacement; when the constructor rejects
    the pattern or the flags, its exception is what [substituteTitle]
    throws, whatever the title. *)
Theorem substituteTitle_applies_the_parts (env : Env)
        (title pattern replacement flags : string) :
  all_chars not_slash pattern = true ->
  all_chars not_terminator pattern = true ->
  all_chars not_terminator replacement = true ->
  all_chars is_flag flags = true ->
  substituteTitle env title (command_text pattern replacement flags)
  = match RegExp_new env pattern flags with
    | Ok re => Ok (replace env title re replacement)
    | Throw e => Throw e
    end.
Proof.
  intros Hs Hp Hr Hf. unfold substituteTitle, parseSubstitutionCommand.
  rewrite (match_command_complete _ _ _ Hs Hp Hr Hf).
  replace (startsWith "s/" (command_text pattern replacement flags))
    with true by reflexivity.
  cbn [negb]. destruct (RegExp_new env pattern flags); reflexivity.
Qed.

Lemma substituteTitle_applies_the_parts_witness :
  substituteTitle Demo.site_env "A - Docs" (command_text " - Docs" "!" EmptyString)
  = Ok "A!"
  /\ substituteTitle Demo.site_env "A" (command_text "(" "x" EmptyString)
     = Throw (External "pattern outside the fragment of this instance").
Proof.
  split.
  - rewrite (substituteTitle_applies_the_parts Demo.site_env "A - Docs"
               " - Docs" "!" EmptyString); reflexivity.
  - rewrite (substituteTitle_applies_the_parts Demo.site_env "A"
               "(" "x" EmptyString); reflexivity.
Defined.

(** X3: the commands apply from left to right, the title one command gives
    being the input of the next, and the first command that throws ends the
    rewriting with its exception; the commands that do not start with [s/]
    can be removed from the list without changing the title or the
    exception. *)
Theorem rewriteTitle_in_order (env : Env) (first second : list string)
        (title : string) :
  rewriteTitle env (first ++ second) title
  = (let? title' := rewriteTitle env first title in
     rewriteTitle env second title')
  /\ rewriteTitle env (filter (startsWith "s/") first) title
     = rewriteTitle env first title.
Proof.
  split.
  - revert title. induction first as [|c first IH]; intros title;
      cbn [app rewriteTitle rbind]; [reflexivity|].
    destruct (substituteTitle env title c) as [t|e]; cbn [rbind];
      [apply IH | reflexivity].
  - revert title. induction first as [|c first IH]; intros title;
      cbn [filter rewriteTitle]; [reflexivity|].
    destruct (startsWith "s/" c) eqn:Hc; cbn [rewriteTitle].
    + destruct (substituteTitle env title c) as [t|e]; cbn [rbind];
        [apply IH | reflexivity].
    + unfold substituteTitle. rewrite Hc. cbn [negb rbind]. apply IH.
Qed.

(* ================================================================= *)
(** ** Headings, sections and anchors *)

Lemma to_upper_twice (c : ascii) : to_upper (to_upper c) = to_upper c.
Proof. destruct c as [[] [] [] [] [] [] [] []]; reflexivity. Qed.

Lemma to_lower_twice (c : ascii) : to_lower (to_lower c) = to_lower c.
Proof. destruct c as [[] [] [] [] [] [] [] []]; reflexivity. Qed.

Lemma to_lower_no_upper (c : ascii) : no_upper (to_lower c) = true.
Proof. destruct c as [[] [] [] [] [] [] [] []]; reflexivity. Qed.

Lemma to_upper_not_lower (c : ascii) : is_lower (to_upper c) = false.
Proof. destruct c as [[] [] [] [] [] [] [] []]; reflexivity. Qed.

Lemma toLowerCase_twice (s : string) : toLowerCase (toLowerCase s) = toLowerCase s.
Proof.
  induction s as [|c s IH]; cbn [toLowerCase]; [reflexivity|].
  now rewrite to_lower_twice, IH.
Qed.

(** X4: on a string of ASCII characters, as the section keys are,
    [capitalizeString] keeps the length of its input; its result starts
    with no lower-case letter and holds no upper-case letter after the first
    character; capitalizing twice is capitalizing once. *)
Theorem capitalizeString_normalizes (str : string) :
  all_chars is_ascii str = true ->
  String.length (capitalizeString str) = String.length str
  /\ capitalizeString (capitalizeString str) = capitalizeString str
  /\ match capitalizeString str with
     | EmptyString => str = EmptyString
     | String c rest => is_lower c = false /\ all_chars no_upper rest = true
     end.
Proof.
  intros _. destruct str as [|c rest]; cbn [capitalizeString].
  - repeat split.
  - split; [|split; [|split]].
    + cbn [String.length]. f_equal.
      induction rest as [|d rest IH]; cbn [toLowerCase String.length]; congruence.
    + now rewrite to_upper_twice, toLowerCase_twice.
    + apply to_upper_not_lower.
    + induction rest as [|d rest IH]; cbn [toLowerCase all_chars]; [reflexivity|].
      now rewrite to_lower_no_upper, IH.
Qed.

Lemma capitalizeString_normalizes_witness :
  capitalizeString (capitalizeString "gettingStarted") = capitalizeString "gettingStarted".
Proof.
  apply (capitalizeString_normalizes "gettingStarted"). reflexivity.
Defined.

Lemma split_segments_have_no_slash (s : string) :
  Forall (fun seg => all_chars not_slash seg = true) (split "/" s).
Proof.
  induction s as [|c s IH]; cbn [split].
  - repeat constructor.
  - destruct (Ascii.eqb c "/") eqn:Hc.
    + constructor; [reflexivity | exact IH].
    + destruct (split "/" s) as [|h t]; [repeat constructor; cbn; unfold not_slash; now rewrite Hc|].
      inversion IH as [|? ? Hh Ht]; subst.
      constructor; [|exact Ht].
      cbn [all_chars]. unfold not_slash at 1. now rewrite Hc, Hh.
Qed.

(** X5: whatever the URL constructor does, the section [parseSection]
    returns is never the empty string and never holds a [/]. *)
Theorem parseSection_key_shape (env : Env) (uri section : string) :
  parseSection env uri = Ok section ->
  section <> EmptyString /\ all_chars not_slash section = true.
Proof.
  unfold parseSection.
  destruct (URL_pathname env uri) as [pathname|e]; cbn [rbind try_catch];
    [|intros H; injection H as <-; split; [discriminate | reflexivity]].
  pose proof (split_segments_have_no_slash pathname) as Hall.
  destruct (filter nonempty (split "/" pathname)) as [|seg more] eqn:E;
    intros H; injection H as <-; [split; [discriminate | reflexivity]|].
  assert (Hin : In seg (filter nonempty (split "/" pathname)))
    by (rewrite E; now left).
  apply filter_In in Hin as [Hin Hne].
  split.
  - intros ->. discriminate.
  - rewrite Forall_forall in Hall. now apply Hall.
Qed.

Lemma parseSection_key_shape_witness :
  "docs" <> EmptyString /\ all_chars not_slash "docs" = true.
Proof.
  apply (parseSection_key_shape Demo.site_env "https://x.test//docs//a" "docs").
  reflexivity.
Defined.

(** X6: [isRootUrl] holds exactly when the URL constructor accepts the
    input and gives it the path [/]; a URL for which it holds is in the
    section [ROOT]; an input the constructor rejects is not a root URL and
    yet is in [ROOT] too. *)
Theorem isRootUrl_is_in_ROOT (env : Env) (uri : string) :
  (isRootUrl env uri = true <-> URL_pathname env uri = Ok "/")
  /\ (isRootUrl env uri = true -> parseSection env uri = Ok "ROOT")
  /\ (forall e, URL_pathname env uri = Throw e ->
                isRootUrl env uri = false /\ parseSection env uri = Ok "ROOT").
Proof.
  unfold isRootUrl, parseSection.
  destruct (URL_pathname env uri) as [pathname|e]; cbn [rbind try_or try_catch].
  - split; [|split].
    + rewrite String.eqb_eq. split; [now intros -> | now intros [= ->]].
    + intros H. apply String.eqb_eq in H. subst pathname. reflexivity.
    + discriminate.
  - split; [|split].
    + split; discriminate.
    + discriminate.
    + intros _ _. split; reflexivity.
Qed.

Lemma isRootUrl_is_in_ROOT_witness :
  parseSection Demo.site_env "https://x.test/" = Ok "ROOT".
Proof.
  apply (proj1 (proj2 (isRootUrl_is_in_ROOT Demo.site_env "https://x.test/"))).
  reflexivity.
Defined.

Lemma dashes_chars (s : string) :
  forall in_run, all_chars anchor_char (dashes s in_run) = true.
Proof.
  induction s as [|c s IH]; intros in_run; cbn [dashes]; [reflexivity|].
  destruct (is_lower c || is_digit c) eqn:Hc.
  - cbn [all_chars]. unfold anchor_char at 1. now rewrite Hc, IH.
  - destruct in_run; [apply IH|]. cbn [all_chars]. now rewrite IH.
Qed.

Lemma kept_is_no_dash (c : ascii) :
  is_lower c || is_digit c = true -> Ascii.eqb c "-" = false.
Proof.
  destruct c as [[] [] [] [] [] [] [] []]; vm_compute; intros H;
    solve [reflexivity | discriminate].
Qed.

Lemma dashes_runs (s : string) :
  no_double_dash (dashes s false) = true
  /\ no_double_dash (dashes s true) = true
  /\ starts_with_dash (dashes s true) = false.
Proof.
  induction s as [|c s (IH1 & IH2 & IH3)]; cbn [dashes]; [repeat split|].
  destruct (is_lower c || is_digit c) eqn:Hc.
  - cbn [no_double_dash starts_with_dash].
    rewrite (kept_is_no_dash c Hc), IH1. repeat split.
  - cbn [no_double_dash starts_with_dash]. rewrite IH2, IH3. repeat split.
Qed.

(** X11: the anchor of a page of [genFull] holds only lower-case letters,
    digits and [-], and never two [-] in a row, whatever the title. *)
Theorem anchor_is_a_slug (title : string) :
  all_chars anchor_char (anchor_of title) = true
  /\ no_double_dash (anchor_of title) = true.
Proof.
  unfold anchor_of. split; [apply dashes_chars | apply dashes_runs].
Qed.

(* ================================================================= *)
(** ** Edge cases of the scheduler *)

Lemma run_batch_nil {A} (env : Env) (processor : processor_t A) (i : nat)
      (oracle : list nat) (s : store) (sc : sched) :
  run_batch env processor i [] oracle s sc = (Ok [], s, sc, oracle).
Proof. reflexivity. Qed.

(** X7: called with a concurrency of 0 on a list that is not empty,
    [processInBatches] never returns: its loop takes an empty batch and
    stays at the same index, whatever the number of iterations it is
    given, and it starts no pipeline.  [gen] and [genFull] never call it
    so: they replace a concurrency of 0, or one that is not a number, by
    5, and pass every other number on as it is, a negative one too. *)
Theorem zero_concurrency_never_returns {A} (env : Env) (processor : processor_t A)
        (items : list string) (oracle : list nat) (s : store) :
  items <> [] ->
  (forall fuel i results sc,
      i < List.length items ->
      batches env processor fuel items 0 i results oracle s sc = None)
  /\ processInBatches env processor items 0 oracle s = None
  /\ processInBatchesZ env processor items 0 oracle s = None
  /\ (forall o, opt_concurrency o = Some 0%Z \/ opt_concurrency o = None ->
                concurrency_of o = 5%Z)
  /\ (forall o c, opt_concurrency o = Some c -> c <> 0%Z ->
                  concurrency_of o = c).
Proof.
  intros Hne.
  assert (Hloop : forall fuel i results sc,
             i < List.length items ->
             batches env processor fuel items 0 i results oracle s sc = None).
  { induction fuel as [|fuel IH]; intros i results sc Hi; cbn [batches];
      [reflexivity|].
    apply Nat.ltb_lt in Hi as Hlt. rewrite Hlt.
    unfold slice. rewrite Nat.add_0_r, Nat.sub_diag. cbn [firstn].
    rewrite run_batch_nil. now apply IH. }
  assert (Hzero : processInBatches env processor items 0 oracle s = None).
  { unfold processInBatches. apply Hloop.
    destruct items; [contradiction | cbn; lia]. }
  split; [exact Hloop|]. split; [exact Hzero|]. split; [|split].
  - rewrite processInBatchesZ_nat by lia. exact Hzero.
  - intros o [H | H]; unfold concurrency_of; now rewrite H.
  - intros o c H Hc. unfold concurrency_of. rewrite H.
    destruct c; [contradiction | reflexivity | reflexivity].
Qed.

Lemma zero_concurrency_never_returns_witness :
  processInBatches Demo.site_env (processUrl Demo.site_env Demo.no_options 4)
                   (map fst Demo.site) 0 [] (empty_store EmptyString) = None.
Proof.
  apply (zero_concurrency_never_returns Demo.site_env
           (processUrl Demo.site_env Demo.no_options 4) (map fst Demo.site)).
  discriminate.
Defined.

(** X20: with a negative concurrency [-k] and a list of [n] items that is not
    empty, [processInBatches] starts at once the pipelines of the first
    [n - k] items ([items.slice(0, -k)]) and never those of the last [k];
    if one of the pipelines started throws, it throws, and otherwise it
    never returns, whatever the number of iterations it is given, its
    index being negative from then on and its batches empty.  So a run of [gen] with such a [--concurrency], on a sitemap
    that lists a page and with commands [substituteTitle] accepts, never
    returns and prints nothing; nor does a run of [genFull], when the
    converter does not fail either. *)
Theorem negative_concurrency_never_returns (env : Env) (o : options)
        (sitemapUrl : string) (oracle : list nat) (sm : sitemap_result) :
  sitemap_fetch env sitemapUrl = Ok sm ->
  sites sm <> [] ->
  (concurrency_of o < 0)%Z ->
  (forall A (processor : processor_t A) s fuel,
      batchesZ env processor (S fuel) (sites sm) (concurrency_of o) 0 []
               oracle s sched0
      = match run_batch env processor 0
                        (firstn (List.length (sites sm)
                                 - Z.to_nat (- concurrency_of o)) (sites sm))
                        oracle s sched0 with
        | (Ok _, _, _, _) => None
        | (Throw e, s', sc', _) => Some (Throw e, s', sc')
        end)
  /\ (forall A (processor : processor_t A) s,
         processInBatchesZ env processor (sites sm) (concurrency_of o) oracle s
         = match run_batch env processor 0
                           (firstn (List.length (sites sm)
                                    - Z.to_nat (- concurrency_of o)) (sites sm))
                           oracle s sched0 with
           | (Ok _, _, _, _) => None
           | (Throw e, s', sc', _) => Some (Throw e, s', sc')
           end)
  /\ (forall A (processor : processor_t A) fuel i results s sc,
         (i < 0)%Z ->
         batchesZ env processor fuel (sites sm) (concurrency_of o) i results
                  oracle s sc = None)
  /\ (commands_ok env o ->
      gen env o sitemapUrl oracle = None
      /\ (Forall (convertible env o) (sites sm) ->
          genFull env o sitemapUrl oracle = None)
      /\ (globs_compile env o ->
          gen_action env o sitemapUrl oracle = None
          /\ (Forall (convertible env o) (sites sm) ->
              genFull_action env o sitemapUrl oracle = None))).
Proof.
  intros Hs Hne Hc. split; [|split; [|split]].
  - intros A processor s fuel. now apply batchesZ_negative.
  - intros A processor s. now apply processInBatchesZ_negative.
  - intros A processor fuel i results s sc Hi. now apply batchesZ_below_zero.
  - intros Hok.
    assert (Hg : gen env o sitemapUrl oracle = None).
    { unfold gen. rewrite Hs, (processInBatchesZ_negative _ _ _ _ _ _ Hne Hc).
      destruct (run_batch_ok env (processUrl env o (List.length (sites sm)))
                  (page_of env o (List.length (sites sm)))
                  (fun _ _ => True) (fun _ => True)
                  (fun _ _ _ _ _ => Logic.I)
                  (fun item index done s0 _ =>
                     answers_accounts _ _ _
                       (processUrl_answers env o (List.length (sites sm)) Hok)
                       item index done s0)
                  0 (firstn (List.length (sites sm)
                             - Z.to_nat (- concurrency_of o)) (sites sm))
                  oracle (empty_store sitemapUrl) sched0 []
                  (Forall_all _) Logic.I)
        as (s' & sc' & oracle' & -> & _).
      reflexivity. }
    assert (Hf : Forall (convertible env o) (sites sm) ->
                 genFull env o sitemapUrl oracle = None).
    2:{ split; [exact Hg|]. split; [exact Hf|].
        intros Hgl. unfold gen_action, genFull_action.
        rewrite (compile_filter_ok env o Hgl), Hg. split; [reflexivity|].
        intros Ht. now rewrite (Hf Ht). }
    { intros Ht. unfold genFull.
      rewrite Hs, (processInBatchesZ_negative _ _ _ _ _ _ Hne Hc).
      destruct (run_batch_ok env
                  (processUrl_full env o (or_empty (urls sm))
                                   (List.length (sites sm)))
                  (full_of env o (or_empty (urls sm)) (List.length (sites sm)))
                  (fun done s => Permutation (accounted s) done)
                  (convertible env o)
                  (fun d d' s P H => Permutation_trans H P)
                  (processUrl_full_accounts env o _ _ Hok)
                  0 (firstn (List.length (sites sm)
                             - Z.to_nat (- concurrency_of o)) (sites sm))
                  oracle (empty_store sitemapUrl) sched0 []
                  (Forall_firstn_skipn _ (sites sm) 0 _ Ht)
                  (Permutation_refl _))
        as (s' & sc' & oracle' & -> & _).
      reflexivity. }
Qed.

Lemma negative_concurrency_never_returns_witness :
  gen Demo.site_env (with_concurrency Demo.no_options (Some (-1)%Z))
      Demo.sitemap [] = None
  /\ gen_action Demo.site_env (with_concurrency Demo.no_options (Some (-1)%Z))
                Demo.sitemap [] = None.
Proof.
  destruct (negative_concurrency_never_returns Demo.site_env
              (with_concurrency Demo.no_options (Some (-1)%Z))
              Demo.sitemap [] {| sites := map fst Demo.site; urls := None |})
    as (_ & _ & _ & H).
  - reflexivity.
  - discriminate.
  - reflexivity.
  - destruct H as (H1 & _ & H2); [constructor|].
    split; [exact H1|]. exact (proj1 (H2 (Forall_nil _))).
Defined.

(* ================================================================= *)
(** ** Runs without pages *)

Lemma assemble_nothing (o : options) : assemble o [] = default_document o.
Proof.
  unfold assemble, default_document. cbn [own_get delete filter for_in map].
  unfold enumeration_order. cbn [filter sort_indices app fold_left].
  now rewrite !js_or_twice.
Qed.

(** X8: when the globs of the options compile and the sitemap lists no
    URL, [gen] prints the document made of the title and the description of
    the options, or else [Documentation] and [Generated documentation],
    and [genFull] prints its title and an empty table of contents; neither
    reports an error nor starts a fetch, whatever the other options are,
    the concurrency included. *)
Theorem empty_sitemap_documents (env : Env) (o : options) (sitemapUrl : string)
        (oracle : list nat) (sm : sitemap_result) :
  globs_compile env o ->
  sitemap_fetch env sitemapUrl = Ok sm ->
  sites sm = [] ->
  gen_action env o sitemapUrl oracle
  = Some (Returned {| stdout := [default_document o]; stderr := [];
                      final_store := empty_store sitemapUrl;
                      final_sched := sched0 |})
  /\ genFull_action env o sitemapUrl oracle
     = Some (Returned {| stdout := [empty_full_document o]; stderr := [];
                         final_store := empty_store sitemapUrl;
                         final_sched := sched0 |}).
Proof.
  intros Hg Hs Hn. unfold gen_action, genFull_action, gen, genFull.
  rewrite (compile_filter_ok env o Hg), Hs, Hn.
  cbn [processInBatchesZ batchesZ List.length Z.of_nat Z.ltb Z.compare
       filter organize option_map].
  rewrite assemble_nothing. split; [reflexivity|].
  unfold assemble_full, empty_full_document, concat_map.
  cbn [pageInfos skipped empty_store fold_left].
  now rewrite !append_empty_r.
Qed.

Lemma empty_sitemap_documents_witness :
  gen_action (Demo.world Demo.sitemap [] [])
             (with_concurrency Demo.no_options (Some (-1)%Z)) Demo.sitemap []
  = Some (Returned {| stdout := [default_document Demo.no_options]; stderr := [];
                      final_store := empty_store Demo.sitemap;
                      final_sched := sched0 |}).
Proof.
  apply (empty_sitemap_documents (Demo.world Demo.sitemap [] [])
           (with_concurrency Demo.no_options (Some (-1)%Z))
           Demo.sitemap [] {| sites := []; urls := None |});
    [constructor | reflexivity | reflexivity].
Defined.

(** X9: when the sitemap cannot be fetched, [gen] reports the error and
    still prints the document of a run without pages, while [genFull]
    reports the error and prints nothing; neither starts a fetch. *)
Theorem failed_sitemap_documents (env : Env) (o : options) (sitemapUrl : string)
        (oracle : list nat) (e : error) :
  sitemap_fetch env sitemapUrl = Throw e ->
  gen env o sitemapUrl oracle
  = Some {| stdout := [default_document o]; stderr := [report e];
            final_store := empty_store sitemapUrl; final_sched := sched0 |}
  /\ genFull env o sitemapUrl oracle
     = Some {| stdout := []; stderr := [report e];
               final_store := empty_store sitemapUrl; final_sched := sched0 |}.
Proof.
  intros Hs. unfold gen, genFull. rewrite Hs, assemble_nothing.
  split; reflexivity.
Qed.

Lemma failed_sitemap_documents_witness :
  gen Demo.site_env Demo.no_options "https://y.test/sitemap.xml" []
  = Some {| stdout := [default_document Demo.no_options];
            stderr := [report (External "sitemap unreachable")];
            final_store := empty_store "https://y.test/sitemap.xml";
            final_sched := sched0 |}.
Proof.
  apply (failed_sitemap_documents Demo.site_env Demo.no_options
           "https://y.test/sitemap.xml" [] (External "sitemap unreachable")).
  reflexivity.
Defined.

(* ================================================================= *)
(** ** The document of gen and the scheduling *)

Lemma concurrency_not_negative (o : options) (c : option Z) :
  not_negative c -> (0 <= concurrency_of (with_concurrency o c))%Z.
Proof.
  intros H. unfold concurrency_of, with_concurrency. cbn [opt_concurrency].
  destruct c as [[|z|z]|]; try lia. apply (H _ eq_refl).
Qed.

Lemma gen_document_formula (env : Env) (o : options) (sitemapUrl : string)
      (sm : sitemap_result) (oracle : list nat) (c : option Z) :
  sitemap_fetch env sitemapUrl = Ok sm ->
  commands_ok env o ->
  not_negative c ->
  let results :=
    filter Boolean
           (mapi_from (page_of env o (List.length (sites sm))) 0 (sites sm)) in
  exists r,
    gen env (with_concurrency o c) sitemapUrl oracle = Some r
    /\ stdout r = [assemble o (fst (organize results []))]
    /\ stderr r = match snd (organize results []) with
                  | None => []
                  | Some e => [report e]
                  end.
Proof.
  intros Hs Hc Hn results. unfold gen. rewrite Hs.
  rewrite (processInBatchesZ_nat _ _ _ _ _ _ (concurrency_not_negative o c Hn)).
  destruct (processInBatches_accounts env
              (processUrl env (with_concurrency o c) (List.length (sites sm)))
              (page_of env o (List.length (sites sm)))
              (fun _ _ => True) (fun _ _ _ _ _ => Logic.I)
              (answers_accounts _ _ _
                 (processUrl_answers env o (List.length (sites sm)) Hc))
              (sites sm) (Z.to_nat (concurrency_of (with_concurrency o c))) oracle
              (empty_store sitemapUrl) []
              (concurrency_to_nat _ (concurrency_not_negative o c Hn)) Logic.I)
    as (s' & sc & -> & _).
  fold results.
  destruct (organize results []) as [sections [e|]]; eexists;
    (split; [reflexivity|]); split; reflexivity.
Qed.

(** X10: when the globs compile and every substitution command is one
    [substituteTitle] accepts, what [gen] prints and reports depends
    neither on the order in which the fetches complete nor on the
    concurrency, as long as the concurrency is not negative. *)
Theorem gen_document_ignores_scheduling (env : Env) (o : options)
        (sitemapUrl : string) (sm : sitemap_result)
        (oracle1 oracle2 : list nat) (c1 c2 : option Z) :
  sitemap_fetch env sitemapUrl = Ok sm ->
  globs_compile env o ->
  commands_ok env o ->
  not_negative c1 ->
  not_negative c2 ->
  exists r1 r2,
    gen_action env (with_concurrency o c1) sitemapUrl oracle1 = Some (Returned r1)
    /\ gen_action env (with_concurrency o c2) sitemapUrl oracle2 = Some (Returned r2)
    /\ stdout r1 = stdout r2
    /\ stderr r1 = stderr r2.
Proof.
  intros Hs Hg Hc Hn1 Hn2.
  destruct (gen_document_formula env o sitemapUrl sm oracle1 c1 Hs Hc Hn1)
    as (r1 & H1 & Ho1 & He1).
  destruct (gen_document_formula env o sitemapUrl sm oracle2 c2 Hs Hc Hn2)
    as (r2 & H2 & Ho2 & He2).
  exists r1, r2. unfold gen_action.
  rewrite (compile_filter_ok env (with_concurrency o c1) Hg).
  rewrite (compile_filter_ok env (with_concurrency o c2) Hg).
  rewrite H1, H2.
  split; [reflexivity|]. split; [reflexivity|].
  split; congruence.
Qed.

Lemma gen_document_ignores_scheduling_witness :
  exists r1 r2,
    gen_action Demo.site_env (with_concurrency Demo.no_options (Some 1%Z))
               Demo.sitemap []
    = Some (Returned r1)
    /\ gen_action Demo.site_env (with_concurrency Demo.no_options (Some 4%Z))
                  Demo.sitemap [3; 1; 1]
       = Some (Returned r2)
    /\ stdout r1 = stdout r2
    /\ stderr r1 = stderr r2.
Proof.
  apply (gen_document_ignores_scheduling Demo.site_env Demo.no_options
           Demo.sitemap {| sites := map fst Demo.site; urls := None |}).
  - reflexivity.
  - constructor.
  - constructor.
  - intros z [= <-]. lia.
  - intros z [= <-]. lia.
Defined.

(* ================================================================= *)
(** ** Sections with the name of an inherited property *)

Lemma organize_plain_prefix (before : list (option PageResult)) :
  forall rest pre,
    plain_sections before ->
    organize (before ++ rest) (grouped pre)
    = organize rest (grouped (pre ++ pages_of before)).
Proof.
  induction before as [|[p|] before IH]; intros rest pre Hp;
    cbn [app organize pages_of].
  - now rewrite app_nil_r.
  - change {| line_title := pr_title p; line_url := pr_url p;
              line_description := pr_description p |} with (line_of p).
    rewrite add_line_grouped by (apply Hp; now left).
    rewrite IH.
    + now rewrite <- app_assoc.
    + intros q Hq. apply Hp. now right.
  - apply IH. exact Hp.
Qed.

(** X12: the first page whose section has the name of a property every
    object inherits (such as [constructor]) ends the grouping with a
    [TypeError]: the document holds the pages before it and none of the
    pages after it. *)
Theorem inherited_section_ends_the_grouping (o : options)
        (before after : list (option PageResult)) (p : PageResult) :
  plain_sections before ->
  inherited (pr_section p) = true ->
  organize (before ++ Some p :: after) []
  = (grouped (pages_of before),
     Some (TypeError "sections[section].push is not a function"))
  /\ assemble o (fst (organize (before ++ Some p :: after) []))
     = document enumeration_order o (pages_of before).
Proof.
  intros Hp Hi.
  assert (H : organize (before ++ Some p :: after) []
              = (grouped (pages_of before),
                 Some (TypeError "sections[section].push is not a function"))).
  { change (organize (before ++ Some p :: after) [])
      with (organize (before ++ Some p :: after) (grouped [])).
    rewrite (organize_plain_prefix before (Some p :: after) [] Hp).
    cbn [app organize]. unfold add_line.
    unfold grouped at 1. rewrite own_get_map.
    destruct (existsb (String.eqb (pr_section p))
                      (first_seen (map pr_section (pages_of before)))) eqn:E.
    - apply existsb_eqb_in, first_seen_in, in_map_iff in E as (q & Eq & Hq).
      specialize (Hp q Hq). congruence.
    - now rewrite Hi. }
  split; [exact H|]. rewrite H. apply assemble_grouped.
Qed.

Lemma inherited_section_ends_the_grouping_witness :
  organize
    ([Some {| pr_title := "A"; pr_url := "https://x.test/docs/a";
              pr_description := Undefined; pr_section := "docs" |}]
       ++ Some {| pr_title := "K"; pr_url := "https://x.test/toString/k";
                  pr_description := Undefined; pr_section := "toString" |}
       :: [Some {| pr_title := "C"; pr_url := "https://x.test/blog/c";
                   pr_description := Undefined; pr_section := "blog" |}])
    []
  = (grouped [{| pr_title := "A"; pr_url := "https://x.test/docs/a";
                 pr_description := Undefined; pr_section := "docs" |}],
     Some (TypeError "sections[section].push is not a function")).
Proof.
  apply (inherited_section_ends_the_grouping Demo.no_options
           [Some {| pr_title := "A"; pr_url := "https://x.test/docs/a";
                    pr_description := Undefined; pr_section := "docs" |}]
           [Some {| pr_title := "C"; pr_url := "https://x.test/blog/c";
                    pr_description := Undefined; pr_section := "blog" |}]
           {| pr_title := "K"; pr_url := "https://x.test/toString/k";
              pr_description := Undefined; pr_section := "toString" |}).
  - intros q [<- | []]. reflexivity.
  - reflexivity.
Defined.

(* ================================================================= *)
(** ** Why a URL is skipped, and what a page holds *)

(** X13: the reason [genFull] gives for a skip.  A URL that a pattern of
    exclusion matches is [excluded], whatever the patterns of inclusion;
    it is [not included] exactly when no pattern of exclusion matches it,
    there are patterns of inclusion and none matches it; a response with an
    empty body is a [fetch failed]; and a document the HTML library rejects,
    or whose title is empty once trimmed, is a [no title]. *)
Theorem skip_reasons (env : Env) (o : options) (entries : list (jsstr * jsstr))
        (url : string) (s : store) :
  let ex := or_empty (excludePath o) in
  let inc := or_empty (includePath o) in
  (isExcluded env ex url = true -> filtered env ex inc url = Some excluded)
  /\ (filtered env ex inc url = Some not_included <->
      isExcluded env ex url = false /\ inc <> []
      /\ isIncluded env ex inc url = false)
  /\ (request env url = Ok EmptyString ->
      after_fetch_full env o entries url (fetchHtml env url) s
      = apply_verdict url (Skip fetch_failed) s)
  /\ (forall html,
         request env url = Ok html ->
         html <> EmptyString ->
         (forall d, cheerio_load env html = Ok d ->
                    trim (dom_text env d "head > title") = EmptyString) ->
         after_fetch_full env o entries url (fetchHtml env url) s
         = apply_verdict url (Skip no_title) s).
Proof.
  intros ex inc. split; [|split; [|split]].
  - intros H. unfold filtered. now rewrite H.
  - unfold filtered. destruct (isExcluded env ex url).
    + split; [discriminate | intros [H _]; discriminate].
    + destruct inc as [|p0 inc'] eqn:Einc.
      * cbn. split; [discriminate | intros (_ & H & _); now elim H].
      * rewrite <- Einc.
        replace (0 <? List.length inc) with true by (rewrite Einc; reflexivity).
        cbn [andb]. destruct (isIncluded env ex inc url); cbn [negb].
        -- split; [discriminate | intros (_ & _ & H); discriminate].
        -- split; intros _; [|reflexivity].
           split; [reflexivity|]. split; [rewrite Einc; discriminate | reflexivity].
  - intros H. unfold fetchHtml. rewrite H. reflexivity.
  - intros html Hr Hne Ht. unfold fetchHtml. rewrite Hr. cbn [rbind try_or].
    unfold after_fetch_full.
    replace (negb (truthy (Str html))) with false
      by (cbn [truthy]; destruct html; [now elim Hne | reflexivity]).
    unfold getTitle.
    destruct (cheerio_load env html) as [d|e] eqn:Hl; cbn [rbind try_or];
      [|reflexivity].
    rewrite (Ht d eq_refl). reflexivity.
Qed.

Lemma skip_reasons_witness :
  filtered Demo.site_env ["https://x.test/blog/c"] ["https://x.test/blog/*"]
           "https://x.test/blog/c" = Some excluded.
Proof.
  apply (proj1 (skip_reasons Demo.site_env
                  {| excludePath := Some ["https://x.test/blog/c"];
                     includePath := Some ["https://x.test/blog/*"];
                     replaceTitle := None; opt_title := Undefined;
                     opt_description := Undefined; opt_concurrency := None |}
                  [] "https://x.test/blog/c" (empty_store EmptyString))).
  reflexivity.
Defined.

Lemma cleanTitle_edges (title : string) :
  starts_with_space (cleanTitle title) = false
  /\ ends_with_space (cleanTitle title) = false.
Proof.
  destruct (cleanTitle_cleaned title) as (bar & lead & trail & _ & _ & _ & _ & H1 & H2).
  now split.
Qed.

(** X14: a page of [gen] carries the URL it was made for, the section
    [parseSection] gives to that URL, the description [getDescription]
    reads in the body that was fetched, and a title without white space at
    its ends; the body was not empty; and making the page left the store as
    it was. *)
Theorem page_is_well_formed (env : Env) (o : options) (url : string)
        (html : jsstr) (s s' : store) (p : PageResult) :
  after_fetch env o url html s = (Ok (Some p), s') ->
  s' = s
  /\ pr_url p = url
  /\ parseSection env url = Ok (pr_section p)
  /\ starts_with_space (pr_title p) = false
  /\ ends_with_space (pr_title p) = false
  /\ exists body,
       html = Str body /\ body <> EmptyString
       /\ pr_description p = getDescription env body.
Proof.
  unfold after_fetch, bind, lift, ret. intros H.
  destruct html as [| |body]; try discriminate.
  destruct (negb (truthy (Str body))) eqn:Hb; [discriminate|].
  destruct (getTitle env body) as [| |raw]; try discriminate.
  destruct (negb (truthy (Str raw))); [discriminate|].
  destruct (rewriteTitle env (or_empty (replaceTitle o)) raw) as [title|e];
    [|discriminate].
  destruct (parseSection env url) as [section|e] eqn:Hsec; [|discriminate].
  injection H as <- <-. cbn [pr_url pr_section pr_title pr_description].
  destruct (cleanTitle_edges title) as [H1 H2].
  repeat split; try assumption.
  exists body. repeat split.
  intros ->. discriminate.
Qed.

Lemma page_is_well_formed_witness :
  pr_url {| pr_title := "Home"; pr_url := "https://x.test/";
            pr_description := Undefined; pr_section := "ROOT" |}
  = "https://x.test/".
Proof.
  apply (page_is_well_formed Demo.site_env Demo.no_options "https://x.test/"
           (Str (Demo.page "  Home ")) (empty_store EmptyString)
           (empty_store EmptyString)).
  reflexivity.
Defined.

(** X15: in [genFull] the pipeline of a URL that returns [true] has added
    exactly one entry to [pageInfos] and none to [skipped]; the entry
    carries the URL, a title without white space at its ends and the anchor
    made from that title; a pipeline that returns [null] has added exactly
    one skip of its URL and no page. *)
Theorem full_page_is_well_formed (env : Env) (o : options)
        (entries : list (jsstr * jsstr)) (url : string) (html : jsstr)
        (s s' : store) (v : option unit) :
  after_fetch_full env o entries url html s = (Ok v, s') ->
  match v with
  | Some _ =>
      exists p,
        pageInfos s' = pageInfos s ++ [p]
        /\ skipped s' = skipped s
        /\ pi_url p = url
        /\ pi_anchor p = anchor_of (pi_title p)
        /\ starts_with_space (pi_title p) = false
        /\ ends_with_space (pi_title p) = false
  | None =>
      exists r,
        skipped s' = skipped s ++ [{| skip_url := url; skip_reason := r |}]
        /\ pageInfos s' = pageInfos s
        /\ (r = fetch_failed \/ r = no_title)
  end.
Proof.
  unfold after_fetch_full, skip, bind, lift, ret, push_skipped, push_pageInfos.
  intros H.
  destruct html as [| |body];
    try (injection H as <- <-; exists fetch_failed; repeat split; now left).
  destruct (negb (truthy (Str body)));
    [injection H as <- <-; exists fetch_failed; repeat split; now left|].
  destruct (getTitle env body) as [| |raw];
    try (injection H as <- <-; exists no_title; repeat split; now right).
  destruct (negb (truthy (Str raw)));
    [injection H as <- <-; exists no_title; repeat split; now right|].
  destruct (rewriteTitle env (or_empty (replaceTitle o)) raw) as [title|e];
    [|discriminate].
  destruct (cheerio_load env body) as [d|e]; [|discriminate].
  destruct (turndown env (main_html env d body)) as [markdown|e]; [|discriminate].
  injection H as <- <-.
  destruct (cleanTitle_edges title) as [H1 H2].
  eexists. cbn [pageInfos skipped]. split; [reflexivity|].
  cbn [pi_url pi_anchor pi_title]. repeat split; assumption.
Qed.

Lemma full_page_is_well_formed_witness :
  exists p,
    pageInfos (snd (after_fetch_full Demo.calm_env Demo.no_options []
                      "https://x.test/" (Str (Demo.page "| Home"))
                      (empty_store EmptyString)))
    = pageInfos (empty_store EmptyString) ++ [p]
    /\ skipped (snd (after_fetch_full Demo.calm_env Demo.no_options []
                       "https://x.test/" (Str (Demo.page "| Home"))
                       (empty_store EmptyString)))
       = skipped (empty_store EmptyString)
    /\ pi_url p = "https://x.test/"
    /\ pi_anchor p = anchor_of (pi_title p)
    /\ starts_with_space (pi_title p) = false
    /\ ends_with_space (pi_title p) = false.
Proof.
  apply (full_page_is_well_formed Demo.calm_env Demo.no_options []
           "https://x.test/" (Str (Demo.page "| Home"))
           (empty_store EmptyString) _ (Some tt)).
  reflexivity.
Defined.

(* ================================================================= *)
(** ** One block for each section *)

Lemma insert_index_perm (k : string) (l : list string) :
  Permutation (insert_index k l) (k :: l).
Proof.
  induction l as [|a l IH]; cbn [insert_index]; [reflexivity|].
  destruct (number_of k 0 <=? number_of a 0)%N; [reflexivity|].
  rewrite IH. apply perm_swap.
Qed.

Lemma sort_indices_perm (l : list string) : Permutation (sort_indices l) l.
Proof.
  induction l as [|a l IH]; cbn [sort_indices]; [reflexivity|].
  rewrite insert_index_perm. now constructor.
Qed.

Lemma filter_partition_perm {X} (p : X -> bool) (l : list X) :
  Permutation (filter p l ++ filter (fun x => negb (p x)) l) l.
Proof.
  induction l as [|x l IH]; cbn [filter]; [reflexivity|].
  destruct (p x); cbn [negb app].
  - now constructor.
  - rewrite <- Permutation_middle. now constructor.
Qed.

Lemma enumeration_order_perm (keys : list string) :
  Permutation (enumeration_order keys) keys.
Proof.
  unfold enumeration_order. rewrite sort_indices_perm.
  apply filter_partition_perm.
Qed.

(** The grouping loop builds the sections of the pages it reaches. *)
Lemma organize_pages_grouped (results : list (option PageResult)) :
  forall pre,
    (forall q, In q pre -> inherited (pr_section q) = false) ->
    fst (organize results (grouped pre)) = grouped (pre ++ pages_grouped results).
Proof.
  induction results as [|[p|] rest IH]; intros pre Hpre;
    cbn [organize pages_grouped].
  - now rewrite app_nil_r.
  - change {| line_title := pr_title p; line_url := pr_url p;
              line_description := pr_description p |} with (line_of p).
    destruct (inherited (pr_section p)) eqn:Hi.
    + unfold add_line. unfold grouped at 1. rewrite own_get_map.
      destruct (existsb (String.eqb (pr_section p))
                        (first_seen (map pr_section pre))) eqn:E.
      * apply existsb_eqb_in, first_seen_in, in_map_iff in E as (q & Eq & Hq).
        specialize (Hpre q Hq). congruence.
      * rewrite Hi. cbn [fst]. now rewrite app_nil_r.
    + rewrite add_line_grouped by exact Hi.
      rewrite IH.
      * now rewrite <- app_assoc.
      * intros q Hq. apply in_app_or in Hq as [Hq | [<- | []]];
          [now apply Hpre | exact Hi].
  - now apply IH.
Qed.

Lemma pages_grouped_plain (results : list (option PageResult)) :
  plain_sections results -> pages_grouped results = pages_of results.
Proof.
  induction results as [|[p|] rest IH]; intros Hp; cbn [pages_grouped pages_of].
  - reflexivity.
  - rewrite (Hp p) by now left. f_equal. apply IH.
    intros q Hq. apply Hp. now right.
  - now apply IH.
Qed.

(** X16: the loop over the sections visits exactly once every section the
    grouping loop has created, [ROOT] apart: the headings of the document
    are a permutation, without repetition, of the distinct sections of the
    pages the grouping loop reached, which are the pages before the first
    one whose section has the name of an inherited property; when there is
    no such page these are all the pages, and every page outside [ROOT] has
    the heading of its section. *)
Theorem every_section_has_one_block (results : list (option PageResult)) :
  let headings := for_in (delete "ROOT" (fst (organize results []))) in
  NoDup headings
  /\ Permutation headings (sections_of (pages_grouped results))
  /\ (plain_sections results ->
      pages_grouped results = pages_of results
      /\ forall p, In p (pages_of results) -> pr_section p <> "ROOT" ->
                   In (pr_section p) headings).
Proof.
  intros headings.
  assert (E : headings = enumeration_order (sections_of (pages_grouped results))).
  { unfold headings.
    change (organize results []) with (organize results (grouped [])).
    rewrite (organize_pages_grouped results []) by (intros q []).
    cbn [app]. unfold for_in, grouped. rewrite delete_grouped.
    fold (sections_of (pages_grouped results)).
    rewrite map_map. cbn [fst]. now rewrite map_id. }
  rewrite E. split; [|split].
  - apply (Permutation_NoDup (Permutation_sym (enumeration_order_perm _))).
    unfold sections_of. apply NoDup_filter, first_seen_nodup.
  - apply enumeration_order_perm.
  - intros Hp. rewrite (pages_grouped_plain results Hp).
    split; [reflexivity|].
    intros p Hin Hne. apply enumeration_order_in, sections_of_in.
    split; [exact Hne|]. now exists p.
Qed.

Lemma every_section_has_one_block_witness :
  In "docs"
     (for_in (delete "ROOT"
                (fst (organize
                        [Some {| pr_title := "A"; pr_url := "https://x.test/docs/a";
                                 pr_description := Undefined;
                                 pr_section := "docs" |}] [])))).
Proof.
  apply (proj2 (proj2 (proj2 (every_section_has_one_block
                         [Some {| pr_title := "A"; pr_url := "https://x.test/docs/a";
                                  pr_description := Undefined;
                                  pr_section := "docs" |}]))
                      ltac:(intros p [<- | []]; reflexivity))
               {| pr_title := "A"; pr_url := "https://x.test/docs/a";
                  pr_description := Undefined; pr_section := "docs" |}).
  - now left.
  - discriminate.
Defined.

(* ================================================================= *)
(** ** Both modes return, or throw before their [try] *)



(* ================================================================= *)
(** ** A run with one pipeline at a time *)

Lemma run_batch_single {A} (env : Env) (processor : processor_t A) (i : nat)
      (item : string) (oracle : list nat) (s : store) (sc : sched) :
  run_batch env processor i [item] oracle s sc =
  match processor item (i + 0) s with
  | (Ok (Settled v), s1) => (Ok [v], s1, count_processed sc, oracle)
  | (Ok (Fetching u k), s1) =>
      match k (fetchHtml env u) s1 with
      | (Ok v, s2) =>
          (Ok [v], s2,
           count_processed (observe (FetchEnd (i + 0))
                                    (observe (FetchStart (i + 0)) sc)),
           tl oracle)
      | (Throw e, s2) =>
          (Throw e, s2,
           observe (FetchEnd (i + 0)) (observe (FetchStart (i + 0)) sc),
           tl oracle)
      end
  | (Throw e, s1) => (Throw e, s1, sc, oracle)
  end.
Proof.
  unfold run_batch. cbn [launch List.length repeat].
  destruct (processor item (i + 0) s) as [[[v | u k] | e] s1];
    cbn [rejected waiting values List.length app settle].
  - reflexivity.
  - rewrite Nat.mod_1_r. cbn [nth firstn skipn app p_k p_url p_index p_pos].
    destruct (k (fetchHtml env u) s1) as [[v | e] s2]; reflexivity.
  - reflexivity.
Qed.

Lemma slice_one (items : list string) (i : nat) (item : string) (rest : list string) :
  skipn i items = item :: rest -> slice items i (i + 1) = [item].
Proof.
  intros H. unfold slice. replace (i + 1 - i) with 1 by lia. now rewrite H.
Qed.

Section OneAtATime.
Context {A : Type}.
Variable env : Env.
Variable processor : processor_t A.
Variable f : string -> nat -> option A.
Variable acc : list string -> store -> Prop.
Variable D : string -> Prop.
Hypothesis Hstep : accounts_on env D processor f acc.

(** With a concurrency of 1 the items are accounted for in their order:
    the list of the items done is built by adding each item in front. *)
Lemma batches_one_at_a_time (fuel : nat) :
  forall items i results oracle s sc done0,
    Forall D items ->
    List.length items - i < fuel ->
    results = mapi_from f 0 (firstn i items) ->
    acc (rev (firstn i items) ++ done0) s ->
    exists s' sc',
      batches env processor fuel items 1 i results oracle s sc
      = Some (Ok (filter Boolean (mapi_from f 0 items)), s', sc')
      /\ acc (rev items ++ done0) s'.
Proof.
  induction fuel as [|fuel IH];
    intros items i results oracle s sc done0 HD Hfuel Hres Hacc; [lia|].
  cbn [batches].
  destruct (i <? List.length items) eqn:Hi.
  - apply Nat.ltb_lt in Hi.
    destruct (skipn i items) as [|item rest] eqn:Hskip.
    { apply skipn_all_iff in Hskip. lia. }
    destruct (skipn_cons_inv _ _ _ _ Hskip) as (Hnth & _ & Hfirst & _).
    rewrite (slice_one _ _ _ _ Hskip), run_batch_single.
    assert (Hitem : D item).
    { apply (proj1 (Forall_forall D items) HD). apply (nth_error_In _ _ Hnth). }
    pose proof (Hstep item (i + 0) _ s Hitem Hacc) as Hs.
    assert (Hres' : forall v,
               v = f item (i + 0) ->
               results ++ [v] = mapi_from f 0 (firstn (i + 1) items)).
    { intros v ->. rewrite Nat.add_1_r, Hfirst, mapi_from_app, Hres.
      rewrite length_firstn, Nat.min_l by lia. cbn [mapi_from].
      now rewrite Nat.add_0_r. }
    assert (Hrev : rev (firstn (i + 1) items) ++ done0
                   = item :: rev (firstn i items) ++ done0).
    { rewrite Nat.add_1_r, Hfirst, rev_app_distr. reflexivity. }
    destruct (processor item (i + 0) s) as [[[v | u k] | e] s1]; [| |contradiction].
    + destruct Hs as [Hv Hacc1].
      apply IH; [exact HD | lia | now apply Hres' | now rewrite Hrev].
    + destruct Hs as [Hacc1 Hk].
      destruct (Hk _ s1 Hacc1) as (s2 & -> & Hacc2).
      apply IH; [exact HD | lia | now apply Hres' | now rewrite Hrev].
  - apply Nat.ltb_ge in Hi. rewrite firstn_all2 in Hres, Hacc by assumption.
    exists s, sc. subst results. split; [reflexivity | assumption].
Qed.

End OneAtATime.

Lemma full_of_index_free (env : Env) (o : options) (entries : list (jsstr * jsstr))
      (total : nat) (url : string) (i j : nat) :
  full_of env o entries total url i = full_of env o entries total url j.
Proof.
  unfold full_of, alone. rewrite !processUrl_full_launch.
  destruct (filtered env _ _ url); [reflexivity|].
  destruct (after_fetch_full_verdict env o entries url (fetchHtml env url))
    as (v & Hv & _).
  now rewrite !Hv; destruct v.
Qed.

Lemma processUrl_full_in_order (env : Env) (o : options)
      (entries : list (jsstr * jsstr)) (total : nat) :
  commands_ok env o ->
  accounts_on env (convertible env o) (processUrl_full env o entries total)
              (full_of env o entries total)
              (fun done s =>
                 map pi_url (pageInfos s)
                 = rev (filter (is_page env o entries total) done)
                 /\ map skip_url (skipped s)
                    = rev (filter (fun u => negb (is_page env o entries total u)) done)).
Proof.
  intros Hc item index done s Ht [Hp Hk].
  assert (Hf : full_of env o entries total item index
               = value_of (alone env (processUrl_full env o entries total)
                                 (empty_store EmptyString) item index))
    by reflexivity.
  assert (Hpage : is_page env o entries total item
                  = Boolean (full_of env o entries total item index)).
  { unfold is_page. f_equal. apply full_of_index_free. }
  unfold alone in Hf. rewrite processUrl_full_launch in Hf.
  rewrite processUrl_full_launch. unfold convertible in Ht.
  destruct (filtered env _ _ item) as [r|].
  - cbn [value_of] in Hf. rewrite Hf in Hpage. cbn [Boolean] in Hpage.
    split; [now rewrite Hf|]. cbn [pageInfos skipped filter].
    rewrite Hpage. cbn [negb rev]. rewrite map_app, Hk. split; [exact Hp | reflexivity].
  - split; [split; assumption|].
    destruct (after_fetch_full_verdict env o entries item (fetchHtml env item))
      as (v & Hv & Hurl & Hok).
    rewrite Hv in Hf.
    intros d s1 [Hp1 Hk1]. rewrite Hv.
    destruct v as [r | p | e]; cbn [apply_verdict fst value_of] in *.
    + rewrite Hf in Hpage. cbn [Boolean] in Hpage.
      eexists. split; [now rewrite Hf|]. cbn [pageInfos skipped filter].
      rewrite Hpage. cbn [negb rev]. rewrite map_app, Hk1.
      split; [exact Hp1 | reflexivity].
    + rewrite Hf in Hpage. cbn [Boolean] in Hpage.
      eexists. split; [now rewrite Hf|]. cbn [pageInfos skipped filter].
      rewrite Hpage. cbn [negb rev]. rewrite map_app. cbn [map].
      rewrite Hp1, (Hurl p eq_refl).
      split; [reflexivity | exact Hk1].
    + now elim (Hok Hc (fun h d Hh Hd =>
                          Ht eq_refl h d (fetchHtml_Str env item h Hh) Hd) e).
Qed.

(** X18: with [--concurrency 1], when the globs compile and no pipeline
    throws (every substitution command is one [substituteTitle] accepts and
    the converter does not fail on the pages of the sitemap that pass the
    filter), [genFull]
    lists the pages in the order of the sitemap and the skips in the order
    of the sitemap too: the URLs of [pageInfos] are the URLs of the sitemap
    that get a page, in their order, and those of [skipped] are the others,
    in their order. *)
Theorem one_at_a_time_keeps_the_order (env : Env) (o : options)
        (sitemapUrl : string) (oracle : list nat) (sm : sitemap_result) :
  sitemap_fetch env sitemapUrl = Ok sm ->
  globs_compile env o ->
  commands_ok env o ->
  Forall (convertible env o) (sites sm) ->
  let page := is_page env o (or_empty (urls sm)) (List.length (sites sm)) in
  exists r,
    genFull_action env (with_concurrency o (Some 1%Z)) sitemapUrl oracle
    = Some (Returned r)
    /\ stderr r = []
    /\ map pi_url (pageInfos (final_store r)) = filter page (sites sm)
    /\ map skip_url (skipped (final_store r))
       = filter (fun u => negb (page u)) (sites sm).
Proof.
  intros Hs Hg Hc Ht page. unfold genFull_action, genFull.
  rewrite (compile_filter_ok env (with_concurrency o (Some 1%Z)) Hg), Hs.
  change (concurrency_of (with_concurrency o (Some 1%Z))) with 1%Z.
  rewrite processInBatchesZ_nat by lia.
  change (Z.to_nat 1) with 1.
  unfold processInBatches.
  destruct (batches_one_at_a_time env
              (processUrl_full env (with_concurrency o (Some 1%Z))
                               (or_empty (urls sm)) (List.length (sites sm)))
              (full_of env o (or_empty (urls sm)) (List.length (sites sm)))
              _ (convertible env o) (processUrl_full_in_order env o _ _ Hc)
              (S (List.length (sites sm))) (sites sm) 0 [] oracle
              (empty_store sitemapUrl) sched0 [] Ht ltac:(lia) eq_refl
              (conj eq_refl eq_refl))
    as (s' & sc & -> & Hp & Hk).
  rewrite app_nil_r in Hp, Hk.
  rewrite <- filter_rev, rev_involutive in Hp, Hk.
  eexists. split; [reflexivity|]. cbn [stderr final_store].
  split; [reflexivity|]. split; assumption.
Qed.

Lemma one_at_a_time_keeps_the_order_witness :
  exists r,
    genFull_action Demo.site_env
            (with_concurrency
               {| excludePath := Some ["https://x.test/docs/a"];
                  includePath := None; replaceTitle := None;
                  opt_title := Undefined; opt_description := Undefined;
                  opt_concurrency := None |} (Some 1%Z))
            Demo.sitemap [3; 2] = Some (Returned r)
    /\ stderr r = []
    /\ map pi_url (pageInfos (final_store r))
       = ["https://x.test/"; "https://x.test/docs/b"; "https://x.test/blog/c"]
    /\ map skip_url (skipped (final_store r)) = ["https://x.test/docs/a"].
Proof.
  apply (one_at_a_time_keeps_the_order Demo.site_env
           {| excludePath := Some ["https://x.test/docs/a"];
              includePath := None; replaceTitle := None;
              opt_title := Undefined; opt_description := Undefined;
              opt_concurrency := None |}
           Demo.sitemap [3; 2] {| sites := map fst Demo.site; urls := None |}).
  - reflexivity.
  - repeat constructor.
  - constructor.
  - repeat constructor; intros _ html d Hr Hl; vm_compute in Hr;
      injection Hr as <-; vm_compute in Hl; injection Hl as <-;
      eexists; vm_compute; reflexivity.
Defined.

(** With more than one pipeline at a time the order of the pages is the
    order in which the fetches complete. *)
Example completion_order_is_page_order :
  exists r,
    genFull Demo.site_env (with_concurrency Demo.no_options (Some 4%Z))
            Demo.sitemap [3; 0] = Some r
    /\ map pi_url (pageInfos (final_store r))
       = ["https://x.test/blog/c"; "https://x.test/";
          "https://x.test/docs/a"; "https://x.test/docs/b"].
Proof. eexists. split; reflexivity. Qed.

(* ================================================================= *)
(** ** No URL is fetched twice *)

Lemma started_of_app (a b : list event) :
  started_of (a ++ b) = started_of a ++ started_of b.
Proof. induction a as [|[x|x] a IH]; cbn; [reflexivity | now rewrite IH | exact IH]. Qed.

Lemma ended_of_app (a b : list event) :
  ended_of (a ++ b) = ended_of a ++ ended_of b.
Proof. induction a as [|[x|x] a IH]; cbn; [reflexivity | exact IH | now rewrite IH]. Qed.

Lemma started_of_starts (l : list nat) : started_of (map FetchStart l) = l.
Proof. induction l; cbn; congruence. Qed.

Lemma started_of_ends (l : list nat) : started_of (map FetchEnd l) = [].
Proof. induction l; cbn; congruence. Qed.

Lemma ended_of_starts (l : list nat) : ended_of (map FetchStart l) = [].
Proof. induction l; cbn; congruence. Qed.

Lemma ended_of_ends (l : list nat) : ended_of (map FetchEnd l) = l.
Proof. induction l; cbn; congruence. Qed.

Lemma chunked_fetches (c n : nat) (finished : bool) (i : nat) (t : list event) :
  chunked c n finished i t ->
  NoDup (started_of t)
  /\ (forall x, In x (started_of t) -> i <= x < n)
  /\ NoDup (ended_of t)
  /\ incl (ended_of t) (started_of t)
  /\ (finished = true -> Permutation (ended_of t) (started_of t)).
Proof.
  induction 1 as [i Hi
                 | finished i started ended rest Hi Hin Hnd Hperm _ IH
                 | i started ended pending Hi Hin Hnd Hperm].
  - cbn [started_of ended_of].
    split; [constructor|]. split; [intros x []|]. split; [constructor|].
    split; [intros x []|]. intros _. constructor.
  - destruct IH as (IH1 & IH2 & IH3 & IH4 & IH5).
    rewrite !started_of_app, !ended_of_app, started_of_starts, started_of_ends,
      ended_of_starts, ended_of_ends. cbn [app].
    assert (Hdisj : forall x, In x started -> ~ In x (started_of rest)).
    { intros x Hx Hr. specialize (Hin x Hx). specialize (IH2 x Hr). lia. }
    split; [|split; [|split; [|split]]].
    + apply NoDup_app; try assumption. 
    + intros x Hx. apply in_app_or in Hx as [Hx | Hx].
      * specialize (Hin x Hx). lia.
      * specialize (IH2 x Hx). lia.
    + apply NoDup_app; try assumption.
      * apply (Permutation_NoDup (Permutation_sym Hperm) Hnd).
      * intros x Hx Hr. apply (Hdisj x).
        -- apply (Permutation_in x Hperm Hx).
        -- now apply IH4.
    + intros x Hx. apply in_or_app. apply in_app_or in Hx as [Hx | Hx].
      * left. apply (Permutation_in x Hperm Hx).
      * right. now apply IH4.
    + intros Hf. apply Permutation_app; [exact Hperm | now apply IH5].
  - rewrite !started_of_app, !ended_of_app, started_of_starts, started_of_ends,
      ended_of_starts, ended_of_ends, app_nil_r. cbn [app].
    assert (Hnd' : NoDup (ended ++ pending))
      by apply (Permutation_NoDup (Permutation_sym Hperm) Hnd).
    split; [exact Hnd|]. split; [|split; [|split]].
    + intros x Hx. specialize (Hin x Hx). lia.
    + now apply NoDup_app_remove_r in Hnd'.
    + intros x Hx. apply (Permutation_in x Hperm). apply in_or_app. now left.
    + discriminate.
Qed.

(** X19: in a run of [processInBatches] with a concurrency of at least 1,
    whatever the processor and the order of completion, no item is fetched
    twice, every fetch is the fetch of an item of the list, a fetch
    completes at most once and only after it started, and when the run
    returns a result every fetch that started has completed. *)
Theorem no_item_is_fetched_twice {A} (env : Env) (processor : processor_t A)
        (items : list string) (c : nat) (oracle : list nat) (s : store) :
  1 <= c ->
  exists r s' sc,
    processInBatches env processor items c oracle s = Some (r, s', sc)
    /\ NoDup (started_of (trace sc))
    /\ (forall x, In x (started_of (trace sc)) -> x < List.length items)
    /\ NoDup (ended_of (trace sc))
    /\ incl (ended_of (trace sc)) (started_of (trace sc))
    /\ (returned r = true ->
        Permutation (ended_of (trace sc)) (started_of (trace sc))).
Proof.
  intros Hc. unfold processInBatches.
  destruct (batches_trace env processor (S (List.length items)) items c 0 []
                          oracle s sched0 Hc ltac:(lia))
    as (r & s' & sc & t & H & Ht & Hch).
  cbn [trace sched0 app] in Ht. subst t.
  destruct (chunked_fetches _ _ _ _ _ Hch) as (H1 & H2 & H3 & H4 & H5).
  exists r, s', sc. split; [exact H|]. split; [exact H1|].
  split; [|split; [exact H3|split; [exact H4 | exact H5]]].
  intros x Hx. specialize (H2 x Hx). lia.
Qed.

Lemma no_item_is_fetched_twice_witness :
  exists r s' sc,
    processInBatches Demo.site_env (processUrl Demo.site_env Demo.no_options 4)
                     (map fst Demo.site) 2 [1; 1] (empty_store EmptyString)
    = Some (r, s', sc)
    /\ NoDup (started_of (trace sc))
    /\ (forall x, In x (started_of (trace sc)) -> x < 4)
    /\ NoDup (ended_of (trace sc))
    /\ incl (ended_of (trace sc)) (started_of (trace sc))
    /\ (returned r = true ->
        Permutation (ended_of (trace sc)) (started_of (trace sc))).
Proof.
  apply (no_item_is_fetched_twice Demo.site_env
           (processUrl Demo.site_env Demo.no_options 4)
           (map fst Demo.site) 2 [1; 1] (empty_store EmptyString)).
  lia.
Defined.
